(** * Meta Creative Builder: the creative-generation pipeline

    A shallow embedding of [services/geminiService.ts] and of the submit
    handler of the creative form, with the properties of the pipeline
    proved over it.

    - JavaScript strings are sequences of UTF-16 code units ([list N]).
    - The objects the pipeline shares with its caller (the [UserInputs]
      object and the product image it points to) live in a store, a
      [gmap] from locations to objects, so that aliasing and mutation are
      visible.
    - The generative-AI service, [fetch], [URL.createObjectURL],
      [crypto.randomUUID] and the JSON functions of the runtime are
      parameters of the development ([Platform]): every theorem holds for
      all of them.
    - Asynchronous code is a state-and-exception monad over the world
      (store, state of the outside, trace of the calls made); a [while]
      loop takes fuel. *)

From Stdlib Require Import ZArith NArith List String Ascii Lia.
From stdpp Require Import gmap list.

Set Warnings "-register-all".
Set Warnings "-notation-overridden".


(** ** JavaScript strings *)

Abbreviation jsstring := (list N).

(** A literal of the source, as code units (literals here are ASCII). *)
Definition js (s : string) : jsstring :=
  map N_of_ascii (list_ascii_of_string s).

(** The double quote, the line feed. *)
Definition dq : jsstring := [34%N].
Definition nl : jsstring := [10%N].

(** Joins the lines of a template literal with line feeds. *)
Fixpoint unlines (ls : list jsstring) : jsstring :=
  match ls with
  | [] => []
  | [l] => l
  | l :: ls' => l ++ nl ++ unlines ls'
  end.

(** ECMAScript [WhiteSpace] and [LineTerminator] code points, the ones
    [String.prototype.trim] removes. *)
Definition isWhiteSpace (c : N) : bool :=
  ((c =? 9) || (c =? 10) || (c =? 11) || (c =? 12) || (c =? 13) || (c =? 32)
   || (c =? 160) || (c =? 5760) || ((8192 <=? c) && (c <=? 8202))
   || (c =? 8232) || (c =? 8233) || (c =? 8239) || (c =? 8287)
   || (c =? 12288) || (c =? 65279))%N.

Fixpoint trimStart (s : jsstring) : jsstring :=
  match s with
  | [] => []
  | c :: s' => if isWhiteSpace c then trimStart s' else s
  end.

Definition trimEnd (s : jsstring) : jsstring := rev (trimStart (rev s)).

(** [s.trim()] *)
Definition trim (s : jsstring) : jsstring := trimEnd (trimStart s).

(** [s.replace(/^"|"$/g, '')]: every match of the global pattern is one
    code unit long, a double quote standing at index 0 ([^"]) or at the
    last index (["$]); all matches are removed. [i] is the index of the
    head of [s] and [n] the length of the whole string. *)
Fixpoint replaceQuotesFrom (i n : nat) (s : jsstring) : jsstring :=
  match s with
  | [] => []
  | c :: s' =>
      if ((c =? 34)%N && ((i =? 0) || (S i =? n)))%bool
      then replaceQuotesFrom (S i) n s'
      else c :: replaceQuotesFrom (S i) n s'
  end.

Definition replaceWrappingQuotes (s : jsstring) : jsstring :=
  replaceQuotesFrom 0 (length s) s.

(** A value of type [string | undefined] inside a template literal. *)
Definition interpolate (s : option jsstring) : jsstring :=
  default (js "undefined") s.

(** Truthiness of a value of type [string | undefined]. *)
Definition truthy (s : option jsstring) : bool :=
  match s with
  | Some (_ :: _) => true
  | _ => false
  end.

(** Decimal digits of a natural number, as [String(n)] prints it. *)
Fixpoint digits (d : Decimal.uint) : jsstring :=
  match d with
  | Decimal.Nil => []
  | Decimal.D0 d' => 48%N :: digits d'
  | Decimal.D1 d' => 49%N :: digits d'
  | Decimal.D2 d' => 50%N :: digits d'
  | Decimal.D3 d' => 51%N :: digits d'
  | Decimal.D4 d' => 52%N :: digits d'
  | Decimal.D5 d' => 53%N :: digits d'
  | Decimal.D6 d' => 54%N :: digits d'
  | Decimal.D7 d' => 55%N :: digits d'
  | Decimal.D8 d' => 56%N :: digits d'
  | Decimal.D9 d' => 57%N :: digits d'
  end.

Definition decimal (n : nat) : jsstring := digits (Nat.to_uint n).

(** ** Values produced by [JSON.parse]

    TypeScript's [AdCopy[]] is erased at run time: what the pipeline
    carries is whatever [JSON.parse] returned. A number keeps its
    literal. *)
Inductive JSValue : Type :=
| JNull
| JBool (b : bool)
| JNumber (literal : jsstring)
| JString (s : jsstring)
| JArray (items : list JSValue)
| JObject (members : list (jsstring * JSValue)).

(** The value of the last member named [k], as property lookup on a
    parsed object finds it. *)
Fixpoint member (k : jsstring) (ms : list (jsstring * JSValue)) : option JSValue :=
  match ms with
  | [] => None
  | (k', v) :: ms' =>
      match member k ms' with
      | Some v' => Some v'
      | None => if decide (k' = k) then Some v else None
      end
  end.

Definition isString (v : option JSValue) : bool :=
  match v with
  | Some (JString _) => true
  | _ => false
  end.

(** The shape the response schema asks for: an object with the string
    members [headline], [primaryText] and [cta]. *)
Definition isAdCopy (v : JSValue) : bool :=
  match v with
  | JObject ms =>
      isString (member (js "headline") ms)
      && isString (member (js "primaryText") ms)
      && isString (member (js "cta") ms)
  | _ => false
  end.

(** ... and an array of them. *)
Definition isAdCopyArray (v : JSValue) : bool :=
  match v with
  | JArray items => forallb isAdCopy items
  | _ => false
  end.

(** ** types.ts *)

Inductive CreativeFormat := SQUARE | HORIZONTAL | VERTICAL.
Inductive CreativeType := IMAGE | VIDEO.
Inductive FontStyle := MODERN | BOLD | HANDWRITTEN | ELEGANT | PLAYFUL.

Definition CreativeFormat_value (f : CreativeFormat) : jsstring :=
  match f with
  | SQUARE => js "1080x1080 (Square)"
  | HORIZONTAL => js "1920x1080 (Horizontal)"
  | VERTICAL => js "1080x1920 (Vertical/Reels)"
  end.

Definition CreativeType_value (t : CreativeType) : jsstring :=
  match t with
  | IMAGE => js "Image"
  | VIDEO => js "Video"
  end.

Definition FontStyle_value (f : FontStyle) : jsstring :=
  match f with
  | MODERN => js "Modern"
  | BOLD => js "Bold"
  | HANDWRITTEN => js "Handwritten"
  | ELEGANT => js "Elegant"
  | PLAYFUL => js "Playful"
  end.

#[global] Instance CreativeFormat_eq_dec : EqDecision CreativeFormat.
Proof. solve_decision. Defined.
#[global] Instance CreativeType_eq_dec : EqDecision CreativeType.
Proof. solve_decision. Defined.
#[global] Instance FontStyle_eq_dec : EqDecision FontStyle.
Proof. solve_decision. Defined.

(** Locations of the store. *)
Abbreviation loc := nat.

(** The object behind [productImage]. *)
Record ProductImage := {
  mimeType : jsstring;
  data : jsstring;
}.

(** [UserInputs]; an optional field is an [option], and [productImage]
    holds a reference. *)
Record UserInputs := {
  productDescription : jsstring;
  productImage : option loc;
  productUrl : option jsstring;
  creativeFormat : CreativeFormat;
  creativeType : CreativeType;
  hookText : option jsstring;
  fontStyle : option FontStyle;
}.

(** [AdCreative]. [copy] is what the indexed read of the copy array
    gave; [None] stands for [undefined]. *)
Record AdCreative := {
  id : jsstring;
  url : jsstring;
  type : CreativeType;
  copy : option JSValue;
  variation : jsstring;
}.

(** ** The SDK's requests and responses (the fields the code uses) *)

Module GenAI.

Inductive Modality := IMAGE | TEXT.

(** [contents]: a prompt, or an inline image followed by a prompt. *)
Inductive Contents :=
| Prompt (text : jsstring)
| ImageAndText (mimeType data : jsstring) (text : jsstring).

(** [config] of [generateContent]. [JsonArrayOfObjects h p c] is
    [responseMimeType: "application/json"] with the schema: an ARRAY of
    OBJECTs with the required STRING properties [headline],
    [primaryText] and [cta], described by [h], [p] and [c]. *)
Inductive Config :=
| JsonArrayOfObjects (headline primaryText cta : jsstring)
| ResponseModalities (modalities : list Modality).

Record GenerateContentParameters := {
  model : jsstring;
  contents : Contents;
  config : option Config;
}.

Record InlineData := {
  mimeType : option jsstring;
  data : option jsstring;
}.

Record Part := {
  inlineData : option InlineData;
  partText : option jsstring;
}.

Record Content := { parts : option (list Part) }.

Record Candidate := { content : option Content }.

Record GenerateContentResponse := {
  text : option jsstring;
  candidates : option (list Candidate);
}.

Record GenerateImagesParameters := {
  imagesModel : jsstring;
  prompt : jsstring;
  numberOfImages : nat;
  outputMimeType : jsstring;
  aspectRatio : jsstring;
}.

Record Image := { imageBytes : option jsstring }.

Record GeneratedImage := { image : option Image }.

Record GenerateImagesResponse := {
  generatedImages : option (list GeneratedImage);
}.

Record GenerateVideosParameters := {
  videosModel : jsstring;
  videoPrompt : jsstring;
  videoImage : option (jsstring * jsstring); (* imageBytes, mimeType *)
  numberOfVideos : nat;
}.

Record Video := { uri : option jsstring }.

Record GeneratedVideo := { video : option Video }.

Record GenerateVideosResponse := {
  generatedVideos : option (list GeneratedVideo);
}.

Record GenerateVideosOperation := {
  name : option jsstring;
  done : option bool;
  response : option GenerateVideosResponse;
}.

End GenAI.

(** ** Exceptions, promises, outcomes *)

(** What a [throw] or a rejected promise carries. *)
Inductive Exn :=
| Error (message : jsstring)
| TypeError (message : jsstring)
| SyntaxError (message : jsstring)
| Failure (reason : jsstring).

(** A settled promise of the outside. *)
Inductive Result (A : Type) :=
| Resolved (a : A)
| Rejected (e : Exn).
Arguments Resolved {A} a.
Arguments Rejected {A} e.

Abbreviation Blob := (list N).

(** What [fetch] resolves to; [blob] is what [response.blob()] settles
    to. *)
Record FetchResponse := {
  ok : bool;
  statusText : jsstring;
  blob : Result Blob;
}.

(** What the run did to the outside, in order. *)
Inductive Event :=
| GenerateContent (params : GenAI.GenerateContentParameters)
| GenerateImages (params : GenAI.GenerateImagesParameters)
| GenerateVideos (params : GenAI.GenerateVideosParameters)
| GetVideosOperation (operation : GenAI.GenerateVideosOperation)
| SetTimeout (ms : N)
| Fetch (url : jsstring)
| CreateObjectURL (b : Blob)
| RandomUUID
| ConsoleWarn (message : jsstring)
| ConsoleError (message : jsstring).

(** ** The platform: everything the module imports or calls

    [Ext] is the state of the outside (service, network, browser). The
    three model names come from [constants], which is not part of the
    sources at hand; [API_KEY] is [process.env.API_KEY].

    The [dyn_] fields are the JavaScript runtime's untyped reads on a
    parsed value that is not an array: [!v || v.length === 0],
    [v.length === 0], [v[0]] and [v[index % v.length]]. On an array the
    model computes these reads itself. *)
Record Platform (Ext : Type) := {
  GEMINI_TEXT_MODEL : jsstring;
  GEMINI_IMAGE_MODEL : jsstring;
  GEMINI_VIDEO_MODEL : jsstring;
  API_KEY : option jsstring;
  JSON_parse : jsstring -> option JSValue;
  JSON_stringify : JSValue -> jsstring;
  dyn_falsyOrEmpty : JSValue -> bool;
  dyn_lengthIsZero : JSValue -> Result bool;
  dyn_first : JSValue -> option JSValue;
  dyn_atIndexModLength : JSValue -> nat -> Result (option JSValue);
  models_generateContent :
    GenAI.GenerateContentParameters -> Ext -> Result GenAI.GenerateContentResponse * Ext;
  models_generateImages :
    GenAI.GenerateImagesParameters -> Ext -> Result GenAI.GenerateImagesResponse * Ext;
  models_generateVideos :
    GenAI.GenerateVideosParameters -> Ext -> Result GenAI.GenerateVideosOperation * Ext;
  operations_getVideosOperation :
    GenAI.GenerateVideosOperation -> Ext -> Result GenAI.GenerateVideosOperation * Ext;
  window_fetch : jsstring -> Ext -> Result FetchResponse * Ext;
  URL_createObjectURL : Blob -> Ext -> jsstring * Ext;
  crypto_randomUUID : Ext -> jsstring * Ext;
}.
Arguments GEMINI_TEXT_MODEL {Ext} _.
Arguments GEMINI_IMAGE_MODEL {Ext} _.
Arguments GEMINI_VIDEO_MODEL {Ext} _.
Arguments API_KEY {Ext} _.
Arguments JSON_parse {Ext} _ _.
Arguments JSON_stringify {Ext} _ _.
Arguments dyn_falsyOrEmpty {Ext} _ _.
Arguments dyn_lengthIsZero {Ext} _ _.
Arguments dyn_first {Ext} _ _.
Arguments dyn_atIndexModLength {Ext} _ _ _.
Arguments models_generateContent {Ext} _ _ _.
Arguments models_generateImages {Ext} _ _ _.
Arguments models_generateVideos {Ext} _ _ _.
Arguments operations_getVideosOperation {Ext} _ _ _.
Arguments window_fetch {Ext} _ _ _.
Arguments URL_createObjectURL {Ext} _ _ _.
Arguments crypto_randomUUID {Ext} _ _.

(** ** The world and the monad *)

Inductive Obj :=
| InputsObj (u : UserInputs)
| ImageObj (i : ProductImage).

Record World (Ext : Type) := {
  heap : gmap nat Obj;
  ext : Ext;
  trace : list Event;
}.
Arguments heap {Ext} _.
Arguments ext {Ext} _.
Arguments trace {Ext} _.
Arguments Build_World {Ext} _ _ _.

(** How a computation stands when it is observed: it returned, it threw,
    or it is still waiting in a loop whose fuel ran out. *)
Inductive Outcome (A : Type) :=
| Returned (a : A)
| Threw (e : Exn)
| Pending.
Arguments Returned {A} a.
Arguments Threw {A} e.
Arguments Pending {A}.

Definition M (Ext A : Type) : Type := World Ext -> Outcome A * World Ext.

Section Monad.
Context {Ext : Type}.

Definition ret {A} (a : A) : M Ext A := fun w => (Returned a, w).

Definition throw {A} (e : Exn) : M Ext A := fun w => (Threw e, w).

Definition pending {A} : M Ext A := fun w => (Pending, w).

Definition bind {A B} (m : M Ext A) (k : A -> M Ext B) : M Ext B :=
  fun w =>
    match m w with
    | (Returned a, w') => k a w'
    | (Threw e, w') => (Threw e, w')
    | (Pending, w') => (Pending, w')
    end.

(** [try { m } catch (e) { handler e }] *)
Definition tryCatch {A} (m : M Ext A) (handler : Exn -> M Ext A) : M Ext A :=
  fun w =>
    match m w with
    | (Threw e, w') => handler e w'
    | r => r
    end.

Definition emit (ev : Event) : M Ext unit :=
  fun w => (Returned tt, Build_World (heap w) (ext w) (trace w ++ [ev])).

(** A call whose promise may reject. *)
Definition call {A} (ev : Event) (f : Ext -> Result A * Ext) : M Ext A :=
  fun w =>
    let (r, x) := f (ext w) in
    (match r with
     | Resolved a => Returned a
     | Rejected e => Threw e
     end,
     Build_World (heap w) x (trace w ++ [ev])).

(** A synchronous call of the browser. *)
Definition callSync {A} (ev : Event) (f : Ext -> A * Ext) : M Ext A :=
  fun w =>
    let (a, x) := f (ext w) in
    (Returned a, Build_World (heap w) x (trace w ++ [ev])).

Definition console_warn (message : jsstring) : M Ext unit :=
  emit (ConsoleWarn message).

Definition console_error (message : jsstring) : M Ext unit :=
  emit (ConsoleError message).

(** [await new Promise(resolve => setTimeout(resolve, ms))] *)
Definition sleep (ms : N) : M Ext unit := emit (SetTimeout ms).

(** Reading a property of the [UserInputs] object at [l]. *)
Definition readInputs (l : loc) : M Ext UserInputs :=
  fun w =>
    match heap w !! l with
    | Some (InputsObj u) => (Returned u, w)
    | _ => (Threw (TypeError (js "not a UserInputs object")), w)
    end.

Definition readImage (l : loc) : M Ext ProductImage :=
  fun w =>
    match heap w !! l with
    | Some (ImageObj i) => (Returned i, w)
    | _ => (Threw (TypeError (js "not an image object")), w)
    end.

(** A new object, at a location the store does not use. *)
Definition alloc (o : Obj) : M Ext loc :=
  fun w =>
    let l := fresh (dom (heap w)) in
    (Returned l, Build_World (<[l := o]> (heap w)) (ext w) (trace w)).

(** [{ ...inputs }]: a new object with the same property values (the
    image is shared, not copied). *)
Definition spread (inputs : loc) : M Ext loc :=
  bind (readInputs inputs) (fun u => alloc (InputsObj u)).

(** Assignment to a property of the [UserInputs] object at [l]. *)
Definition update (l : loc) (f : UserInputs -> UserInputs) : M Ext unit :=
  fun w =>
    match heap w !! l with
    | Some (InputsObj u) =>
        (Returned tt, Build_World (<[l := InputsObj (f u)]> (heap w)) (ext w) (trace w))
    | _ => (Threw (TypeError (js "not a UserInputs object")), w)
    end.

(** [Promise.all]: every promise of the list has been created, so
    every request is issued, whatever the others do; the result is the
    list of the values, or a rejection when a promise rejected. The
    requests reach the outside in the order of the list. When several
    promises reject, the source gets the rejection that came first in
    time; here it is the one that comes first in the list. *)
Fixpoint Promise_all {A} (promises : list (M Ext A)) : M Ext (list A) :=
  match promises with
  | [] => ret []
  | p :: ps =>
      fun w =>
        let (r, w1) := p w in
        let (rs, w2) := Promise_all ps w1 in
        (match r, rs with
         | Returned a, Returned l => Returned (a :: l)
         | Returned _, Threw e => Threw e
         | Returned _, Pending => Pending
         | Threw e, _ => Threw e
         | Pending, _ => Pending
         end, w2)
  end.

(** What each promise of the list settled to, in the order of the list. *)
Fixpoint outcomes {A} (promises : list (M Ext A)) (w : World Ext) : list (Outcome A) :=
  match promises with
  | [] => []
  | p :: ps => let (r, w1) := p w in r :: outcomes ps w1
  end.

End Monad.

(** The world after a call that left the outside in [x], and after an
    event that leaves the outside as it is. *)
Definition afterCall {Ext} (ev : Event) (x : Ext) (w : World Ext) : World Ext :=
  Build_World (heap w) x (trace w ++ [ev]).

Definition afterEvent {Ext} (ev : Event) (w : World Ext) : World Ext :=
  Build_World (heap w) (ext w) (trace w ++ [ev]).

Notation "'let!' x ':=' m 'in' k" := (bind m (fun x => k))
  (at level 10, x pattern, m at level 100, k at level 200).

(** Awaiting a promise that is already settled (no call is made). *)
Definition settle {Ext A} (r : Result A) : M Ext A :=
  match r with
  | Resolved a => ret a
  | Rejected e => throw e
  end.

(** [callback] applied to every element in order, as [Array.prototype.map]
    does with a callback that may throw: the first exception ends it. *)
Fixpoint mapM {Ext A B} (callback : A -> nat -> M Ext B) (l : list A) (index : nat)
  : M Ext (list B) :=
  match l with
  | [] => ret []
  | x :: l' =>
      let! y := callback x index in
      let! ys := mapM callback l' (S index) in
      ret (y :: ys)
  end.

(** [Array.prototype.reduce] with an effectful callback. *)
Fixpoint reduceM {Ext A B} (callback : B -> A -> M Ext B) (l : list A) (acc : B)
  : M Ext B :=
  match l with
  | [] => ret acc
  | x :: l' =>
      let! acc' := callback acc x in
      reduceM callback l' acc'
  end.

Definition nonEmpty (s : jsstring) : bool :=
  match s with
  | [] => false
  | _ :: _ => true
  end.

(** ** services/geminiService.ts *)

Definition VARIATION_PROMPTS : list jsstring :=
  [ js "Focus on a clean, minimalist aesthetic with a bright, uncluttered background. The product should be the hero.";
    js "Show the product in a vibrant, energetic lifestyle scene. Include a human element (e.g., hands using the product).";
    js "Create a dynamic, eye-catching composition with bold colors and strong visual hierarchy. Emphasize a key feature." ].

(** [getAspectRatio] (lines 57-64); the [default] branch of the switch
    answers for no value of the enum. *)
Definition getAspectRatio (format : CreativeFormat) : jsstring :=
  match format with
  | SQUARE => js "1:1"
  | HORIZONTAL => js "16:9"
  | VERTICAL => js "9:16"
  end.

(** The prompts, character for character. *)
Module Prompts.

Definition productInfo (productUrl : option jsstring) : jsstring :=
  js "Act as an expert marketer. Given this product URL: " ++ interpolate productUrl
  ++ js ", extract the product name and create a concise, compelling description (2-3 sentences) suitable for an ad. Focus on key features and benefits.".

Definition adCopy (productInfo : option jsstring) : jsstring :=
  nl
  ++ js "    Based on the following product information, generate 3 unique sets of ad copy (headline, primary text, CTA) for a Meta ad." ++ nl
  ++ js "    Product Info: " ++ dq ++ interpolate productInfo ++ dq ++ nl
  ++ nl
  ++ js "    The copy must be conversion-focused, highlight benefits, use positive emotional triggers (trust, curiosity, aspiration), and be fully compliant with Meta policies (NO shocking claims, NO before/after, NO clickbait). The CTA should be strong and clear." ++ nl
  ++ js "    Return the response as a JSON array." ++ nl
  ++ js "    ".

Definition fontName (fontStyle : option FontStyle) : jsstring :=
  interpolate (FontStyle_value <$> fontStyle).

Definition imageEdit (productInfo hookText : option jsstring) (fontStyle : option FontStyle)
    (variation : jsstring) : jsstring :=
  trim (
  nl
  ++ js "            You are an expert ad creative designer. Your task is to edit the provided image to turn it into a high-performing ad creative for Meta platforms." ++ nl
  ++ nl
  ++ js "            **Instructions:**" ++ nl
  ++ js "            1.  **Primary Subject:** The main product in the user's image is the hero. DO NOT alter, replace, or obscure it." ++ nl
  ++ js "            2.  **Style:** Apply a " ++ dq ++ variation ++ dq ++ js " theme. This means adjusting the background, lighting, and mood accordingly." ++ nl
  ++ js "            3.  **Product Context:** The product is: " ++ dq ++ interpolate productInfo ++ dq ++ js ". Use this to inform the style." ++ nl
  ++ js "            4.  **Text Overlay:** "
  ++ (if truthy hookText
      then js "Add the text " ++ dq ++ interpolate hookText ++ dq
           ++ js " using a professional and highly legible " ++ fontName fontStyle
           ++ js " font. Ensure it's well-placed and doesn't cover the main product."
      else js "Do not add any text.") ++ nl
  ++ js "            5.  **Output:** Return ONLY the edited image. Do not return text explanations." ++ nl
  ++ js "        ").

Definition textToImage (productInfo hookText : option jsstring) (fontStyle : option FontStyle)
    (format : CreativeFormat) (variation : jsstring) : jsstring :=
  trim (
  nl
  ++ js "            A high-resolution, photorealistic image for a Meta ad." ++ nl
  ++ js "            Subject: " ++ dq ++ interpolate productInfo ++ dq ++ js "." ++ nl
  ++ js "            Style: " ++ dq ++ variation ++ dq ++ js "." ++ nl
  ++ js "            "
  ++ (if decide (format = VERTICAL)
      then js "Adapt for Instagram Reels."
      else js "Use a clean, premium style.") ++ nl
  ++ js "            "
  ++ (if truthy hookText
      then js "Include the text " ++ dq ++ interpolate hookText ++ dq
           ++ js " in a stylish and legible " ++ fontName fontStyle ++ js " font."
      else []) ++ nl
  ++ js "            The image must be brand-safe and policy-compliant." ++ nl
  ++ js "        ").

Definition overlay (hookText : option jsstring) (fontStyle : option FontStyle) : jsstring :=
  if truthy hookText
  then js "Overlay the text " ++ dq ++ interpolate hookText ++ dq
       ++ js " in a stylish " ++ fontName fontStyle ++ js " font."
  else [].

Definition videoFromImage (productInfo hookText : option jsstring)
    (fontStyle : option FontStyle) : jsstring :=
  trim (
  nl
  ++ js "            Create an 8-15 second looping video ad for Meta." ++ nl
  ++ js "            Use the provided image as the main subject." ++ nl
  ++ js "            Animate the product in a dynamic scene based on this description: " ++ dq ++ interpolate productInfo ++ dq ++ js "." ++ nl
  ++ js "            The video should be high-energy with an attention-grabbing hook in the first 2 seconds." ++ nl
  ++ js "            Style: Clean, bright, professional." ++ nl
  ++ js "            " ++ overlay hookText fontStyle ++ nl
  ++ js "        ").

Definition videoFromText (productInfo hookText : option jsstring)
    (fontStyle : option FontStyle) : jsstring :=
  trim (
  nl
  ++ js "            Create an 8-15 second looping video ad for Meta." ++ nl
  ++ js "            Product description: " ++ dq ++ interpolate productInfo ++ dq ++ js "." ++ nl
  ++ js "            The video should be high-energy, visually appealing, and feature a motion hook in the first 2 seconds." ++ nl
  ++ js "            Style: Clean, bright, professional." ++ nl
  ++ js "            " ++ overlay hookText fontStyle ++ nl
  ++ js "        ").

Definition proofreadText (textToProofread : jsstring) (context : option jsstring) : jsstring :=
  nl
  ++ js "            You are an expert copy editor. Proofread and correct any spelling or grammatical errors in the following text." ++ nl
  ++ js "            The text is for a marketing creative." ++ nl
  ++ js "            Product context: " ++ dq ++ interpolate context ++ dq ++ nl
  ++ js "            " ++ nl
  ++ js "            Return ONLY the corrected text, without any additional comments, formatting, or quotation marks." ++ nl
  ++ js "            " ++ nl
  ++ js "            Text to correct: " ++ dq ++ textToProofread ++ dq ++ nl
  ++ js "        ".

(** [json] is [JSON.stringify(adCopies, null, 2)]. *)
Definition proofreadAdCopy (json : jsstring) (context : option jsstring) : jsstring :=
  nl
  ++ js "            You are an expert copy editor. Proofread and correct any spelling or grammatical errors in the following JSON array of ad copy." ++ nl
  ++ js "            Maintain the exact original JSON structure." ++ nl
  ++ js "            The copy is for a marketing creative." ++ nl
  ++ js "            Product Context: " ++ dq ++ interpolate context ++ dq ++ nl
  ++ nl
  ++ js "            JSON to correct:" ++ nl
  ++ js "            " ++ json ++ nl
  ++ js "        ".

End Prompts.

(** The response schemas of the two JSON requests. *)
Definition adCopySchema : GenAI.Config :=
  GenAI.JsonArrayOfObjects
    (js "A short, catchy headline (max 40 chars).")
    (js "Compelling primary text (2-3 sentences).")
    (js "A strong call to action like 'Shop Now' or 'Learn More'.").

Definition proofreadSchema : GenAI.Config :=
  GenAI.JsonArrayOfObjects
    (js "Corrected headline.")
    (js "Corrected primary text.")
    (js "The original Call To Action text (should not be changed).").

Definition withProductDescription (d : jsstring) (u : UserInputs) : UserInputs :=
  {| productDescription := d;
     productImage := productImage u;
     productUrl := productUrl u;
     creativeFormat := creativeFormat u;
     creativeType := creativeType u;
     hookText := hookText u;
     fontStyle := fontStyle u |}.

Definition withHookText (h : jsstring) (u : UserInputs) : UserInputs :=
  {| productDescription := productDescription u;
     productImage := productImage u;
     productUrl := productUrl u;
     creativeFormat := creativeFormat u;
     creativeType := creativeType u;
     hookText := Some h;
     fontStyle := fontStyle u |}.

Section Pipeline.
Context {Ext : Type} (P : Platform Ext).

(** *** The calls to the outside *)

Definition ai_models_generateContent (params : GenAI.GenerateContentParameters)
  : M Ext GenAI.GenerateContentResponse :=
  call (GenerateContent params) (models_generateContent P params).

Definition ai_models_generateImages (params : GenAI.GenerateImagesParameters)
  : M Ext GenAI.GenerateImagesResponse :=
  call (GenerateImages params) (models_generateImages P params).

Definition ai_models_generateVideos (params : GenAI.GenerateVideosParameters)
  : M Ext GenAI.GenerateVideosOperation :=
  call (GenerateVideos params) (models_generateVideos P params).

Definition ai_operations_getVideosOperation (operation : GenAI.GenerateVideosOperation)
  : M Ext GenAI.GenerateVideosOperation :=
  call (GetVideosOperation operation) (operations_getVideosOperation P operation).

Definition fetch (url : jsstring) : M Ext FetchResponse :=
  call (Fetch url) (window_fetch P url).

Definition createObjectURL (b : Blob) : M Ext jsstring :=
  callSync (CreateObjectURL b) (URL_createObjectURL P b).

Definition randomUUID : M Ext jsstring :=
  callSync RandomUUID (crypto_randomUUID P).

(** *** The request objects the module builds *)

(** [{ model: GEMINI_TEXT_MODEL, contents: prompt }] *)
Definition textRequest (prompt : jsstring) : GenAI.GenerateContentParameters :=
  {| GenAI.model := GEMINI_TEXT_MODEL P;
     GenAI.contents := GenAI.Prompt prompt;
     GenAI.config := None |}.

(** ... with [config: { responseMimeType, responseSchema }] *)
Definition jsonRequest (prompt : jsstring) (schema : GenAI.Config)
  : GenAI.GenerateContentParameters :=
  {| GenAI.model := GEMINI_TEXT_MODEL P;
     GenAI.contents := GenAI.Prompt prompt;
     GenAI.config := Some schema |}.

(** The image-edit request of lines 94-100. *)
Definition imageEditRequest (image : ProductImage) (prompt : jsstring)
  : GenAI.GenerateContentParameters :=
  {| GenAI.model := js "gemini-2.5-flash-image-preview";
     GenAI.contents := GenAI.ImageAndText (mimeType image) (data image) prompt;
     GenAI.config := Some (GenAI.ResponseModalities [GenAI.IMAGE; GenAI.TEXT]) |}.

(** The text-to-image request of lines 133-141. *)
Definition textToImageRequest (format : CreativeFormat) (prompt : jsstring)
  : GenAI.GenerateImagesParameters :=
  {| GenAI.imagesModel := GEMINI_IMAGE_MODEL P;
     GenAI.prompt := prompt;
     GenAI.numberOfImages := 1;
     GenAI.outputMimeType := js "image/jpeg";
     GenAI.aspectRatio := getAspectRatio format |}.

(** [JSON.parse(text)]; the argument is converted to a string first. *)
Definition parse (text : option jsstring) : M Ext JSValue :=
  match JSON_parse P (interpolate text) with
  | Some v => ret v
  | None => throw (SyntaxError (js "Unexpected token"))
  end.

(** *** Untyped reads on the ad copy *)

(** [!v || v.length === 0] *)
Definition falsyOrEmpty (v : JSValue) : bool :=
  match v with
  | JArray items => length items =? 0
  | _ => dyn_falsyOrEmpty P v
  end.

(** [v.length === 0] *)
Definition lengthIsZero (v : JSValue) : M Ext bool :=
  match v with
  | JArray items => ret (length items =? 0)
  | _ => settle (dyn_lengthIsZero P v)
  end.

(** [v[0]] *)
Definition first (v : JSValue) : option JSValue :=
  match v with
  | JArray items => items !! 0
  | _ => dyn_first P v
  end.

(** [v[index % v.length]] *)
Definition atIndexModLength (v : JSValue) (index : nat) : M Ext (option JSValue) :=
  match v with
  | JArray items => ret (items !! (index mod length items))
  | _ => settle (dyn_atIndexModLength P v index)
  end.

(** *** getProductInfo (lines 8-18) *)
Definition getProductInfo (inputs : loc) : M Ext (option jsstring) :=
  let! u := readInputs inputs in
  if truthy (productUrl u) then
    let prompt := Prompts.productInfo (productUrl u) in
    let! response := ai_models_generateContent (textRequest prompt) in
    ret (GenAI.text response)
  else
    ret (Some (productDescription u)).

(** *** generateAdCopy (lines 20-55) *)
Definition generateAdCopy (productInfo : option jsstring) : M Ext JSValue :=
  let prompt := Prompts.adCopy productInfo in
  let! response := ai_models_generateContent (jsonRequest prompt adCopySchema) in
  tryCatch
    (parse (GenAI.text response))
    (fun e =>
       let! _ := console_error (js "Failed to parse ad copy JSON:") in
       throw (Error (js "Failed to generate valid ad copy."))).

(** *** generateImages (lines 72-154) *)

(** [response.candidates?.[0]?.content?.parts?.find(part => part.inlineData)] *)
Definition findImagePart (response : GenAI.GenerateContentResponse) : option GenAI.Part :=
  match GenAI.candidates response with
  | Some (candidate :: _) =>
      match GenAI.content candidate with
      | Some content =>
          match GenAI.parts content with
          | Some parts =>
              find (fun part => bool_decide (is_Some (GenAI.inlineData part))) parts
          | None => None
          end
      | None => None
      end
  | _ => None
  end.

(** The data URL of the image of a response: [imagePart?.inlineData?.data]
    is truthy. *)
Definition editedImage (response : GenAI.GenerateContentResponse) : option jsstring :=
  match findImagePart response with
  | Some imagePart =>
      match GenAI.inlineData imagePart with
      | Some inline =>
          if truthy (GenAI.data inline)
          then Some (js "data:" ++ interpolate (GenAI.mimeType inline)
                     ++ js ";base64," ++ interpolate (GenAI.data inline))
          else None
      | None => None
      end
  | None => None
  end.

(** The callback of [responses.reduce] (lines 105-113). *)
Definition collectImage (acc : list jsstring) (response : GenAI.GenerateContentResponse)
  : M Ext (list jsstring) :=
  match editedImage response with
  | Some dataUrl => ret (acc ++ [dataUrl])
  | None =>
      let! _ := console_warn (js "An image editing variation failed to produce an image.") in
      ret acc
  end.

(** The callback of [responses.map] (lines 145-152). *)
Definition generatedImage (res : GenAI.GenerateImagesResponse) (index : nat)
  : M Ext jsstring :=
  match GenAI.generatedImages res with
  | None | Some [] =>
      let! _ := console_error (js "Image generation failed:") in
      throw (Error (js "Image generation failed to produce an image. Please try a different prompt."))
  | Some (generated :: _) =>
      match GenAI.image generated with
      | Some image =>
          let base64ImageBytes := GenAI.imageBytes image in
          ret (js "data:image/jpeg;base64," ++ interpolate base64ImageBytes)
      | None => throw (TypeError (js "Cannot read properties of undefined (reading 'imageBytes')"))
      end
  end.

(** The prompts and the promises of the image-editing workflow
    (lines 75-101), for the inputs [u] and their image. *)
Definition imageEditPrompts (u : UserInputs) (productInfo : option jsstring)
  : list jsstring :=
  map (Prompts.imageEdit productInfo (hookText u) (fontStyle u)) VARIATION_PROMPTS.

Definition imageEditPromises (u : UserInputs) (image : ProductImage)
    (productInfo : option jsstring)
  : list (M Ext GenAI.GenerateContentResponse) :=
  map (fun prompt => ai_models_generateContent (imageEditRequest image prompt))
      (imageEditPrompts u productInfo).

(** The prompts and the promises of the text-to-image workflow
    (lines 123-142). *)
Definition imagePrompts (u : UserInputs) (productInfo : option jsstring)
  : list jsstring :=
  map (Prompts.textToImage productInfo (hookText u) (fontStyle u) (creativeFormat u))
      VARIATION_PROMPTS.

Definition imagePromises (u : UserInputs) (productInfo : option jsstring)
  : list (M Ext GenAI.GenerateImagesResponse) :=
  map (fun prompt => ai_models_generateImages (textToImageRequest (creativeFormat u) prompt))
      (imagePrompts u productInfo).

Definition generateImages (inputs : loc) (productInfo : option jsstring)
  : M Ext (list jsstring) :=
  let! u := readInputs inputs in
  match productImage u with
  | Some imageRef =>
      (* Image Editing workflow: Use the provided image as a base *)
      let! image := readImage imageRef in
      let promises := imageEditPromises u image productInfo in
      let! responses := Promise_all promises in
      let! successfulImages := reduceM collectImage responses [] in
      if length successfulImages =? 0 then
        throw (Error (js "Image editing failed to produce any images. The model may be unable to process the request. Please try a different image or prompt."))
      else
        ret successfulImages
  | None =>
      (* Text-to-Image workflow: Generate from scratch *)
      let promises := imagePromises u productInfo in
      let! responses := Promise_all promises in
      mapM generatedImage responses 0
  end.

(** *** generateVideos (lines 156-207) *)

(** The request of lines 178-183; the image is spread in only when
    there is one. *)
Definition videoRequest (image : option ProductImage) (videoPrompt : jsstring)
  : GenAI.GenerateVideosParameters :=
  {| GenAI.videosModel := GEMINI_VIDEO_MODEL P;
     GenAI.videoPrompt := videoPrompt;
     GenAI.videoImage := (fun i => (data i, mimeType i)) <$> image;
     GenAI.numberOfVideos := 1 |}.

(** The prompt of lines 157-176: image-conditioned when there is a
    product image. *)
Definition videoPromptFor (u : UserInputs) (image : option ProductImage)
    (productInfo : option jsstring) : jsstring :=
  match image with
  | Some _ => Prompts.videoFromImage productInfo (hookText u) (fontStyle u)
  | None => Prompts.videoFromText productInfo (hookText u) (fontStyle u)
  end.

(** The loop of lines 185-188; [fuel] bounds the number of polls the
    observer waits for. *)
Fixpoint poll (fuel : nat) (operation : GenAI.GenerateVideosOperation)
  : M Ext GenAI.GenerateVideosOperation :=
  match GenAI.done operation with
  | Some true => ret operation
  | _ =>
      match fuel with
      | 0 => pending
      | S fuel' =>
          let! _ := sleep 10000 in
          let! operation' := ai_operations_getVideosOperation operation in
          poll fuel' operation'
      end
  end.

(** [operation.response?.generatedVideos?.[0]?.video?.uri] *)
Definition downloadLinkOf (operation : GenAI.GenerateVideosOperation) : option jsstring :=
  match GenAI.response operation with
  | Some response =>
      match GenAI.generatedVideos response with
      | Some (generated :: _) =>
          match GenAI.video generated with
          | Some video => GenAI.uri video
          | None => None
          end
      | _ => None
      end
  | None => None
  end.

(** After the loop (lines 190-206): the video of the finished
    operation, downloaded and turned into an object URL. *)
Definition download (operation : GenAI.GenerateVideosOperation) : M Ext (list jsstring) :=
  let downloadLink := downloadLinkOf operation in
  if negb (truthy downloadLink) then
    let! _ := console_error (js "Video generation operation completed but returned no video URI.") in
    throw (Error (js "Video generation failed. The model did not return a video. Please try a different prompt or image."))
  else
    (* The downloadLink is an API endpoint. We must fetch it to get the video bytes. *)
    let! videoResponse := fetch (interpolate downloadLink ++ js "&key=" ++ interpolate (API_KEY P)) in
    if negb (ok videoResponse) then
      throw (Error (js "Failed to download the generated video: " ++ statusText videoResponse))
    else
      let! videoBlob := settle (blob videoResponse) in
      let! videoUrl := createObjectURL videoBlob in
      ret [videoUrl].

Definition generateVideos (fuel : nat) (inputs : loc) (productInfo : option jsstring)
  : M Ext (list jsstring) :=
  let! u := readInputs inputs in
  let! image :=
    match productImage u with
    | Some imageRef => let! i := readImage imageRef in ret (Some i)
    | None => ret None
    end in
  let videoPrompt := videoPromptFor u image productInfo in
  let! operation := ai_models_generateVideos (videoRequest image videoPrompt) in
  let! operation := poll fuel operation in
  download operation.

(** *** proofreadText (lines 209-232) *)
Definition proofreadText (textToProofread : jsstring) (context : option jsstring)
  : M Ext jsstring :=
  if negb (nonEmpty textToProofread) || negb (nonEmpty (trim textToProofread)) then
    ret textToProofread
  else
    tryCatch
      (let prompt := Prompts.proofreadText textToProofread context in
       let! response := ai_models_generateContent (textRequest prompt) in
       match GenAI.text response with
       | Some text => ret (replaceWrappingQuotes (trim text))
       | None => throw (TypeError (js "Cannot read properties of undefined (reading 'trim')"))
       end)
      (fun error =>
         let! _ := console_warn (js "Proofreading failed for text, returning original.") in
         ret textToProofread).

(** *** proofreadAdCopy (lines 234-272) *)
Definition proofreadAdCopy (adCopies : JSValue) (context : option jsstring)
  : M Ext JSValue :=
  if falsyOrEmpty adCopies then
    ret adCopies
  else
    tryCatch
      (let prompt := Prompts.proofreadAdCopy (JSON_stringify P adCopies) context in
       let! response := ai_models_generateContent (jsonRequest prompt proofreadSchema) in
       parse (GenAI.text response))
      (fun error =>
         let! _ := console_warn (js "Proofreading failed for ad copy, returning original.") in
         ret adCopies).

(** *** generateAdCreatives (lines 274-331) *)

(** Steps 1 to 4 (lines 275-296): the corrected copy of the inputs, the
    product info and the final ad copy. *)
Definition resolveCopy (inputs : loc) : M Ext (loc * option jsstring * JSValue) :=
  let! correctedInputs := spread inputs in
  (* 1. Proofread the user's product description if it was provided directly. *)
  let! c := readInputs correctedInputs in
  let! _ :=
    (if negb (truthy (productUrl c)) && nonEmpty (productDescription c) then
       let! corrected := proofreadText (productDescription c)
                           (Some (js "A product description for an online ad.")) in
       update correctedInputs (withProductDescription corrected)
     else ret tt) in
  (* 2. Get the final product info. *)
  let! productInfo := getProductInfo correctedInputs in
  (* 3. Proofread the hook text using the product info as context. *)
  let! c := readInputs correctedInputs in
  let! _ :=
    (if truthy (hookText c) then
       let! corrected := proofreadText (default [] (hookText c)) productInfo in
       update correctedInputs (withHookText corrected)
     else ret tt) in
  (* 4. Generate and proofread ad copy variations. *)
  let! initialAdCopy := generateAdCopy productInfo in
  let! finalAdCopy := proofreadAdCopy initialAdCopy productInfo in
  let! empty := lengthIsZero finalAdCopy in
  if (empty : bool) then throw (Error (js "Failed to generate ad copy."))
  else ret (correctedInputs, productInfo, finalAdCopy).

Definition variationNames : list jsstring :=
  [js "Minimalist"; js "Lifestyle"; js "Dynamic"].

(** The label of line 328. *)
Definition variationLabel (index : nat) : jsstring :=
  js "Variation " ++ decimal (index + 1) ++ js ": "
  ++ interpolate (variationNames !! (index mod length variationNames)).

(** The callback of [imageUrls.map] (lines 323-329). *)
Definition imageCreative (finalAdCopy : JSValue) (url : jsstring) (index : nat)
  : M Ext AdCreative :=
  let! uuid := randomUUID in
  let! adCopy := atIndexModLength finalAdCopy index in
  ret {| id := uuid;
         url := url;
         type := IMAGE;
         copy := adCopy;
         variation := variationLabel index |}.

(** Step 6 (lines 316-329): combine image variations with ad copy. *)
Definition combine (imageUrls : list jsstring) (finalAdCopy : JSValue)
  : M Ext (list AdCreative) :=
  if length imageUrls =? 0 then
    throw (Error (js "Failed to generate images."))
  else
    mapM (imageCreative finalAdCopy) imageUrls 0.

(** The record of the video (lines 302-312): one creative with the
    first ad copy, or nothing when there is no URL. *)
Definition videoCreative (finalAdCopy : JSValue) (videoUrls : list jsstring)
  : M Ext (list AdCreative) :=
  match videoUrls with
  | videoUrl :: _ =>
      let! uuid := randomUUID in
      ret [ {| id := uuid;
               url := videoUrl;
               type := VIDEO;
               copy := first finalAdCopy;
               variation := js "Video Creative" |} ]
  | [] => ret []
  end.

Definition generateAdCreatives (fuel : nat) (inputs : loc) : M Ext (list AdCreative) :=
  let! (correctedInputs, productInfo, finalAdCopy) := resolveCopy inputs in
  (* 5. Generate creatives based on type. *)
  let! u := readInputs inputs in
  if decide (creativeType u = VIDEO) then
    let! videoUrls := generateVideos fuel correctedInputs productInfo in
    videoCreative finalAdCopy videoUrls
  else
    let! imageUrls := generateImages correctedInputs productInfo in
    combine imageUrls finalAdCopy.

End Pipeline.

(** ** The creative form (components/CreativeForm): the submit handler *)

Module CreativeForm.

(** The state of the form (the [useState] cells, lines 22-28). *)
Record State := {
  productDescription : jsstring;
  productImage : option loc;
  productUrl : jsstring;
  creativeFormat : CreativeFormat;
  creativeType : CreativeType;
  hookText : jsstring;
  fontStyle : FontStyle;
}.

(** The description put in when the form names no product (line 84);
    224 is the letter a with grave accent. *)
Definition defaultDescription : jsstring :=
  js "Crea creative effetto wow per pubblicit" ++ [224%N]
  ++ js " professionale e iperealistica".

(** [desc] (lines 82-85). *)
Definition description (s : State) : jsstring :=
  if negb (nonEmpty (productDescription s))
     && negb (nonEmpty (productUrl s))
     && negb (bool_decide (is_Some (productImage s)))
  then defaultDescription
  else productDescription s.

(** The object of lines 87-95. *)
Definition inputsOf (s : State) : UserInputs :=
  Build_UserInputs (description s) (productImage s) (Some (productUrl s))
    (creativeFormat s) (creativeType s) (Some (hookText s)) (Some (fontStyle s)).

(** [handleSubmit] (lines 79-96): the [UserInputs] object is handed to
    [onGenerate]. *)
Definition handleSubmit {Ext A} (s : State) (onGenerate : loc -> M Ext A) : M Ext A :=
  let! inputs := alloc (InputsObj (inputsOf s)) in
  onGenerate inputs.

End CreativeForm.

(** ** App.tsx: [handleGenerate] *)

Module App.

(** What the page shows when the run is over: [results] or [error]. *)
Inductive View :=
| Results (results : list AdCreative)
| ErrorMessage (error : jsstring).

(** [err instanceof Error ? err.message : '...'] *)
Definition messageOf (err : Exn) : jsstring :=
  match err with
  | Error message | TypeError message | SyntaxError message => message
  | Failure _ => js "An unknown error occurred. Please check your API key and try again."
  end.

(** [handleGenerate] (lines 37-52), without the loading flags. *)
Definition handleGenerate {Ext} (P : Platform Ext) (fuel : nat) (inputs : loc)
  : M Ext View :=
  tryCatch
    (let! generatedResults := generateAdCreatives P fuel inputs in
     ret (Results generatedResults))
    (fun err =>
       let! _ := console_error (messageOf err) in
       ret (ErrorMessage (messageOf err))).

(** Submitting the form: [handleSubmit] with [handleGenerate] as
    [onGenerate]. *)
Definition submit {Ext} (P : Platform Ext) (fuel : nat) (s : CreativeForm.State)
  : M Ext View :=
  CreativeForm.handleSubmit s (handleGenerate P fuel).

End App.

(** ** A reference JSON reader and printer

    [JSON.parse] and [JSON.stringify] are parameters of the pipeline.
    This reader follows the JSON grammar (ECMA-404); it is what the
    concrete runs below use for [JSON.parse]. *)

Module Json.

Definition isWs (c : N) : bool :=
  ((c =? 32) || (c =? 9) || (c =? 10) || (c =? 13))%N.

Fixpoint skipWs (s : jsstring) : jsstring :=
  match s with
  | [] => []
  | c :: s' => if isWs c then skipWs s' else s
  end.

Definition isDigit (c : N) : bool := ((48 <=? c) && (c <=? 57))%N.

Definition hexValue (c : N) : option N :=
  if isDigit c then Some (c - 48)%N
  else if ((97 <=? c) && (c <=? 102))%N then Some (c - 87)%N
  else if ((65 <=? c) && (c <=? 70))%N then Some (c - 55)%N
  else None.

Fixpoint takeDigits (s : jsstring) : jsstring * jsstring :=
  match s with
  | [] => ([], [])
  | c :: s' =>
      if isDigit c then let (ds, rest) := takeDigits s' in (c :: ds, rest)
      else ([], s)
  end.

Fixpoint stripPrefix (p s : jsstring) : option jsstring :=
  match p, s with
  | [], _ => Some s
  | a :: p', b :: s' => if (a =? b)%N then stripPrefix p' s' else None
  | _ :: _, [] => None
  end.

(** The characters of a string after its opening quote, up to the
    closing quote; [acc] holds the decoded code units, last first. *)
Fixpoint stringBody (s : jsstring) (acc : jsstring) : option (jsstring * jsstring) :=
  match s with
  | [] => None
  | c :: rest =>
      if (c =? 34)%N then Some (rev acc, rest)
      else if (c =? 92)%N then
        match rest with
        | [] => None
        | e :: rest' =>
            if (e =? 34)%N then stringBody rest' (34%N :: acc)
            else if (e =? 92)%N then stringBody rest' (92%N :: acc)
            else if (e =? 47)%N then stringBody rest' (47%N :: acc)
            else if (e =? 98)%N then stringBody rest' (8%N :: acc)
            else if (e =? 102)%N then stringBody rest' (12%N :: acc)
            else if (e =? 110)%N then stringBody rest' (10%N :: acc)
            else if (e =? 114)%N then stringBody rest' (13%N :: acc)
            else if (e =? 116)%N then stringBody rest' (9%N :: acc)
            else if (e =? 117)%N then
              match rest' with
              | a :: b :: c' :: d :: rest'' =>
                  match hexValue a, hexValue b, hexValue c', hexValue d with
                  | Some x3, Some x2, Some x1, Some x0 =>
                      stringBody rest'' ((x3 * 4096 + x2 * 256 + x1 * 16 + x0)%N :: acc)
                  | _, _, _, _ => None
                  end
              | _ => None
              end
            else None
        end
      else if (c <? 32)%N then None
      else stringBody rest (c :: acc)
  end.

(** A number: its literal and what follows it. *)
Definition number (s : jsstring) : option (jsstring * jsstring) :=
  let '(sign, s1) :=
    match s with
    | c :: r => if (c =? 45)%N then ([c], r) else ([], s)
    | [] => ([], s)
    end in
  let int :=
    match s1 with
    | c :: r =>
        if (c =? 48)%N then Some ([c], r)
        else if isDigit c then Some (takeDigits s1)
        else None
    | [] => None
    end in
  match int with
  | None => None
  | Some (ds, s2) =>
      let frac :=
        match s2 with
        | c :: r =>
            if (c =? 46)%N then
              match takeDigits r with
              | ([], _) => None
              | (fs, r') => Some (c :: fs, r')
              end
            else Some ([], s2)
        | [] => Some ([], s2)
        end in
      match frac with
      | None => None
      | Some (fs, s3) =>
          let expo :=
            match s3 with
            | c :: r =>
                if ((c =? 101) || (c =? 69))%N then
                  let '(esign, r1) :=
                    match r with
                    | c' :: r' => if ((c' =? 43) || (c' =? 45))%N then ([c'], r') else ([], r)
                    | [] => ([], r)
                    end in
                  match takeDigits r1 with
                  | ([], _) => None
                  | (es, r2) => Some (c :: esign ++ es, r2)
                  end
                else Some ([], s3)
            | [] => Some ([], s3)
            end in
          match expo with
          | None => None
          | Some (es, s4) => Some (sign ++ ds ++ fs ++ es, s4)
          end
      end
  end.

(** A value, the elements of an array after its bracket, the members
    of an object after its brace. *)
Fixpoint value (fuel : nat) (s : jsstring) : option (JSValue * jsstring) :=
  match fuel with
  | 0 => None
  | S fuel' =>
      match skipWs s with
      | [] => None
      | c :: rest =>
          if (c =? 123)%N then
            match skipWs rest with
            | c' :: r => if (c' =? 125)%N then Some (JObject [], r) else members fuel' rest []
            | [] => None
            end
          else if (c =? 91)%N then
            match skipWs rest with
            | c' :: r => if (c' =? 93)%N then Some (JArray [], r) else elements fuel' rest []
            | [] => None
            end
          else if (c =? 34)%N then
            match stringBody rest [] with
            | Some (str, r) => Some (JString str, r)
            | None => None
            end
          else
            match stripPrefix (js "true") (c :: rest) with
            | Some r => Some (JBool true, r)
            | None =>
                match stripPrefix (js "false") (c :: rest) with
                | Some r => Some (JBool false, r)
                | None =>
                    match stripPrefix (js "null") (c :: rest) with
                    | Some r => Some (JNull, r)
                    | None =>
                        match number (c :: rest) with
                        | Some (lit, r) => Some (JNumber lit, r)
                        | None => None
                        end
                    end
                end
            end
      end
  end
with elements (fuel : nat) (s : jsstring) (acc : list JSValue)
  : option (JSValue * jsstring) :=
  match fuel with
  | 0 => None
  | S fuel' =>
      match value fuel' s with
      | Some (v, rest) =>
          match skipWs rest with
          | c :: r =>
              if (c =? 44)%N then elements fuel' r (v :: acc)
              else if (c =? 93)%N then Some (JArray (rev (v :: acc)), r)
              else None
          | [] => None
          end
      | None => None
      end
  end
with members (fuel : nat) (s : jsstring) (acc : list (jsstring * JSValue))
  : option (JSValue * jsstring) :=
  match fuel with
  | 0 => None
  | S fuel' =>
      match skipWs s with
      | q :: s1 =>
          if (q =? 34)%N then
            match stringBody s1 [] with
            | Some (key, s2) =>
                match skipWs s2 with
                | colon :: s3 =>
                    if (colon =? 58)%N then
                      match value fuel' s3 with
                      | Some (v, rest) =>
                          match skipWs rest with
                          | c :: r =>
                              if (c =? 44)%N then members fuel' r ((key, v) :: acc)
                              else if (c =? 125)%N then Some (JObject (rev ((key, v) :: acc)), r)
                              else None
                          | [] => None
                          end
                      | None => None
                      end
                    else None
                | [] => None
                end
            | None => None
            end
          else None
      | [] => None
      end
  end.

(** [JSON.parse]: one value, with nothing but white space around it. *)
Definition parse (s : jsstring) : option JSValue :=
  match value (2 * length s + 2) s with
  | Some (v, rest) =>
      match skipWs rest with
      | [] => Some v
      | _ :: _ => None
      end
  | None => None
  end.

Definition hexDigit (n : N) : N :=
  if (n <? 10)%N then (48 + n)%N else (87 + n)%N.

Definition escape (c : N) : jsstring :=
  if (c =? 34)%N then [92; 34]%N
  else if (c =? 92)%N then [92; 92]%N
  else if (c =? 8)%N then [92; 98]%N
  else if (c =? 12)%N then [92; 102]%N
  else if (c =? 10)%N then [92; 110]%N
  else if (c =? 13)%N then [92; 114]%N
  else if (c =? 9)%N then [92; 116]%N
  else if (c <? 32)%N then [92; 117; 48; 48; hexDigit (c / 16); hexDigit (c mod 16)]%N
  else [c].

Definition quote (s : jsstring) : jsstring :=
  dq ++ concat (map escape s) ++ dq.

Fixpoint commaLines (ls : list jsstring) : jsstring :=
  match ls with
  | [] => []
  | [l] => l
  | l :: ls' => l ++ js "," ++ nl ++ commaLines ls'
  end.

(** [JSON.stringify(v, null, 2)] at the indentation [indent]; a number
    is printed by its literal. *)
Fixpoint stringifyAt (indent : jsstring) (v : JSValue) : jsstring :=
  match v with
  | JNull => js "null"
  | JBool true => js "true"
  | JBool false => js "false"
  | JNumber lit => lit
  | JString s => quote s
  | JArray [] => js "[]"
  | JArray items =>
      let inner := (indent ++ js "  ") in
      js "[" ++ nl
      ++ commaLines (map (fun item => inner ++ stringifyAt inner item) items)
      ++ nl ++ indent ++ js "]"
  | JObject [] => js "{}"
  | JObject ms =>
      let inner := (indent ++ js "  ") in
      js "{" ++ nl
      ++ commaLines (map (fun m => inner ++ quote (fst m) ++ js ": " ++ stringifyAt inner (snd m)) ms)
      ++ nl ++ indent ++ js "}"
  end.

Definition stringify (v : JSValue) : jsstring := stringifyAt [] v.

End Json.

(** ** A scripted platform, for concrete runs

    The state of the outside is the number of calls made so far; the
    script says what each call settles to. *)

Module Double.

Record Script := {
  onGenerateContent :
    GenAI.GenerateContentParameters -> nat -> Result GenAI.GenerateContentResponse;
  onGenerateImages :
    GenAI.GenerateImagesParameters -> nat -> Result GenAI.GenerateImagesResponse;
  onGenerateVideos :
    GenAI.GenerateVideosParameters -> nat -> Result GenAI.GenerateVideosOperation;
  onGetVideosOperation :
    GenAI.GenerateVideosOperation -> nat -> Result GenAI.GenerateVideosOperation;
  onFetch : jsstring -> nat -> Result FetchResponse;
}.

(** The untyped reads, as JavaScript answers them for [null], booleans
    and strings, for a number other than zero and for an object with
    no member named [length], [0] or [NaN]. *)
Definition falsyOrEmpty (v : JSValue) : bool :=
  match v with
  | JNull => true
  | JBool b => negb b
  | JString s => negb (nonEmpty s)
  | _ => false
  end.

Definition lengthIsZero (v : JSValue) : Result bool :=
  match v with
  | JNull => Rejected (TypeError (js "Cannot read properties of null (reading 'length')"))
  | JString s => Resolved (negb (nonEmpty s))
  | _ => Resolved false
  end.

Definition firstOf (v : JSValue) : option JSValue :=
  match v with
  | JString (c :: _) => Some (JString [c])
  | _ => None
  end.

Definition atIndexModLength (v : JSValue) (index : nat) : Result (option JSValue) :=
  match v with
  | JString s => Resolved ((fun c => JString [c]) <$> (s !! (index mod length s)))
  | _ => Resolved None
  end.

Definition platform (s : Script) : Platform nat :=
  {| GEMINI_TEXT_MODEL := js "gemini-2.5-flash";
     GEMINI_IMAGE_MODEL := js "imagen-4.0-generate-001";
     GEMINI_VIDEO_MODEL := js "veo-2.0-generate-001";
     API_KEY := Some (js "KEY");
     JSON_parse := Json.parse;
     JSON_stringify := Json.stringify;
     dyn_falsyOrEmpty := falsyOrEmpty;
     dyn_lengthIsZero := lengthIsZero;
     dyn_first := firstOf;
     dyn_atIndexModLength := atIndexModLength;
     models_generateContent := fun params n => (onGenerateContent s params n, S n);
     models_generateImages := fun params n => (onGenerateImages s params n, S n);
     models_generateVideos := fun params n => (onGenerateVideos s params n, S n);
     operations_getVideosOperation := fun operation n => (onGetVideosOperation s operation n, S n);
     window_fetch := fun url n => (onFetch s url n, S n);
     URL_createObjectURL := fun b n => (js "blob:" ++ decimal n, S n);
     crypto_randomUUID := fun n => (js "uuid-" ++ decimal n, S n) |}.

End Double.

(** ** Sample data for concrete runs *)

Module Sample.

(** A script whose every call is rejected. *)
Definition offline : Double.Script :=
  {| Double.onGenerateContent := fun _ _ => Rejected (Failure (js "offline"));
     Double.onGenerateImages := fun _ _ => Rejected (Failure (js "offline"));
     Double.onGenerateVideos := fun _ _ => Rejected (Failure (js "offline"));
     Double.onGetVideosOperation := fun _ _ => Rejected (Failure (js "offline"));
     Double.onFetch := fun _ _ => Rejected (Failure (js "offline")) |}.

(** An empty world. *)
Definition empty : World nat := Build_World ∅ 0 [].

Definition adCopy (headline primaryText cta : string) : JSValue :=
  JObject [ (js "headline", JString (js headline));
            (js "primaryText", JString (js primaryText));
            (js "cta", JString (js cta)) ].

Definition copyA : JSValue := adCopy "Sip smarter" "A cup that lasts." "Shop Now".
Definition copyB : JSValue := adCopy "Ditch the waste" "Reuse it every day." "Learn More".
Definition copyC : JSValue := adCopy "Coffee, greener" "Leakproof and light." "Buy Now".

(** A response that is only text. *)
Definition textResponse (t : jsstring) : GenAI.GenerateContentResponse :=
  {| GenAI.text := Some t; GenAI.candidates := None |}.

(** Every text request is answered with [t]. *)
Definition answering (t : jsstring) : Double.Script :=
  {| Double.onGenerateContent := fun _ _ => Resolved (textResponse t);
     Double.onGenerateImages := fun _ _ => Rejected (Failure (js "offline"));
     Double.onGenerateVideos := fun _ _ => Rejected (Failure (js "offline"));
     Double.onGetVideosOperation := fun _ _ => Rejected (Failure (js "offline"));
     Double.onFetch := fun _ _ => Rejected (Failure (js "offline")) |}.

(** The product image and the inputs of a run. *)
Definition cup : ProductImage :=
  {| mimeType := js "image/jpeg"; data := js "QUJD" |}.

Definition request (image : option loc) (type : CreativeType) : UserInputs :=
  {| productDescription := js "Reusable coffee cup";
     productImage := image;
     productUrl := Some [];
     creativeFormat := SQUARE;
     creativeType := type;
     hookText := Some [];
     fontStyle := Some MODERN |}.

(** A world with the inputs at 0 and their image at 1; a world with
    the inputs at 0 and no image. *)
Definition withImage (type : CreativeType) : World nat :=
  Build_World (<[0 := InputsObj (request (Some 1) type)]> (<[1 := ImageObj cup]> ∅)) 0 [].

Definition withoutImage (type : CreativeType) : World nat :=
  Build_World (<[0 := InputsObj (request None type)]> ∅) 0 [].

Definition copyJson : jsstring :=
  Json.stringify (JArray [copyA; copyB; copyC]).

(** An image-edit response with an image after a text part, and one
    with text only. *)
Definition edited (d : string) : GenAI.GenerateContentResponse :=
  {| GenAI.text := None;
     GenAI.candidates := Some
       [ {| GenAI.content := Some
              {| GenAI.parts := Some
                   [ {| GenAI.inlineData := None;
                        GenAI.partText := Some (js "Here is the edited image.") |};
                     {| GenAI.inlineData := Some
                          {| GenAI.mimeType := Some (js "image/png");
                             GenAI.data := Some (js d) |};
                        GenAI.partText := None |} ] |} |} ] |}.

Definition refused : GenAI.GenerateContentResponse :=
  {| GenAI.text := Some (js "I cannot edit this image.");
     GenAI.candidates := Some
       [ {| GenAI.content := Some
              {| GenAI.parts := Some
                   [ {| GenAI.inlineData := None;
                        GenAI.partText := Some (js "I cannot edit this image.") |} ] |} |} ] |}.

(** A text-to-image response with one image, and one with none. *)
Definition generated (bytes : string) : GenAI.GenerateImagesResponse :=
  {| GenAI.generatedImages := Some
       [ {| GenAI.image := Some {| GenAI.imageBytes := Some (js bytes) |} |} ] |}.

Definition filtered : GenAI.GenerateImagesResponse :=
  {| GenAI.generatedImages := Some [] |}.

(** A service that answers a proofreading request for a text with
    [correction], writes the three copies (and returns them again when
    asked to proofread them), and answers the n-th call by [edits n]
    when it is an image edit and by [images n] when it is a
    text-to-image request. *)
Definition studioWith (correction : jsstring)
    (edits : nat -> GenAI.GenerateContentResponse)
    (images : nat -> GenAI.GenerateImagesResponse) : Double.Script :=
  {| Double.onGenerateContent := fun params n =>
       match GenAI.config params with
       | None => Resolved (textResponse correction)
       | Some (GenAI.JsonArrayOfObjects _ _ _) => Resolved (textResponse copyJson)
       | Some (GenAI.ResponseModalities _) => Resolved (edits n)
       end;
     Double.onGenerateImages := fun _ n => Resolved (images n);
     Double.onGenerateVideos := fun _ _ => Rejected (Failure (js "offline"));
     Double.onGetVideosOperation := fun _ _ => Rejected (Failure (js "offline"));
     Double.onFetch := fun _ _ => Rejected (Failure (js "offline")) |}.

Definition studio := studioWith (js "Reusable coffee cup").

(** The same service, with a corrector that answers with an empty
    text. *)
Definition silentCorrector : Double.Script :=
  studioWith [] (fun _ => refused) (fun _ => generated "SU1H").


(** Of the three generated images (calls 3, 4 and 5), the third is
    missing. *)
Definition twoOfThree : Double.Script :=
  studio (fun _ => refused) (fun n => if n =? 5 then filtered else generated "SU1H").

(** A video job: started as not done; [getVideosOperation] answers
    with the finished operation from call [readyAt] on, and with an
    unfinished one before. *)
Definition running : GenAI.GenerateVideosOperation :=
  {| GenAI.name := Some (js "operations/cup");
     GenAI.done := Some false;
     GenAI.response := None |}.

Definition finished : GenAI.GenerateVideosOperation :=
  {| GenAI.name := Some (js "operations/cup");
     GenAI.done := Some true;
     GenAI.response := Some
       {| GenAI.generatedVideos := Some
            [ {| GenAI.video := Some
                   {| GenAI.uri := Some (js "https://videos.example/cup?alt=media") |} |} ] |} |}.

Definition clip : Blob := [0; 0; 0; 24; 102; 116; 121; 112]%N.

Definition videoJob (readyAt : option nat) : Double.Script :=
  {| Double.onGenerateContent := Double.onGenerateContent (studio (fun _ => refused) (fun _ => filtered));
     Double.onGenerateImages := fun _ _ => Rejected (Failure (js "offline"));
     Double.onGenerateVideos := fun _ _ => Resolved running;
     Double.onGetVideosOperation := fun _ n =>
       match readyAt with
       | Some k => if k <=? n then Resolved finished else Resolved running
       | None => Resolved running
       end;
     Double.onFetch := fun _ _ =>
       Resolved {| ok := true; statusText := js "OK"; blob := Resolved clip |} |}.

(** A form left blank. *)
Definition blank : CreativeForm.State :=
  {| CreativeForm.productDescription := [];
     CreativeForm.productImage := None;
     CreativeForm.productUrl := [];
     CreativeForm.creativeFormat := SQUARE;
     CreativeForm.creativeType := IMAGE;
     CreativeForm.hookText := [];
     CreativeForm.fontStyle := MODERN |}.

(** A world whose inputs, at 0, carry a misspelt description. *)
Definition misspelt : World nat :=
  Build_World
    (<[0 := InputsObj (withProductDescription (js "Reusable cofee cup") (request None IMAGE))]> ∅)
    0 [].

Definition fourUrls : list jsstring :=
  [js "data:a"; js "data:b"; js "data:c"; js "data:d"].

End Sample.

(** ** Relations between the world before and the world after *)

(** [u'] is [u] up to the two text fields the corrections write. *)
Definition sameButText (u u' : UserInputs) : Prop :=
  productImage u' = productImage u
  /\ productUrl u' = productUrl u
  /\ creativeFormat u' = creativeFormat u
  /\ creativeType u' = creativeType u
  /\ fontStyle u' = fontStyle u.

(** The store changed at [l] at most, and there by text fields only. *)
Definition writesOnly {Ext} (l : loc) (w w' : World Ext) : Prop :=
  (forall l', l' <> l -> heap w' !! l' = heap w !! l')
  /\ (forall u, heap w !! l = Some (InputsObj u) ->
                exists u', heap w' !! l = Some (InputsObj u') /\ sameButText u u').

(** The trace was extended. *)
Definition grows {Ext} (w w' : World Ext) : Prop :=
  exists evs, trace w' = trace w ++ evs.

(** [m] relates every world to the world it leaves, whatever the
    outcome. *)
Definition keeps {Ext A} (R : World Ext -> World Ext -> Prop) (m : M Ext A) : Prop :=
  forall w, R w (snd (m w)).

(** The trace was extended, and by [ev] first. *)
Definition startsWith {Ext} (ev : Event) (w w' : World Ext) : Prop :=
  exists rest, trace w' = trace w ++ ev :: rest.

(** A relation that the steps of the pipeline keep when the corrected
    copy of the inputs is at [l]: a preorder, closed under the events
    and under the two assignments to the copy. *)
Class Stable {Ext} (l : loc) (R : World Ext -> World Ext -> Prop) : Prop := {
  stable_refl : forall w, R w w;
  stable_trans : forall w1 w2 w3, R w1 w2 -> R w2 w3 -> R w1 w3;
  stable_event : forall w ev x, R w (afterCall ev x w);
  stable_update : forall w u u',
      heap w !! l = Some (InputsObj u) -> sameButText u u' ->
      R w (Build_World (<[l := InputsObj u']> (heap w)) (ext w) (trace w));
}.

(** The events of a polling loop: a ten-second wait before every poll. *)
Inductive Polling : list Event -> Prop :=
| Polling_nil : Polling []
| Polling_cons operation evs :
    Polling evs -> Polling (SetTimeout 10000 :: GetVideosOperation operation :: evs).

(** [!res.generatedImages || res.generatedImages.length === 0] *)
Definition hasNoImages (res : GenAI.GenerateImagesResponse) : bool :=
  match GenAI.generatedImages res with
  | None | Some [] => true
  | Some (_ :: _) => false
  end.

(** The image the inputs point to: none, or the object in the store. *)
Definition imageOf {Ext} (w : World Ext) (u : UserInputs) (image : option ProductImage) : Prop :=
  match productImage u with
  | None => image = None
  | Some imageRef =>
      exists i, heap w !! imageRef = Some (ImageObj i) /\ image = Some i
  end.

(** ** What the quote pattern removes, in two steps *)

(** Without its first code unit, when that is a double quote. *)
Definition dropLeadingQuote (s : jsstring) : jsstring :=
  match s with
  | c :: s' => if (c =? 34)%N then s' else s
  | [] => []
  end.

(** Without its last code unit, when that is a double quote. *)
Fixpoint dropTrailingQuote (s : jsstring) : jsstring :=
  match s with
  | [] => []
  | [c] => if (c =? 34)%N then [] else [c]
  | c :: s' => c :: dropTrailingQuote s'
  end.

(** ** The outcomes of the three edit requests *)


(** The request returned a response that carries an image. *)
Definition returnedAnImage (outcome : Outcome GenAI.GenerateContentResponse) : bool :=
  match outcome with
  | Returned response =>
      match editedImage response with
      | Some _ => true
      | None => false
      end
  | _ => false
  end.

(** How many of the requests returned an image. *)
Fixpoint imagesReturned (settled : list (Outcome GenAI.GenerateContentResponse)) : nat :=
  match settled with
  | [] => 0
  | outcome :: rest => (if returnedAnImage outcome then 1 else 0) + imagesReturned rest
  end.

(** ** What the polls of a video job answered *)

(** The first [n] polls of a job that stands at [operation] with the
    outside in [x]: each is made on an operation that does not report
    done, and each is answered; [last] is the answer to the n-th, [xn]
    the outside after it, and [evs] the waits and the polls in
    order. *)
Inductive Answered {Ext} (P : Platform Ext)
  : nat -> GenAI.GenerateVideosOperation -> Ext
    -> GenAI.GenerateVideosOperation -> Ext -> list Event -> Prop :=
| Answered_none operation x : Answered P 0 operation x operation x []
| Answered_poll n operation x operation' x' last xn evs :
    GenAI.done operation <> Some true ->
    operations_getVideosOperation P operation x = (Resolved operation', x') ->
    Answered P n operation' x' last xn evs ->
    Answered P (S n) operation x last xn
      (SetTimeout 10000 :: GetVideosOperation operation :: evs).

(** ** Statements of the specification that the code does not meet *)

Module Stated.

(** Following the spec's words for the text variant: "strip a single
    pair of wrapping quotation marks if present", and nothing else. *)
Definition stripWrappingPair (t : jsstring) : jsstring :=
  match t with
  | c :: rest =>
      if ((c =? 34)%N && bool_decide (last rest = Some 34%N))%bool
      then removelast rest
      else t
  | [] => []
  end.

(** Quote handling of the text variant, as stated. *)
Definition proofreadText_strips_a_pair : Prop :=
  forall (Ext : Type) (P : Platform Ext) text context (w : World Ext) response x t,
    trim text <> [] ->
    models_generateContent P (textRequest P (Prompts.proofreadText text context)) (ext w)
    = (Resolved response, x) ->
    GenAI.text response = Some t ->
    fst (proofreadText P text context w) = Returned (stripWrappingPair t).

(** The copy generator fails on every response that does not parse as
    an array of ad-copy objects, as stated. *)
Definition generateAdCopy_fails_on_wrong_shape : Prop :=
  forall (Ext : Type) (P : Platform Ext) productInfo (w : World Ext) response x,
    models_generateContent P (jsonRequest P (Prompts.adCopy productInfo) adCopySchema) (ext w)
    = (Resolved response, x) ->
    (forall v, JSON_parse P (interpolate (GenAI.text response)) = Some v ->
               isAdCopyArray v = false) ->
    exists e w', generateAdCopy P productInfo w = (Threw e, w').



End Stated.

(** ** What a computation may add to the trace *)

(** [m] settles in every world, that is, it returns or throws without
    waiting for a poll, and every event it adds is an [allowed] one. *)
Definition settlesWith {Ext A} (allowed : Event -> Prop) (m : M Ext A) : Prop :=
  forall w,
    fst (m w) <> Pending
    /\ exists evs, trace (snd (m w)) = trace w ++ evs /\ Forall allowed evs.

(** A request to the text model, or a line on the console. *)
Definition textOnly {Ext} (P : Platform Ext) (ev : Event) : Prop :=
  match ev with
  | GenerateContent params => GenAI.model params = GEMINI_TEXT_MODEL P
  | ConsoleWarn _ | ConsoleError _ => True
  | _ => False
  end.


(** What an image run may do: requests for text and images,
    identifiers, and lines on the console; no video request, no poll,
    no timer and no download. *)
Definition imageRunEvent (ev : Event) : Prop :=
  match ev with
  | GenerateContent _ | GenerateImages _ | RandomUUID
  | ConsoleWarn _ | ConsoleError _ => True
  | _ => False
  end.

(** The requests to the service among the events: the calls of the
    SDK and the download. *)
Definition isRequest (ev : Event) : bool :=
  match ev with
  | GenerateContent _ | GenerateImages _ | GenerateVideos _
  | GetVideosOperation _ | Fetch _ => true
  | _ => false
  end.

Fixpoint requests (evs : list Event) : nat :=
  match evs with
  | [] => 0
  | ev :: rest => (if isRequest ev then 1 else 0) + requests rest
  end.

(** [m] makes at most [n] requests, in the world [w] and in every
    world. *)
Definition spendsAt {Ext A} (n : nat) (m : M Ext A) (w : World Ext) : Prop :=
  exists evs, trace (snd (m w)) = trace w ++ evs /\ requests evs <= n.

Definition spends {Ext A} (n : nat) (m : M Ext A) : Prop :=
  forall w, spendsAt n m w.

(** A URL of the [data:] scheme. *)
Definition isDataUrl (url : jsstring) : Prop :=
  exists rest, url = js "data:" ++ rest.

(** ** The creative form: the uploaded image *)

Module Upload.

(** The code units that [.] does not match: LF, CR, LS and PS. *)
Definition isLineTerminator (c : N) : bool :=
  ((c =? 10) || (c =? 13) || (c =? 8232) || (c =? 8233))%N.

(** Lines 66-72 of [handleImageUpload]: the match of the converted
    data URL against the pattern that starts with
    [^data:(image\/jpeg);base64,] and ends with a second group, any
    characters up to [$]; and the test [match && match[1] && match[2]].
    The result is the image that is stored, if any. The second group
    runs to the end of the string, so it matches only a rest without
    line terminators, and it has to be truthy. *)
Definition parseConverted (dataUrl : jsstring) : option ProductImage :=
  match Json.stripPrefix (js "data:image/jpeg;base64,") dataUrl with
  | Some rest =>
      if forallb (fun c => negb (isLineTerminator c)) rest && nonEmpty rest
      then Some {| mimeType := js "image/jpeg"; data := rest |}
      else None
  | None => None
  end.

(** The source of the preview (line 129):
    [`data:${productImage.mimeType};base64,${productImage.data}`]. *)
Definition previewSrc (image : ProductImage) : jsstring :=
  js "data:" ++ mimeType image ++ js ";base64," ++ data image.

End Upload.

(** ** App.tsx and components/ResultsDisplay: what the page shows *)

Module Page.

(** [videoLoadingMessages] (lines 14-20); the last code units of each
    are those of its emoji. *)
Definition videoLoadingMessages : list jsstring :=
  [ js "Generating video concept... " ++ [55356; 57260]%N;
    js "Rendering frames... this can take a few minutes. " ++ [10024]%N;
    js "Adding dynamic transitions... " ++ [55356; 57246; 65039]%N;
    js "Optimizing for high engagement... " ++ [55357; 56960]%N;
    js "Finalizing your video creative... " ++ [55356; 57256]%N ].

(** [videoLoadingMessages[index]]; every index the code uses is below
    the length. *)
Definition messageAt (index : nat) : jsstring :=
  nth index videoLoadingMessages [].

(** The four [useState] cells of [App] (lines 9-12), and the interval
    of the effect when one is running, with the [index] of its
    closure. *)
Record State := {
  isLoading : bool;
  loadingMessage : jsstring;
  results : option (list AdCreative);
  error : option jsstring;
  interval : option nat;
}.

Definition initial : State :=
  {| isLoading := false;
     loadingMessage := js "Generating creatives...";
     results := None;
     error := None;
     interval := None |}.

(** [haystack.includes(needle)] *)
Fixpoint includes (needle haystack : jsstring) : bool :=
  match Json.stripPrefix needle haystack with
  | Some _ => true
  | None =>
      match haystack with
      | [] => false
      | _ :: rest => includes needle rest
      end
  end.

(** One run of the effect (lines 22-35): the clean-up of the previous
    run clears its interval, and the body starts a new one, with
    [index] at 0 and the first message set, when a video is loading. *)
Definition effect (s : State) : State :=
  if isLoading s && includes (js "video") (loadingMessage s) then
    {| isLoading := isLoading s;
       loadingMessage := messageAt 0;
       results := results s;
       error := error s;
       interval := Some 0 |}
  else
    {| isLoading := isLoading s;
       loadingMessage := loadingMessage s;
       results := results s;
       error := error s;
       interval := None |}.

(** The dependencies of the effect, [[isLoading, loadingMessage]],
    differ. *)
Definition depsChanged (old new : State) : bool :=
  negb (bool_decide (isLoading old = isLoading new))
  || negb (bool_decide (loadingMessage old = loadingMessage new)).

(** A render with the cells of [new] after one with the cells of
    [old]: the effect runs when its dependencies changed, and once
    more when it changed them itself by setting the message. After
    the second run they are settled ([effect_settles]). *)
Definition render (old new : State) : State :=
  if depsChanged old new then
    let s1 := effect new in
    if depsChanged new s1 then effect s1 else s1
  else new.

(** The interval fires (lines 29-32). *)
Definition tick (s : State) : State :=
  match interval s with
  | Some index =>
      let index' := (index + 1) mod length videoLoadingMessages in
      render s {| isLoading := isLoading s;
                  loadingMessage := messageAt index';
                  results := results s;
                  error := error s;
                  interval := Some index' |}
  | None => s
  end.

(** [handleGenerate], lines 38-41: the cells before the run. *)
Definition start (creativeType : CreativeType) (s : State) : State :=
  render s {| isLoading := true;
              loadingMessage :=
                (if decide (creativeType = VIDEO) then messageAt 0
                 else js "Generating image creatives...");
              results := None;
              error := None;
              interval := interval s |}.

(** [handleGenerate], lines 43-51: the cells when the run is over,
    with [setResults] or [setError], and [setIsLoading(false)] in the
    [finally] block. *)
Definition finish (v : App.View) (s : State) : State :=
  render s {| isLoading := false;
              loadingMessage := loadingMessage s;
              results := (match v with
                          | App.Results generatedResults => Some generatedResults
                          | App.ErrorMessage _ => results s
                          end);
              error := (match v with
                        | App.Results _ => error s
                        | App.ErrorMessage message => Some message
                        end);
              interval := interval s |}.

(** What [ResultsDisplay] returns. *)
Inductive Screen :=
| LoadingState (message : jsstring)
| ErrorState (message : jsstring)
| EmptyState
| Creatives (cards : list AdCreative).

(** [ResultsDisplay] (the function of the component, lines 127-147 of
    the file that holds it). *)
Definition ResultsDisplay (s : State) : Screen :=
  if isLoading s then LoadingState (loadingMessage s)
  else if truthy (error s) then ErrorState (default [] (error s))
  else match results s with
       | None => EmptyState
       | Some cards => Creatives cards
       end.

End Page.

(** ** More sample data *)

Module Demo.


(** A service like [Sample.studio] whose edits carry an image, but
    which rejects the sixth call of the run, the third edit request. *)
Definition rateLimited : Double.Script :=
  {| Double.onGenerateContent := fun params n =>
       match GenAI.config params with
       | None => Resolved (Sample.textResponse (js "Reusable coffee cup"))
       | Some (GenAI.JsonArrayOfObjects _ _ _) => Resolved (Sample.textResponse Sample.copyJson)
       | Some (GenAI.ResponseModalities _) =>
           if n =? 5 then Rejected (Failure (js "429 rate limited"))
           else Resolved (Sample.edited "RURJ")
       end;
     Double.onGenerateImages := fun _ _ => Rejected (Failure (js "offline"));
     Double.onGenerateVideos := fun _ _ => Rejected (Failure (js "offline"));
     Double.onGetVideosOperation := fun _ _ => Rejected (Failure (js "offline"));
     Double.onFetch := fun _ _ => Rejected (Failure (js "offline")) |}.



(** A form whose description is two spaces. *)
Definition spaces : CreativeForm.State :=
  {| CreativeForm.productDescription := js "  ";
     CreativeForm.productImage := None;
     CreativeForm.productUrl := [];
     CreativeForm.creativeFormat := SQUARE;
     CreativeForm.creativeType := IMAGE;
     CreativeForm.hookText := [];
     CreativeForm.fontStyle := MODERN |}.

(** The creatives of an image run without a product image. *)
Definition threeCreatives : list AdCreative :=
  Eval vm_compute in
    match fst (generateAdCreatives (Double.platform Sample.silentCorrector) 0 0
                 (Sample.withoutImage IMAGE)) with
    | Returned creatives => creatives
    | _ => []
    end.

End Demo.

(** * Properties *)

(** ** The monad *)

Section Laws.
Context {Ext : Type}.

Lemma bind_Returned {A B} (m : M Ext A) (k : A -> M Ext B) w a w1 :
  m w = (Returned a, w1) -> bind m k w = k a w1.
Proof. intros H. unfold bind. now rewrite H. Qed.

Lemma bind_Threw {A B} (m : M Ext A) (k : A -> M Ext B) w e w1 :
  m w = (Threw e, w1) -> bind m k w = (Threw e, w1).
Proof. intros H. unfold bind. now rewrite H. Qed.

Lemma bind_Pending {A B} (m : M Ext A) (k : A -> M Ext B) w w1 :
  m w = (Pending, w1) -> bind m k w = (Pending, w1).
Proof. intros H. unfold bind. now rewrite H. Qed.

(** A computation that returned went through its first part. *)
Lemma bind_Returned_inv {A B} (m : M Ext A) (k : A -> M Ext B) w b w2 :
  bind m k w = (Returned b, w2) ->
  exists a w1, m w = (Returned a, w1) /\ k a w1 = (Returned b, w2).
Proof.
  unfold bind. destruct (m w) as [[a | e |] w1]; intros H; try discriminate.
  now exists a, w1.
Qed.

Lemma tryCatch_Returned {A} (m : M Ext A) handler w a w1 :
  m w = (Returned a, w1) -> tryCatch m handler w = (Returned a, w1).
Proof. intros H. unfold tryCatch. now rewrite H. Qed.

Lemma tryCatch_Threw {A} (m : M Ext A) handler w e w1 :
  m w = (Threw e, w1) -> tryCatch m handler w = handler e w1.
Proof. intros H. unfold tryCatch. now rewrite H. Qed.

End Laws.

(** ** Aspect ratios *)

Lemma getAspectRatio_SQUARE : getAspectRatio SQUARE = js "1:1".
Proof. reflexivity. Qed.

Lemma getAspectRatio_HORIZONTAL : getAspectRatio HORIZONTAL = js "16:9".
Proof. reflexivity. Qed.

Lemma getAspectRatio_VERTICAL : getAspectRatio VERTICAL = js "9:16".
Proof. reflexivity. Qed.

(** ** The assembler *)

Section Assembler.
Context {Ext : Type} (P : Platform Ext).

Lemma imageCreative_array items url0 index w :
  exists w',
    imageCreative P (JArray items) url0 index w
    = (Returned {| id := fst (crypto_randomUUID P (ext w)); url := url0; type := IMAGE;
                   copy := items !! (index mod length items);
                   variation := variationLabel index |}, w')
    /\ heap w' = heap w.
Proof.
  unfold imageCreative, randomUUID, callSync, bind, atIndexModLength, ret.
  destruct (crypto_randomUUID P (ext w)) as [uuid x]. simpl.
  eexists. split; reflexivity.
Qed.

Lemma mapM_imageCreative items (urls : list jsstring) :
  forall index w,
  exists creatives w',
    mapM (imageCreative P (JArray items)) urls index w = (Returned creatives, w')
    /\ length creatives = length urls
    /\ forall i u, urls !! i = Some u ->
         exists c, creatives !! i = Some c
                   /\ url c = u /\ type c = IMAGE
                   /\ copy c = items !! ((index + i) mod length items)
                   /\ variation c = variationLabel (index + i).
Proof.
  induction urls as [| u0 urls IH]; intros index w.
  - exists [], w. simpl. repeat split; try reflexivity.
    intros i u Hi. rewrite lookup_nil in Hi. discriminate.
  - destruct (imageCreative_array items u0 index w) as (w1 & Hc & _).
    destruct (IH (S index) w1) as (cs & w2 & Hm & Hlen & Hnth).
    eexists (_ :: cs), w2. split; [| split].
    + simpl. rewrite (bind_Returned _ _ _ _ _ Hc).
      rewrite (bind_Returned _ _ _ _ _ Hm). reflexivity.
    + simpl. now rewrite Hlen.
    + intros [| i] u Hi; simpl in Hi.
      * inversion Hi; subst u. eexists. split; [reflexivity |].
        simpl. rewrite Nat.add_0_r. repeat split; reflexivity.
      * destruct (Hnth i u Hi) as (c & Hci & Hu & Ht & Hcopy & Hv).
        exists c. simpl. rewrite Hci.
        replace (index + S i) with (S index + i) by lia.
        repeat split; assumption.
Qed.

End Assembler.

(** C5. The assembler makes one record per image URL; with a copy array
    of length m, the record at index i carries the URL at index i, the
    copy at index [i mod m], and a label made of its position and of the
    name at index [i mod 3] of the three variation names. *)
Theorem combine_cycles {Ext} (P : Platform Ext)
    (imageUrls : list jsstring) (items : list JSValue) (w : World Ext) :
  1 <= length imageUrls ->
  1 <= length items ->
  exists creatives w',
    combine P imageUrls (JArray items) w = (Returned creatives, w')
    /\ length creatives = length imageUrls
    /\ forall i, i < length imageUrls ->
         exists c adCopy name,
           creatives !! i = Some c
           /\ imageUrls !! i = Some (url c)
           /\ type c = IMAGE
           /\ items !! (i mod length items) = Some adCopy
           /\ copy c = Some adCopy
           /\ variationNames !! (i mod 3) = Some name
           /\ variation c = js "Variation " ++ decimal (i + 1) ++ js ": " ++ name.
Proof.
  intros Hn Hm.
  destruct (mapM_imageCreative P items imageUrls 0 w) as (cs & w' & Hrun & Hlen & Hnth).
  exists cs, w'. split; [| split].
  - unfold combine. destruct imageUrls; [simpl in Hn; lia | exact Hrun].
  - exact Hlen.
  - intros i Hi.
    destruct (lookup_lt_is_Some_2 imageUrls i Hi) as [u Hu].
    destruct (Hnth i u Hu) as (c & Hc & Hurl & Hty & Hcopy & Hvar).
    assert (Hlt : i mod length items < length items) by (apply Nat.mod_upper_bound; lia).
    destruct (lookup_lt_is_Some_2 items _ Hlt) as [a Ha].
    assert (Hlt3 : i mod 3 < 3) by (apply Nat.mod_upper_bound; lia).
    destruct (lookup_lt_is_Some_2 variationNames (i mod 3) Hlt3) as [name Hname].
    exists c, a, name. simpl in Hcopy, Hvar.
    repeat split; try assumption.
    + now rewrite Hurl.
    + now rewrite Hcopy.
    + rewrite Hvar. unfold variationLabel.
      change (length variationNames) with 3. now rewrite Hname.
Qed.

(** Four images and three copies: the creative at index 3 gets the copy
    at index 0 (and the first variation name again). *)
Lemma combine_cycles_witness :
  exists creatives w',
    combine (Double.platform Sample.offline) Sample.fourUrls
      (JArray [Sample.copyA; Sample.copyB; Sample.copyC]) Sample.empty
    = (Returned creatives, w')
    /\ length creatives = 4
    /\ forall i, i < 4 ->
         exists c adCopy name,
           creatives !! i = Some c
           /\ Sample.fourUrls !! i = Some (url c)
           /\ type c = IMAGE
           /\ [Sample.copyA; Sample.copyB; Sample.copyC] !! (i mod 3) = Some adCopy
           /\ copy c = Some adCopy
           /\ variationNames !! (i mod 3) = Some name
           /\ variation c = js "Variation " ++ decimal (i + 1) ++ js ": " ++ name.
Proof.
  apply (combine_cycles (Double.platform Sample.offline) Sample.fourUrls
           [Sample.copyA; Sample.copyB; Sample.copyC] Sample.empty); vm_compute; lia.
Defined.

Example four_images_three_copies :
  (fun r => (copy <$> r) = [Some Sample.copyA; Some Sample.copyB; Some Sample.copyC; Some Sample.copyA]
            /\ (variation <$> r) = [js "Variation 1: Minimalist"; js "Variation 2: Lifestyle";
                                    js "Variation 3: Dynamic"; js "Variation 4: Minimalist"])
    (match fst (combine (Double.platform Sample.offline) Sample.fourUrls
                  (JArray [Sample.copyA; Sample.copyB; Sample.copyC]) Sample.empty) with
     | Returned creatives => creatives
     | _ => []
     end).
Proof. vm_compute. split; reflexivity. Qed.

(** ** The quote pattern *)

Lemma replaceQuotesFrom_inner (s : jsstring) :
  forall i, 1 <= i -> replaceQuotesFrom i (i + length s) s = dropTrailingQuote s.
Proof.
  induction s as [| c s IH]; intros i Hi; [reflexivity |].
  cbn [replaceQuotesFrom length].
  assert (H0 : (i =? 0) = false) by (apply Nat.eqb_neq; lia).
  rewrite H0. cbn [orb].
  replace (i + S (length s)) with (S i + length s) by lia.
  rewrite (IH (S i)) by lia.
  destruct s as [| c' s].
  - assert (H1 : (S i =? S i + length (@nil N)) = true) by (apply Nat.eqb_eq; simpl; lia).
    rewrite H1, andb_true_r. cbn [dropTrailingQuote]. now destruct (c =? 34)%N.
  - assert (H1 : (S i =? S i + length (c' :: s)) = false) by (apply Nat.eqb_neq; simpl; lia).
    rewrite H1, andb_false_r. reflexivity.
Qed.

(** The global pattern removes a leading quote and a trailing quote,
    each whether or not the other is there. *)
Lemma replaceWrappingQuotes_spec (s : jsstring) :
  replaceWrappingQuotes s = dropTrailingQuote (dropLeadingQuote s).
Proof.
  unfold replaceWrappingQuotes. destruct s as [| c s]; [reflexivity |].
  cbn [replaceQuotesFrom length dropLeadingQuote].
  pose proof (replaceQuotesFrom_inner s 1 (le_n 1)) as H. cbn [Nat.add] in H.
  rewrite H. simpl. destruct (c =? 34)%N eqn:Hc; simpl; [reflexivity |].
  destruct s; simpl; [now rewrite Hc | reflexivity].
Qed.

Lemma dropTrailingQuote_snoc (s : jsstring) : dropTrailingQuote (s ++ dq) = s.
Proof.
  induction s as [| c s IH]; [reflexivity |].
  simpl. destruct (s ++ dq) eqn:E.
  - destruct s; discriminate.
  - now rewrite IH.
Qed.

(** A string that does not end with a quote is left alone. *)
Lemma dropTrailingQuote_unquoted (s : jsstring) :
  last s <> Some 34%N -> dropTrailingQuote s = s.
Proof.
  induction s as [| c s IH]; [reflexivity |].
  destruct s as [| c' s].
  - simpl. intros H. destruct (c =? 34)%N eqn:Hc; [| reflexivity].
    apply N.eqb_eq in Hc. subst c. now elim H.
  - intros H. change (dropTrailingQuote (c :: c' :: s)) with (c :: dropTrailingQuote (c' :: s)).
    f_equal. apply IH. exact H.
Qed.

(** A wrapped pair is stripped, once. *)
Lemma replaceWrappingQuotes_wrapped (m : jsstring) :
  replaceWrappingQuotes (dq ++ m ++ dq) = m.
Proof. rewrite replaceWrappingQuotes_spec. simpl. apply dropTrailingQuote_snoc. Qed.

(** ** The proofreading pass *)

Section Proofreading.
Context {Ext : Type} (P : Platform Ext).

Lemma proofreadText_skip text context (w : World Ext) :
  trim text = [] -> proofreadText P text context w = (Returned text, w).
Proof.
  intros H. unfold proofreadText. rewrite H. simpl.
  now rewrite orb_true_r.
Qed.

Lemma trim_nonEmpty text : trim text <> [] -> nonEmpty text = true /\ nonEmpty (trim text) = true.
Proof.
  intros H. split.
  - destruct text; [now elim H | reflexivity].
  - destruct (trim text); [now elim H | reflexivity].
Qed.

Lemma proofreadText_run text context (w : World Ext) :
  trim text <> [] ->
  let params := textRequest P (Prompts.proofreadText text context) in
  proofreadText P text context w =
  match models_generateContent P params (ext w) with
  | (Resolved response, x) =>
      match GenAI.text response with
      | Some t => (Returned (replaceWrappingQuotes (trim t)), afterCall (GenerateContent params) x w)
      | None =>
          (Returned text,
           afterEvent (ConsoleWarn (js "Proofreading failed for text, returning original.")) (afterCall (GenerateContent params) x w))
      end
  | (Rejected e, x) =>
      (Returned text,
       afterEvent (ConsoleWarn (js "Proofreading failed for text, returning original.")) (afterCall (GenerateContent params) x w))
  end.
Proof.
  intros H params. destruct (trim_nonEmpty text H) as [H1 H2].
  unfold proofreadText. rewrite H1, H2. simpl.
  unfold tryCatch, bind, ai_models_generateContent, call. fold params.
  destruct (models_generateContent P params (ext w)) as [[response | e] x]; simpl.
  - destruct (GenAI.text response); reflexivity.
  - reflexivity.
Qed.

Lemma proofreadAdCopy_skip adCopies context (w : World Ext) :
  falsyOrEmpty P adCopies = true ->
  proofreadAdCopy P adCopies context w = (Returned adCopies, w).
Proof. intros H. unfold proofreadAdCopy. now rewrite H. Qed.

Lemma proofreadAdCopy_run adCopies context (w : World Ext) :
  falsyOrEmpty P adCopies = false ->
  let params :=
    jsonRequest P (Prompts.proofreadAdCopy (JSON_stringify P adCopies) context)
      proofreadSchema in
  proofreadAdCopy P adCopies context w =
  match models_generateContent P params (ext w) with
  | (Resolved response, x) =>
      match JSON_parse P (interpolate (GenAI.text response)) with
      | Some v => (Returned v, afterCall (GenerateContent params) x w)
      | None =>
          (Returned adCopies,
           afterEvent (ConsoleWarn (js "Proofreading failed for ad copy, returning original."))
             (afterCall (GenerateContent params) x w))
      end
  | (Rejected e, x) =>
      (Returned adCopies,
       afterEvent (ConsoleWarn (js "Proofreading failed for ad copy, returning original."))
         (afterCall (GenerateContent params) x w))
  end.
Proof.
  intros H params. unfold proofreadAdCopy. rewrite H.
  unfold tryCatch, bind, ai_models_generateContent, call, parse. fold params.
  destruct (models_generateContent P params (ext w)) as [[response | e] x]; simpl.
  - destruct (JSON_parse P (interpolate (GenAI.text response))); reflexivity.
  - reflexivity.
Qed.

End Proofreading.

(** C1. The proofreading pass never throws. [proofreadText] and
    [proofreadAdCopy] return a value for every input, every context and
    every behaviour of the service; when the call is rejected, or its
    output cannot be used (no text to trim; text that [JSON.parse]
    refuses), the value is the input itself. *)
Theorem proofreading_fails_open {Ext} (P : Platform Ext) :
  (forall text context (w : World Ext),
      exists v w',
        proofreadText P text context w = (Returned v, w')
        /\ (forall e x,
              models_generateContent P (textRequest P (Prompts.proofreadText text context)) (ext w)
              = (Rejected e, x) -> v = text)
        /\ (forall response x,
              models_generateContent P (textRequest P (Prompts.proofreadText text context)) (ext w)
              = (Resolved response, x) -> GenAI.text response = None -> v = text))
  /\ (forall adCopies context (w : World Ext),
      exists v w',
        proofreadAdCopy P adCopies context w = (Returned v, w')
        /\ (forall e x,
              models_generateContent P
                (jsonRequest P (Prompts.proofreadAdCopy (JSON_stringify P adCopies) context)
                   proofreadSchema) (ext w)
              = (Rejected e, x) -> v = adCopies)
        /\ (forall response x,
              models_generateContent P
                (jsonRequest P (Prompts.proofreadAdCopy (JSON_stringify P adCopies) context)
                   proofreadSchema) (ext w)
              = (Resolved response, x) ->
              JSON_parse P (interpolate (GenAI.text response)) = None -> v = adCopies)).
Proof.
  split.
  - intros text context w.
    destruct (trim text) as [| c s] eqn:Htrim.
    + exists text, w. split; [now apply proofreadText_skip | split; reflexivity].
    + assert (Hne : trim text <> []) by (rewrite Htrim; discriminate).
      pose proof (proofreadText_run P text context w Hne) as Hrun. cbv zeta in Hrun.
      destruct (models_generateContent P _ (ext w)) as [[response | e] x].
      * destruct (GenAI.text response) as [t |] eqn:Ht.
        -- eexists _, _. split; [exact Hrun | split].
           ++ intros e x' Heq. discriminate.
           ++ intros r x' Heq Hnone. inversion Heq; subst r. congruence.
        -- eexists _, _. split; [exact Hrun | split; reflexivity].
      * eexists _, _. split; [exact Hrun | split; reflexivity].
  - intros adCopies context w.
    destruct (falsyOrEmpty P adCopies) eqn:Hskip.
    + exists adCopies, w. split; [now apply proofreadAdCopy_skip | split; reflexivity].
    + pose proof (proofreadAdCopy_run P adCopies context w Hskip) as Hrun. cbv zeta in Hrun.
      destruct (models_generateContent P _ (ext w)) as [[response | e] x].
      * destruct (JSON_parse P (interpolate (GenAI.text response))) as [v |] eqn:Hv.
        -- eexists _, _. split; [exact Hrun | split].
           ++ intros e x' Heq. discriminate.
           ++ intros r x' Heq Hnone. inversion Heq; subst r. congruence.
        -- eexists _, _. split; [exact Hrun | split; reflexivity].
      * eexists _, _. split; [exact Hrun | split; reflexivity].
Qed.

(** With the service out of reach, both variants hand back what they
    were given. *)
Lemma proofreading_fails_open_witness :
  (exists w', proofreadText (Double.platform Sample.offline) (js "Reusable cofee cup")
                (Some (js "A product description for an online ad.")) Sample.empty
              = (Returned (js "Reusable cofee cup"), w'))
  /\ (exists w', proofreadAdCopy (Double.platform Sample.offline)
                   (JArray [Sample.copyA; Sample.copyB; Sample.copyC])
                   (Some (js "Reusable coffee cup")) Sample.empty
                 = (Returned (JArray [Sample.copyA; Sample.copyB; Sample.copyC]), w')).
Proof.
  split.
  - destruct (proj1 (proofreading_fails_open (Double.platform Sample.offline))
                (js "Reusable cofee cup") (Some (js "A product description for an online ad."))
                Sample.empty) as (v & w' & Hrun & Hrej & _).
    exists w'. rewrite Hrun. f_equal. f_equal.
    apply (Hrej (Failure (js "offline")) 1). reflexivity.
  - destruct (proj2 (proofreading_fails_open (Double.platform Sample.offline))
                (JArray [Sample.copyA; Sample.copyB; Sample.copyC])
                (Some (js "Reusable coffee cup")) Sample.empty) as (v & w' & Hrun & Hrej & _).
    exists w'. rewrite Hrun. f_equal. f_equal.
    apply (Hrej (Failure (js "offline")) 1). reflexivity.
Defined.

(** C8, as the code has it. An empty or whitespace-only input comes back
    unchanged and the world with it (no call is made). Otherwise, when
    the call resolves with the text [t], the result is [t] trimmed, then
    without its leading double quote if it has one and without its
    trailing double quote if it has one: each quote goes whether or not
    the other is there. *)
Theorem proofreadText_quotes {Ext} (P : Platform Ext) text context (w : World Ext) :
  (trim text = [] -> proofreadText P text context w = (Returned text, w))
  /\ (trim text <> [] ->
      forall response x t,
        models_generateContent P (textRequest P (Prompts.proofreadText text context)) (ext w)
        = (Resolved response, x) ->
        GenAI.text response = Some t ->
        proofreadText P text context w
        = (Returned (dropTrailingQuote (dropLeadingQuote (trim t))),
           afterCall (GenerateContent (textRequest P (Prompts.proofreadText text context))) x w))
  /\ (forall m, dropTrailingQuote (dropLeadingQuote (dq ++ m ++ dq)) = m)
  /\ (forall s, head s <> Some 34%N -> last s <> Some 34%N ->
                dropTrailingQuote (dropLeadingQuote s) = s).
Proof.
  split; [| split; [| split]].
  - apply proofreadText_skip.
  - intros Hne response x t Hcall Ht.
    pose proof (proofreadText_run P text context w Hne) as Hrun. cbv zeta in Hrun.
    rewrite Hcall, Ht in Hrun. now rewrite <- replaceWrappingQuotes_spec.
  - intros m. rewrite <- replaceWrappingQuotes_spec. apply replaceWrappingQuotes_wrapped.
  - intros s Hhead Hlast.
    assert (Hlead : dropLeadingQuote s = s).
    { destruct s as [| c s]; [reflexivity |]. simpl.
      destruct (c =? 34)%N eqn:Hc; [| reflexivity].
      apply N.eqb_eq in Hc. subst c. now elim Hhead. }
    rewrite Hlead. now apply dropTrailingQuote_unquoted.
Qed.

(** A blank hook text is not sent; a corrected sentence that comes back
    wrapped in quotes and blanks loses both. *)
Lemma proofreadText_quotes_witness :
  proofreadText (Double.platform Sample.offline) (js "   ") None Sample.empty
  = (Returned (js "   "), Sample.empty)
  /\ fst (proofreadText
            (Double.platform (Sample.answering (js " " ++ dq ++ js "Reusable coffee cup" ++ dq ++ nl)))
            (js "Reusable cofee cup") None Sample.empty)
     = Returned (js "Reusable coffee cup").
Proof.
  split.
  - apply (proj1 (proofreadText_quotes (Double.platform Sample.offline) (js "   ") None
                    Sample.empty)).
    reflexivity.
  - rewrite (proj1 (proj2 (proofreadText_quotes
                      (Double.platform
                         (Sample.answering (js " " ++ dq ++ js "Reusable coffee cup" ++ dq ++ nl)))
                      (js "Reusable cofee cup") None Sample.empty))
               ltac:(discriminate)
               (Sample.textResponse (js " " ++ dq ++ js "Reusable coffee cup" ++ dq ++ nl))
               1 (js " " ++ dq ++ js "Reusable coffee cup" ++ dq ++ nl)
               eq_refl eq_refl).
    reflexivity.
Defined.

(** C8, as stated, fails: an answer with a leading quote and no closing
    one is not wrapped in a pair, and still loses its quote. *)
Lemma proofreadText_strips_a_pair_fails : ~ Stated.proofreadText_strips_a_pair.
Proof.
  intros H.
  specialize (H nat (Double.platform (Sample.answering (dq ++ js "Fresh coffee")))
                (js "Frehs coffee") None Sample.empty
                (Sample.textResponse (dq ++ js "Fresh coffee")) 1 (dq ++ js "Fresh coffee")
                ltac:(discriminate) eq_refl eq_refl).
  vm_compute in H. discriminate H.
Qed.

Example lone_quote_is_removed :
  fst (proofreadText (Double.platform (Sample.answering (dq ++ js "Fresh coffee")))
         (js "Frehs coffee") None Sample.empty)
  = Returned (js "Fresh coffee")
  /\ Stated.stripWrappingPair (dq ++ js "Fresh coffee") = dq ++ js "Fresh coffee".
Proof. split; reflexivity. Qed.

(** ** The copy generator *)

(** C3, as the code has it. A rejected call propagates. A response whose
    text [JSON.parse] refuses raises the generation error. A response
    whose text is valid JSON is returned as parsed, whatever its shape:
    nothing checks that it is an array, what its entries are, or how
    many there are. *)
Theorem generateAdCopy_outcome {Ext} (P : Platform Ext) productInfo (w : World Ext) :
  let params := jsonRequest P (Prompts.adCopy productInfo) adCopySchema in
  generateAdCopy P productInfo w =
  match models_generateContent P params (ext w) with
  | (Rejected e, x) => (Threw e, afterCall (GenerateContent params) x w)
  | (Resolved response, x) =>
      match JSON_parse P (interpolate (GenAI.text response)) with
      | Some v => (Returned v, afterCall (GenerateContent params) x w)
      | None =>
          (Threw (Error (js "Failed to generate valid ad copy.")),
           afterEvent (ConsoleError (js "Failed to parse ad copy JSON:"))
             (afterCall (GenerateContent params) x w))
      end
  end.
Proof.
  intros params. unfold generateAdCopy, bind, ai_models_generateContent, call. fold params.
  destruct (models_generateContent P params (ext w)) as [[response | e] x]; simpl.
  - unfold tryCatch, parse.
    destruct (JSON_parse P (interpolate (GenAI.text response))); reflexivity.
  - reflexivity.
Qed.

(** C3, as stated, fails: the text [{}] is valid JSON and no array, and
    [generateAdCopy] returns the empty object. *)
Lemma generateAdCopy_fails_on_wrong_shape_fails :
  ~ Stated.generateAdCopy_fails_on_wrong_shape.
Proof.
  intros H.
  destruct (H nat (Double.platform (Sample.answering (js "{}")))
              (Some (js "Reusable coffee cup")) Sample.empty
              (Sample.textResponse (js "{}")) 1 eq_refl) as (e & w' & Hrun).
  - intros v Hv. vm_compute in Hv. inversion Hv. reflexivity.
  - vm_compute in Hrun. discriminate Hrun.
Qed.

Example empty_object_is_returned :
  fst (generateAdCopy (Double.platform (Sample.answering (js "{}")))
         (Some (js "Reusable coffee cup")) Sample.empty)
  = Returned (JObject [])
  /\ fst (generateAdCopy (Double.platform (Sample.answering (js "[{}, 7]")))
            (Some (js "Reusable coffee cup")) Sample.empty)
     = Returned (JArray [JObject []; JNumber (js "7")])
  /\ fst (generateAdCopy (Double.platform (Sample.answering (js "Sorry, I cannot help.")))
            (Some (js "Reusable coffee cup")) Sample.empty)
     = Threw (Error (js "Failed to generate valid ad copy.")).
Proof. repeat split; reflexivity. Qed.

(** ** Relations kept by the combinators *)

Section Keeps.
Context {Ext : Type} (l : loc) (R : World Ext -> World Ext -> Prop) `{!Stable l R}.

Lemma keeps_ret {A} (a : A) : keeps R (ret a).
Proof. intros w. apply stable_refl. Qed.

Lemma keeps_throw {A} e : keeps R (@throw Ext A e).
Proof. intros w. apply stable_refl. Qed.

Lemma keeps_pending {A} : keeps R (@pending Ext A).
Proof. intros w. apply stable_refl. Qed.

Lemma keeps_settle {A} (r : Result A) : keeps R (settle r).
Proof. destruct r; [apply keeps_ret | apply keeps_throw]. Qed.

Lemma keeps_bind {A B} (m : M Ext A) (k : A -> M Ext B) :
  keeps R m -> (forall a, keeps R (k a)) -> keeps R (bind m k).
Proof.
  intros Hm Hk w. unfold bind. specialize (Hm w).
  destruct (m w) as [[a | e |] w1]; simpl in *; try assumption.
  eapply stable_trans; [exact Hm | apply Hk].
Qed.

Lemma keeps_tryCatch {A} (m : M Ext A) handler :
  keeps R m -> (forall e, keeps R (handler e)) -> keeps R (tryCatch m handler).
Proof.
  intros Hm Hh w. unfold tryCatch. specialize (Hm w).
  destruct (m w) as [[a | e |] w1]; simpl in *; try assumption.
  eapply stable_trans; [exact Hm | apply Hh].
Qed.

Lemma keeps_emit ev : keeps R (emit ev).
Proof. intros w. apply (stable_event w ev (ext w)). Qed.

Lemma keeps_call {A} ev (f : Ext -> Result A * Ext) : keeps R (call ev f).
Proof.
  intros w. unfold call. destruct (f (ext w)) as [r x]. apply (stable_event w ev x).
Qed.

Lemma keeps_callSync {A} ev (f : Ext -> A * Ext) : keeps R (callSync ev f).
Proof.
  intros w. unfold callSync. destruct (f (ext w)) as [r x]. apply (stable_event w ev x).
Qed.

Lemma keeps_readInputs l' : keeps R (readInputs l').
Proof.
  intros w. unfold readInputs. destruct (heap w !! l') as [[u | i] |]; apply stable_refl.
Qed.

Lemma keeps_readImage l' : keeps R (readImage l').
Proof.
  intros w. unfold readImage. destruct (heap w !! l') as [[u | i] |]; apply stable_refl.
Qed.

Lemma keeps_update f :
  (forall u, sameButText u (f u)) -> keeps R (update l f).
Proof.
  intros Hf w. unfold update. destruct (heap w !! l) as [[u | i] |] eqn:Hl;
    try apply stable_refl.
  simpl. now apply (stable_update w u (f u)).
Qed.

Lemma keeps_Promise_all {A} (promises : list (M Ext A)) :
  Forall (keeps R) promises -> keeps R (Promise_all promises).
Proof.
  induction 1 as [| p ps Hp Hps IH]; [apply keeps_ret |].
  intros w. simpl. specialize (Hp w). destruct (p w) as [r w1].
  specialize (IH w1). destruct (Promise_all ps w1) as [rs w2]. simpl in *.
  eapply stable_trans; eassumption.
Qed.

Lemma keeps_mapM {A B} (callback : A -> nat -> M Ext B) (xs : list A) :
  (forall x index, keeps R (callback x index)) ->
  forall index, keeps R (mapM callback xs index).
Proof.
  intros Hc. induction xs as [| x xs IH]; intros index; simpl; [apply keeps_ret |].
  apply keeps_bind; [apply Hc |]. intros y.
  apply keeps_bind; [apply IH |]. intros ys. apply keeps_ret.
Qed.

Lemma keeps_reduceM {A B} (callback : B -> A -> M Ext B) (xs : list A) :
  (forall acc x, keeps R (callback acc x)) ->
  forall acc, keeps R (reduceM callback xs acc).
Proof.
  intros Hc. induction xs as [| x xs IH]; intros acc; simpl; [apply keeps_ret |].
  apply keeps_bind; [apply Hc | apply IH].
Qed.

End Keeps.

Lemma sameButText_refl u : sameButText u u.
Proof. repeat split. Qed.

Lemma sameButText_trans u1 u2 u3 :
  sameButText u1 u2 -> sameButText u2 u3 -> sameButText u1 u3.
Proof.
  intros (A1 & A2 & A3 & A4 & A5) (B1 & B2 & B3 & B4 & B5).
  repeat split; congruence.
Qed.

#[global] Instance writesOnly_stable {Ext} (l : loc) : Stable l (@writesOnly Ext l).
Proof.
  split.
  - intros w. split; [reflexivity |]. intros u Hu. exists u. split; [exact Hu | apply sameButText_refl].
  - intros w1 w2 w3 [H12 K12] [H23 K23]. split.
    + intros l' Hl'. now rewrite (H23 l' Hl'), (H12 l' Hl').
    + intros u Hu. destruct (K12 u Hu) as (u' & Hu' & S1).
      destruct (K23 u' Hu') as (u'' & Hu'' & S2).
      exists u''. split; [exact Hu'' | eapply sameButText_trans; eassumption].
  - intros w ev x. split; [reflexivity |]. intros u Hu. exists u.
    split; [exact Hu | apply sameButText_refl].
  - intros w u u' Hu Hs. split; simpl.
    + intros l' Hl'. now apply lookup_insert_ne.
    + intros u0 Hu0. exists u'. split; [apply lookup_insert_eq |].
      rewrite Hu in Hu0. inversion Hu0; subst u0. exact Hs.
Qed.

#[global] Instance grows_stable {Ext} (l : loc) : Stable l (@grows Ext).
Proof.
  split.
  - intros w. exists []. now rewrite app_nil_r.
  - intros w1 w2 w3 [e1 H1] [e2 H2]. exists (e1 ++ e2).
    now rewrite H2, H1, app_assoc.
  - intros w ev x. now exists [ev].
  - intros w u u' _ _. exists []. simpl. now rewrite app_nil_r.
Qed.

(** The instance of [Stable] at hand. *)
Ltac stable :=
  first [eassumption | apply writesOnly_stable | exact (grows_stable 0) | apply grows_stable].

(** Goals [keeps R m], by the shape of [m]. *)
Ltac keeps_step :=
  match goal with
  | |- keeps _ (bind _ _) => eapply keeps_bind; [stable | | intros]
  | |- keeps _ (tryCatch _ _) => eapply keeps_tryCatch; [stable | | intros]
  | |- keeps _ (ret _) => eapply keeps_ret; stable
  | |- keeps _ (throw _) => eapply keeps_throw; stable
  | |- keeps _ pending => eapply keeps_pending; stable
  | |- keeps _ (settle _) => eapply keeps_settle; stable
  | |- keeps _ (emit _) => eapply keeps_emit; stable
  | |- keeps _ (console_warn _) => eapply keeps_emit; stable
  | |- keeps _ (console_error _) => eapply keeps_emit; stable
  | |- keeps _ (sleep _) => eapply keeps_emit; stable
  | |- keeps _ (call _ _) => eapply keeps_call; stable
  | |- keeps _ (callSync _ _) => eapply keeps_callSync; stable
  | |- keeps _ (readInputs _) => eapply keeps_readInputs; stable
  | |- keeps _ (readImage _) => eapply keeps_readImage; stable
  | |- keeps _ (if ?b then _ else _) => destruct b
  | |- keeps _ (match ?x with _ => _ end) => destruct x
  | |- keeps _ (let (_, _) := ?x in _) => destruct x
  end.

Section PipelineKeeps.
Context {Ext : Type} (P : Platform Ext).
Context (ci : loc) (R : World Ext -> World Ext -> Prop) {HR : Stable ci R}.

Lemma keeps_generateContent params : keeps R (ai_models_generateContent P params).
Proof. unfold ai_models_generateContent. keeps_step. Qed.

Lemma keeps_parse text : keeps R (parse P text).
Proof. unfold parse. repeat keeps_step. Qed.

Lemma keeps_proofreadText text context : keeps R (proofreadText P text context).
Proof.
  unfold proofreadText. pose proof keeps_generateContent.
  repeat first [apply keeps_generateContent | keeps_step].
Qed.

Lemma keeps_proofreadAdCopy adCopies context : keeps R (proofreadAdCopy P adCopies context).
Proof.
  unfold proofreadAdCopy.
  repeat first [apply keeps_generateContent | apply keeps_parse | keeps_step].
Qed.

Lemma keeps_getProductInfo inputs : keeps R (getProductInfo P inputs).
Proof.
  unfold getProductInfo.
  repeat first [apply keeps_generateContent | keeps_step].
Qed.

Lemma keeps_generateAdCopy productInfo : keeps R (generateAdCopy P productInfo).
Proof.
  unfold generateAdCopy.
  repeat first [apply keeps_generateContent | apply keeps_parse | keeps_step].
Qed.

Lemma keeps_lengthIsZero v : keeps R (lengthIsZero P v).
Proof. unfold lengthIsZero. repeat keeps_step. Qed.

Lemma keeps_atIndexModLength v index : keeps R (atIndexModLength P v index).
Proof. unfold atIndexModLength. repeat keeps_step. Qed.

Lemma keeps_generateImages inputs productInfo : keeps R (generateImages P inputs productInfo).
Proof.
  unfold generateImages.
  keeps_step; [keeps_step |]. destruct (productImage a) as [imageRef |].
  - keeps_step; [keeps_step |].
    keeps_step.
    + eapply keeps_Promise_all; [eassumption |].
      unfold imageEditPromises. apply Forall_map, Forall_forall.
      intros prompt _. apply keeps_generateContent.
    + keeps_step.
      * eapply keeps_reduceM; [eassumption |].
        intros acc response. unfold collectImage. repeat keeps_step.
      * repeat keeps_step.
  - keeps_step.
    + eapply keeps_Promise_all; [eassumption |].
      unfold imagePromises. apply Forall_map, Forall_forall.
      intros prompt _. unfold ai_models_generateImages. keeps_step.
    + eapply keeps_mapM; [eassumption |].
      intros res index. unfold generatedImage. repeat keeps_step.
Qed.

Lemma keeps_poll fuel : forall operation, keeps R (poll P fuel operation).
Proof.
  induction fuel as [| fuel IH]; intros operation; simpl.
  - repeat keeps_step.
  - destruct (GenAI.done operation) as [[|] |].
    + keeps_step.
    + keeps_step; [keeps_step |]. keeps_step; [| apply IH].
      unfold ai_operations_getVideosOperation. keeps_step.
    + keeps_step; [keeps_step |]. keeps_step; [| apply IH].
      unfold ai_operations_getVideosOperation. keeps_step.
Qed.

Lemma keeps_generateVideos fuel inputs productInfo :
  keeps R (generateVideos P fuel inputs productInfo).
Proof.
  unfold generateVideos, download, ai_models_generateVideos, fetch, createObjectURL.
  repeat first [apply keeps_poll | keeps_step].
Qed.

Lemma keeps_combine imageUrls finalAdCopy : keeps R (combine P imageUrls finalAdCopy).
Proof.
  unfold combine. keeps_step; [keeps_step |].
  eapply keeps_mapM; [eassumption |]. intros x index.
  unfold imageCreative, randomUUID.
  repeat first [apply keeps_atIndexModLength | keeps_step].
Qed.

End PipelineKeeps.

(** ** The orchestrator and the store *)

(** Takes a hypothesis [bind m k w = (Returned b, w')] apart, bind after
    bind. *)
Ltac invert_binds H :=
  repeat (let a := fresh "a" in
          let w := fresh "w" in
          let Ha := fresh "Ha" in
          apply bind_Returned_inv in H as (a & w & Ha & H); cbv beta in H).

Section Orchestrator.
Context {Ext : Type} (P : Platform Ext).

Lemma spread_run inputs (w : World Ext) :
  spread inputs w =
  match heap w !! inputs with
  | Some (InputsObj u) =>
      (Returned (fresh (dom (heap w))),
       Build_World (<[fresh (dom (heap w)) := InputsObj u]> (heap w)) (ext w) (trace w))
  | _ => (Threw (TypeError (js "not a UserInputs object")), w)
  end.
Proof.
  unfold spread, bind, readInputs, alloc.
  destruct (heap w !! inputs) as [[u | i] |]; reflexivity.
Qed.

Lemma fresh_not_in_heap (w : World Ext) l :
  l ∈ dom (heap w) -> l <> fresh (dom (heap w)).
Proof. intros Hl ->. exact (is_fresh (dom (heap w)) Hl). Qed.

(** Steps 1 to 4, once the copy is made at [ci], keep every stable
    relation. *)
Lemma resolveCopy_keeps ci (R : World Ext -> World Ext -> Prop) `{!Stable ci R}
    inputs (w : World Ext) u :
  heap w !! inputs = Some (InputsObj u) ->
  ci = fresh (dom (heap w)) ->
  R (Build_World (<[ci := InputsObj u]> (heap w)) (ext w) (trace w))
    (snd (resolveCopy P inputs w)).
Proof.
  intros Hu ->. unfold resolveCopy. unfold bind at 1. rewrite spread_run, Hu.
  match goal with
  | |- R ?w0 (snd (?m ?w0)) => cut (keeps R m); [intros Hk; exact (Hk w0) |]
  end.
  repeat first
    [ eapply keeps_proofreadText; eassumption
    | eapply keeps_getProductInfo; eassumption
    | eapply keeps_generateAdCopy; eassumption
    | eapply keeps_proofreadAdCopy; eassumption
    | eapply keeps_lengthIsZero; eassumption
    | eapply keeps_update; [eassumption | intros ?; repeat split]
    | keeps_step ].
Qed.

(** What a successful run of steps 1 to 4 returns and leaves. *)
Lemma resolveCopy_spec inputs (w : World Ext) ci productInfo finalAdCopy w1 :
  resolveCopy P inputs w = (Returned (ci, productInfo, finalAdCopy), w1) ->
  exists u0 u,
    heap w !! inputs = Some (InputsObj u0)
    /\ ci = fresh (dom (heap w))
    /\ (forall l, l ∈ dom (heap w) -> heap w1 !! l = heap w !! l)
    /\ heap w1 !! ci = Some (InputsObj u)
    /\ sameButText u0 u
    /\ grows w w1.
Proof.
  intros H.
  assert (Hloc : exists u0, heap w !! inputs = Some (InputsObj u0)
                            /\ ci = fresh (dom (heap w))).
  { pose proof H as H'. unfold resolveCopy in H'.
    apply bind_Returned_inv in H' as (ci0 & w0 & Hs & H'). cbv beta in H'.
    rewrite spread_run in Hs.
    destruct (heap w !! inputs) as [[u0 | i] |]; try discriminate.
    inversion Hs; subst ci0 w0; clear Hs.
    invert_binds H'.
    match type of H' with
    | (if ?b then _ else _) _ = _ => destruct b; [discriminate |]
    end.
    inversion H'; subst. now exists u0. }
  destruct Hloc as (u0 & Hu0 & Hci).
  pose proof (resolveCopy_keeps ci (writesOnly ci) inputs w u0 Hu0 Hci) as [Hframe Hat].
  pose proof (resolveCopy_keeps ci grows inputs w u0 Hu0 Hci) as [evs Hevs].
  rewrite H in Hframe, Hat, Hevs. simpl in Hframe, Hat, Hevs.
  destruct (Hat u0) as (u & Hu & Hsame); [apply lookup_insert_eq |].
  exists u0, u. repeat split; try assumption.
  - intros l Hl. assert (l <> ci) by (subst ci; now apply fresh_not_in_heap).
    rewrite Hframe by assumption. now apply lookup_insert_ne.
  - destruct Hsame as (? & _); assumption.
  - destruct Hsame as (_ & ? & _); assumption.
  - destruct Hsame as (_ & _ & ? & _); assumption.
  - destruct Hsame as (_ & _ & _ & ? & _); assumption.
  - destruct Hsame as (_ & _ & _ & _ & ?); assumption.
  - now exists evs.
Qed.

(** Steps 1 to 4 leave every object of the caller as it was, whatever
    the outcome. *)
Lemma resolveCopy_frame inputs (w : World Ext) l :
  l <> fresh (dom (heap w)) ->
  heap (snd (resolveCopy P inputs w)) !! l = heap w !! l.
Proof.
  intros Hl.
  destruct (heap w !! inputs) as [[u0 | i] |] eqn:Hu0.
  - pose proof (resolveCopy_keeps _ (writesOnly _) inputs w u0 Hu0 eq_refl) as [Hframe _].
    rewrite Hframe by assumption. simpl. now apply lookup_insert_ne.
  - unfold resolveCopy. unfold bind at 1. now rewrite spread_run, Hu0.
  - unfold resolveCopy. unfold bind at 1. now rewrite spread_run, Hu0.
Qed.

(** The rest of the run writes nothing but the copy. *)
Lemma generateAdCreatives_frame fuel inputs (w : World Ext) l :
  l <> fresh (dom (heap w)) ->
  heap (snd (generateAdCreatives P fuel inputs w)) !! l = heap w !! l.
Proof.
  intros Hl. pose proof (resolveCopy_frame inputs w l Hl) as Hframe.
  unfold generateAdCreatives. unfold bind at 1.
  destruct (resolveCopy P inputs w) as [[[[ci productInfo] finalAdCopy] | e |] w1] eqn:Hr;
    simpl in Hframe; try exact Hframe.
  destruct (resolveCopy_spec _ _ _ _ _ _ Hr) as (u0 & u & _ & Hci & _).
  rewrite <- Hframe.
  match goal with
  | |- heap (snd (?m ?w0)) !! l = _ =>
      cut (keeps (writesOnly ci) m);
      [intros Hk; destruct (Hk w0) as [Hk1 _]; apply Hk1; now subst ci |]
  end.
  unfold videoCreative, randomUUID.
  repeat first
    [ eapply keeps_generateVideos; apply writesOnly_stable
    | eapply keeps_generateImages; apply writesOnly_stable
    | eapply keeps_combine; apply writesOnly_stable
    | keeps_step ].
Qed.

End Orchestrator.

(** C10. The orchestrator does not write to its argument. After the
    call, whether it returned, threw or is still polling, the object
    [inputs] is what it was, and so is every other object the store held
    (the product image among them): the only location that may differ is
    the fresh one of the shallow copy, where the corrections go. *)
Theorem generateAdCreatives_leaves_inputs {Ext} (P : Platform Ext)
    (fuel : nat) (inputs : loc) (w : World Ext) :
  let w' := snd (generateAdCreatives P fuel inputs w) in
  heap w' !! inputs = heap w !! inputs
  /\ (forall l, l ∈ dom (heap w) -> heap w' !! l = heap w !! l)
  /\ (forall l, l <> fresh (dom (heap w)) -> heap w' !! l = heap w !! l).
Proof.
  cbv zeta. split; [| split].
  - destruct (decide (inputs = fresh (dom (heap w)))) as [Heq | Hne].
    + assert (Hnone : heap w !! inputs = None).
      { apply not_elem_of_dom. rewrite Heq. apply is_fresh. }
      unfold generateAdCreatives, resolveCopy. unfold bind at 1. unfold bind at 1.
      now rewrite spread_run, Hnone.
    + now apply generateAdCreatives_frame.
  - intros l Hl. apply generateAdCreatives_frame. now apply fresh_not_in_heap.
  - intros l Hl. now apply generateAdCreatives_frame.
Qed.

(** The corrected description is written to the copy, at the fresh
    location 1; the inputs, at 0, keep the misspelt one. *)
Example corrections_go_to_the_copy :
  (fun w' =>
     (productDescription <$> (match heap w' !! 0 with Some (InputsObj u) => Some u | _ => None end),
      productDescription <$> (match heap w' !! 1 with Some (InputsObj u) => Some u | _ => None end)))
    (snd (generateAdCreatives (Double.platform Sample.twoOfThree) 0 0 Sample.misspelt))
  = (Some (js "Reusable cofee cup"), Some (js "Reusable coffee cup")).
Proof. vm_compute. reflexivity. Qed.

(** ** The image branch *)

Section Images.
Context {Ext : Type} (P : Platform Ext).

Lemma readInputs_run l (w : World Ext) u :
  heap w !! l = Some (InputsObj u) -> readInputs l w = (Returned u, w).
Proof. intros H. unfold readInputs. now rewrite H. Qed.

Lemma readImage_run l (w : World Ext) i :
  heap w !! l = Some (ImageObj i) -> readImage l w = (Returned i, w).
Proof. intros H. unfold readImage. now rewrite H. Qed.

Lemma Promise_all_length {A} (promises : list (M Ext A)) :
  forall w rs w', Promise_all promises w = (Returned rs, w') -> length rs = length promises.
Proof.
  induction promises as [| p ps IH]; intros w rs w' H; simpl in H.
  - inversion H. reflexivity.
  - destruct (p w) as [r w1]. destruct (Promise_all ps w1) as [rs' w2] eqn:Hps.
    destruct r as [a | e |]; destruct rs' as [l | e' |]; inversion H; subst.
    simpl. f_equal. eapply IH. exact Hps.
Qed.

(** A [Promise.all] over calls is fulfilled with the responses when every
    call returned one, and rejected otherwise. *)
Lemma Promise_all_calls_cases {A B} (ev : B -> Event) (f : B -> Ext -> Result A * Ext)
    (xs : list B) :
  forall w,
    (exists rs w',
        Promise_all (map (fun x => call (ev x) (f x)) xs) w = (Returned rs, w')
        /\ outcomes (map (fun x => call (ev x) (f x)) xs) w = Returned <$> rs)
    \/ (exists e w', Promise_all (map (fun x => call (ev x) (f x)) xs) w = (Threw e, w')).
Proof.
  induction xs as [| x xs IH]; intros w; cbn [map Promise_all outcomes].
  - left. exists [], w. split; reflexivity.
  - destruct (call (ev x) (f x) w) as [r w1] eqn:Hc.
    assert (Hr : r <> Pending).
    { unfold call in Hc. destruct (f x (ext w)) as [[a | e] x1]; inversion Hc; discriminate. }
    destruct (IH w1) as [(rs & w' & Hall & Hout) | (e & w' & Hall)]; rewrite Hall.
    + destruct r as [a | e |]; [| | now elim Hr].
      * left. exists (a :: rs), w'. rewrite Hout. split; reflexivity.
      * right. exists e, w'. reflexivity.
    + destruct r as [a | e' |]; [| | now elim Hr].
      * right. exists e, w'. reflexivity.
      * right. exists e', w'. reflexivity.
Qed.

(** The requests of a [Promise.all] over calls are all issued, in the
    order of the list, whatever they settle to. *)
Lemma Promise_all_calls {A B} (ev : B -> Event) (f : B -> Ext -> Result A * Ext) (xs : list B) :
  forall w, trace (snd (Promise_all (map (fun x => call (ev x) (f x)) xs) w))
            = trace w ++ map ev xs.
Proof.
  induction xs as [| x xs IH]; intros w; simpl.
  - now rewrite app_nil_r.
  - unfold call at 1. destruct (f x (ext w)) as [r x1].
    match goal with
    | |- context [Promise_all ?ps ?w1] =>
        specialize (IH w1); destruct (Promise_all ps w1) as [rs w2]
    end.
    simpl in *. rewrite IH. now rewrite <- app_assoc.
Qed.

Lemma collectImage_run acc response (w : World Ext) :
  exists w',
    collectImage acc response w
    = (Returned (acc ++ omap editedImage [response]), w').
Proof.
  unfold collectImage. simpl. destruct (editedImage response) as [dataUrl |].
  - exists w. reflexivity.
  - eexists. unfold bind, console_warn, emit, ret. simpl. now rewrite app_nil_r.
Qed.

(** The reduction keeps the images of the responses that have one, in
    order, and drops the others. *)
Lemma reduceM_collectImage (responses : list GenAI.GenerateContentResponse) :
  forall acc (w : World Ext),
  exists w',
    reduceM collectImage responses acc w
    = (Returned (acc ++ omap editedImage responses), w').
Proof.
  induction responses as [| r rs IH]; intros acc w.
  - exists w. simpl. now rewrite app_nil_r.
  - destruct (collectImage_run acc r w) as (w1 & Hc).
    destruct (IH (acc ++ omap editedImage [r]) w1) as (w' & Hw').
    exists w'. cbn [reduceM]. rewrite (bind_Returned _ _ _ _ _ Hc), Hw'.
    rewrite <- app_assoc. f_equal. f_equal.
    simpl. destruct (editedImage r); reflexivity.
Qed.


Lemma generateImages_text inputs productInfo (w : World Ext) u :
  heap w !! inputs = Some (InputsObj u) ->
  productImage u = None ->
  generateImages P inputs productInfo w =
  bind (Promise_all (imagePromises P u productInfo))
       (fun responses => mapM generatedImage responses 0) w.
Proof.
  intros Hu Himg. unfold generateImages.
  rewrite (bind_Returned _ _ _ _ _ (readInputs_run _ _ _ Hu)). now rewrite Himg.
Qed.

Lemma generatedImage_cases res index (w : World Ext) :
  (hasNoImages res = true /\
   generatedImage res index w =
   (Threw (Error (js "Image generation failed to produce an image. Please try a different prompt.")),
    afterEvent (ConsoleError (js "Image generation failed:")) w))
  \/ (hasNoImages res = false /\
      ((exists dataUrl, generatedImage res index w = (Returned dataUrl, w))
       \/ (exists message, generatedImage res index w = (Threw (TypeError message), w)))).
Proof.
  unfold generatedImage, hasNoImages.
  destruct (GenAI.generatedImages res) as [[| g gs] |].
  - left. split; reflexivity.
  - right. split; [reflexivity |].
    destruct (GenAI.image g); [left | right]; eexists; reflexivity.
  - left. split; reflexivity.
Qed.

(** One response without images is enough for the map to throw. *)
Lemma mapM_generatedImage_throws (responses : list GenAI.GenerateImagesResponse) :
  Exists (fun res => hasNoImages res = true) responses ->
  forall index (w : World Ext),
  exists e w',
    mapM generatedImage responses index w = (Threw e, w')
    /\ (e = Error (js "Image generation failed to produce an image. Please try a different prompt.")
        \/ exists message, e = TypeError message).
Proof.
  induction 1 as [res rs Hres | res rs Hrs IH]; intros index w; simpl.
  - destruct (generatedImage_cases res index w) as [[_ Hrun] | [Hno _]]; [| congruence].
    eexists _, _. split; [apply bind_Threw; exact Hrun | now left].
  - destruct (generatedImage_cases res index w)
      as [[_ Hrun] | [_ [[dataUrl Hrun] | [message Hrun]]]].
    + eexists _, _. split; [apply bind_Threw; exact Hrun | now left].
    + destruct (IH (S index) w) as (e & w' & Hrest & He).
      exists e, w'. split; [| exact He]. rewrite (bind_Returned _ _ _ _ _ Hrun).
      apply bind_Threw. exact Hrest.
    + eexists _, _. split; [apply bind_Threw; exact Hrun | right; now exists message].
Qed.

(** The map makes no call: it only logs. *)
Lemma mapM_generatedImage_trace (responses : list GenAI.GenerateImagesResponse) :
  forall index (w : World Ext),
  exists rest,
    trace (snd (mapM generatedImage responses index w)) = trace w ++ rest
    /\ Forall (fun ev => exists message, ev = ConsoleError message) rest.
Proof.
  induction responses as [| res rs IH]; intros index w; simpl.
  - exists []. split; [now rewrite app_nil_r | constructor].
  - unfold bind at 1.
    destruct (generatedImage_cases res index w)
      as [[_ Hrun] | [_ [[dataUrl Hrun] | [e Hrun]]]]; rewrite Hrun.
    + eexists [_]. split; [reflexivity |]. repeat constructor. now eexists.
    + destruct (IH (S index) w) as (rest & Hrest & Hall).
      exists rest. split; [| exact Hall].
      unfold bind. destruct (mapM generatedImage rs (S index) w) as [[ys | e |] w'];
        exact Hrest.
    + exists []. split; [now rewrite app_nil_r | constructor].
Qed.

End Images.

Section ImagePipeline.
Context {Ext : Type} (P : Platform Ext).

(** Where the run stands when steps 1 to 4 have returned on a request
    for images: the asset generator is called on the corrected copy,
    and the assembler on what it returns. *)
Lemma generateAdCreatives_images fuel inputs (w : World Ext) u0 ci productInfo finalAdCopy w1 :
  heap w !! inputs = Some (InputsObj u0) ->
  creativeType u0 = IMAGE ->
  resolveCopy P inputs w = (Returned (ci, productInfo, finalAdCopy), w1) ->
  generateAdCreatives P fuel inputs w =
  bind (generateImages P ci productInfo)
       (fun imageUrls => combine P imageUrls finalAdCopy) w1.
Proof.
  intros Hu0 Htype Hr.
  destruct (resolveCopy_spec P _ _ _ _ _ _ Hr) as (u0' & u & Hu0' & _ & Hframe & _).
  assert (Hin : heap w1 !! inputs = Some (InputsObj u0)).
  { rewrite Hframe; [exact Hu0 |]. eapply elem_of_dom_2. exact Hu0. }
  unfold generateAdCreatives. rewrite (bind_Returned _ _ _ _ _ Hr).
  rewrite (bind_Returned _ _ _ _ _ (readInputs_run _ _ _ Hin)).
  rewrite Htype. reflexivity.
Qed.

(** What the corrected copy says of the image is what the inputs
    said. *)
Lemma resolveCopy_image inputs (w : World Ext) u0 ci productInfo finalAdCopy w1 u :
  heap w !! inputs = Some (InputsObj u0) ->
  resolveCopy P inputs w = (Returned (ci, productInfo, finalAdCopy), w1) ->
  heap w1 !! ci = Some (InputsObj u) ->
  productImage u = productImage u0
  /\ creativeFormat u = creativeFormat u0
  /\ forall imageRef image,
       productImage u0 = Some imageRef ->
       heap w !! imageRef = Some (ImageObj image) ->
       heap w1 !! imageRef = Some (ImageObj image).
Proof.
  intros Hu0 Hr Hu.
  destruct (resolveCopy_spec P _ _ _ _ _ _ Hr)
    as (u0' & u' & Hu0' & _ & Hframe & Hu' & (S1 & _ & S3 & _) & _).
  rewrite Hu0 in Hu0'. inversion Hu0'; subst u0'.
  rewrite Hu in Hu'. inversion Hu'; subst u'.
  repeat split; try assumption.
  intros imageRef image _ Hobj. rewrite Hframe; [exact Hobj |].
  eapply elem_of_dom_2. exact Hobj.
Qed.

End ImagePipeline.

(** ** The outcomes of a [Promise.all] over calls *)

Section Outcomes.
Context {Ext : Type}.







End Outcomes.


(** C4. Without a product image, once steps 1 to 4 have returned, one
    text-to-image request that returns a response with no image is
    enough for [generateImages] to throw and for the run to fail with
    that error, whatever the other two requests do: nothing is kept of
    them. When all three returned a response, the error is the
    image-generation error, unless an earlier response of the list
    lists an image that has no [image] object (a [TypeError]). *)
Theorem text_to_image_all_or_nothing {Ext} (P : Platform Ext) (fuel : nat) (inputs : loc)
    (w : World Ext) u0 ci productInfo finalAdCopy w1 u :
  heap w !! inputs = Some (InputsObj u0) ->
  creativeType u0 = IMAGE ->
  productImage u0 = None ->
  resolveCopy P inputs w = (Returned (ci, productInfo, finalAdCopy), w1) ->
  heap w1 !! ci = Some (InputsObj u) ->
  Exists (fun outcome => exists res, outcome = Returned res /\ hasNoImages res = true)
         (outcomes (imagePromises P u productInfo) w1) ->
  length (outcomes (imagePromises P u productInfo) w1) = 3
  /\ exists e w3,
       generateImages P ci productInfo w1 = (Threw e, w3)
       /\ generateAdCreatives P fuel inputs w = (Threw e, w3)
       /\ (forall responses,
             outcomes (imagePromises P u productInfo) w1 = Returned <$> responses ->
             e = Error (js "Image generation failed to produce an image. Please try a different prompt.")
             \/ exists message, e = TypeError message).
Proof.
  intros Hu0 Htype Himg Hr Hu Hex.
  destruct (resolveCopy_image P _ _ _ _ _ _ _ _ Hu0 Hr Hu) as (Himg' & _ & _).
  rewrite Himg in Himg'.
  split.
  - clear Hex. unfold imagePromises, imagePrompts, VARIATION_PROMPTS. cbn [map outcomes].
    repeat match goal with
           | |- context [let (_, _) := ?p ?w in _] => destruct (p w)
           end.
    reflexivity.
  - assert (Hgen : exists e w3,
               generateImages P ci productInfo w1 = (Threw e, w3)
               /\ (forall responses,
                     outcomes (imagePromises P u productInfo) w1 = Returned <$> responses ->
                     e = Error (js "Image generation failed to produce an image. Please try a different prompt.")
                     \/ exists message, e = TypeError message)).
    { rewrite (generateImages_text P ci productInfo w1 u Hu Himg').
      unfold imagePromises, ai_models_generateImages in *.
      destruct (Promise_all_calls_cases
                  (fun prompt => GenerateImages (textToImageRequest P (creativeFormat u) prompt))
                  (fun prompt => models_generateImages P (textToImageRequest P (creativeFormat u) prompt))
                  (imagePrompts u productInfo) w1)
        as [(responses & w2 & Hall & Hout) | (e & w2 & Hall)].
      - rewrite Hout in Hex.
        assert (Hex' : Exists (fun res => hasNoImages res = true) responses).
        { apply Exists_exists in Hex as (outcome & Hin & res & -> & Hno).
          apply Exists_exists. exists res. split; [| exact Hno].
          apply list_elem_of_fmap in Hin as (res' & Heq & Hin).
          inversion Heq; subst res'. exact Hin. }
        destruct (mapM_generatedImage_throws responses Hex' 0 w2) as (e & w3 & Hmap & He).
        exists e, w3. split; [now rewrite (bind_Returned _ _ _ _ _ Hall) |].
        intros _ _. exact He.
      - exists e, w2. split; [now apply bind_Threw |].
        intros responses Hout. exfalso. clear Hex.
        revert Hall Hout. generalize (imagePrompts u productInfo) w1 responses.
        intros prompts. induction prompts as [| prompt prompts IH]; intros w0 rs Hall Hout.
        + discriminate Hall.
        + cbn [map Promise_all outcomes] in Hall, Hout. unfold call at 1 in Hall.
          unfold call at 1 in Hout.
          destruct (models_generateImages P _ (ext w0)) as [[a | e'] x1].
          * destruct rs as [| r rs]; [discriminate Hout |].
            inversion Hout as [[Ha Hrest]].
            match type of Hall with
            | context [Promise_all ?ps ?wn] =>
                destruct (Promise_all ps wn) as [[l | e'' |] w'] eqn:Hps
            end; try discriminate Hall.
            inversion Hall; subst. eapply IH; [exact Hps | exact Hrest].
          * destruct rs as [| r rs]; discriminate Hout. }
    destruct Hgen as (e & w3 & Hgen & He).
    exists e, w3. split; [exact Hgen | split; [| exact He]].
    rewrite (generateAdCreatives_images P fuel inputs w u0 ci productInfo _ w1 Hu0 Htype Hr).
    now apply bind_Threw.
Qed.

(** C9. [getAspectRatio] maps square to 1:1, horizontal to 16:9 and
    vertical to 9:16; without a product image, [generateImages] issues
    exactly three text-to-image requests, one per variation prompt, each
    with the aspect ratio of the requested format, and makes no other
    call (what may follow in the trace are error logs). *)
Theorem text_to_image_aspect_ratio {Ext} (P : Platform Ext) (inputs : loc)
    (productInfo : option jsstring) (w : World Ext) u :
  heap w !! inputs = Some (InputsObj u) ->
  productImage u = None ->
  (getAspectRatio SQUARE = js "1:1"
   /\ getAspectRatio HORIZONTAL = js "16:9"
   /\ getAspectRatio VERTICAL = js "9:16")
  /\ length (imagePrompts u productInfo) = 3
  /\ (forall prompt,
        GenAI.aspectRatio (textToImageRequest P (creativeFormat u) prompt)
        = getAspectRatio (creativeFormat u))
  /\ exists rest,
       trace (snd (generateImages P inputs productInfo w))
       = trace w
         ++ (GenerateImages <$> (textToImageRequest P (creativeFormat u)
                                   <$> imagePrompts u productInfo))
         ++ rest
       /\ Forall (fun ev => exists message, ev = ConsoleError message) rest.
Proof.
  intros Hu Himg. split; [repeat split | split; [reflexivity | split; [reflexivity |]]].
  rewrite (generateImages_text P inputs productInfo w u Hu Himg).
  pose proof (Promise_all_calls
                (fun prompt => GenerateImages (textToImageRequest P (creativeFormat u) prompt))
                (fun prompt => models_generateImages P (textToImageRequest P (creativeFormat u) prompt))
                (imagePrompts u productInfo) w) as Hcalls.
  unfold imagePromises, ai_models_generateImages. unfold bind.
  destruct (Promise_all _ w) as [[responses | e |] w2]; simpl in Hcalls.
  - destruct (mapM_generatedImage_trace responses 0 w2) as (rest & Hrest & Hlogs).
    exists rest. split; [| exact Hlogs].
    rewrite Hrest, Hcalls, <- app_assoc. reflexivity.
  - exists []. split; [| constructor]. simpl. rewrite Hcalls, ?app_nil_r. reflexivity.
  - exists []. split; [| constructor]. simpl. rewrite Hcalls, ?app_nil_r. reflexivity.
Qed.



Example two_images_and_a_rejection :
  imagesReturned
    (outcomes
       (imageEditPromises (Double.platform Demo.rateLimited)
          (withProductDescription (js "Reusable coffee cup") (Sample.request (Some 1) IMAGE))
          Sample.cup (Some (js "Reusable coffee cup")))
       (snd (resolveCopy (Double.platform Demo.rateLimited) 0 (Sample.withImage IMAGE))))
  = 2
  /\ fst (generateAdCreatives (Double.platform Demo.rateLimited) 0 0 (Sample.withImage IMAGE))
     = Threw (Failure (js "429 rate limited")).
Proof. split; vm_compute; reflexivity. Qed.

(** The third of three generated images is missing: the run fails. *)
Lemma text_to_image_all_or_nothing_witness :
  exists e w3,
    generateAdCreatives (Double.platform Sample.twoOfThree) 0 0 (Sample.withoutImage IMAGE)
    = (Threw e, w3).
Proof.
  pose (P := Double.platform Sample.twoOfThree).
  pose (w := Sample.withoutImage IMAGE).
  pose (u := withProductDescription (js "Reusable coffee cup") (Sample.request None IMAGE)).
  pose (productInfo := Some (js "Reusable coffee cup")).
  destruct (text_to_image_all_or_nothing P 0 0 w
              (Sample.request None IMAGE)
              1 productInfo (JArray [Sample.copyA; Sample.copyB; Sample.copyC])
              (snd (resolveCopy P 0 w)) u)
    as (_ & e & w3 & _ & Hrun & _); try (vm_compute; reflexivity).
  - apply Exists_cons_tl, Exists_cons_tl, Exists_cons_hd.
    exists Sample.filtered. split; vm_compute; reflexivity.
  - exists e, w3. exact Hrun.
Defined.

(** The three requests of a square creative carry 1:1. *)
Lemma text_to_image_aspect_ratio_witness :
  exists rest,
    trace (snd (generateImages (Double.platform Sample.twoOfThree) 0
                  (Some (js "Reusable coffee cup")) (Sample.withoutImage IMAGE)))
    = (GenerateImages
         <$> (textToImageRequest (Double.platform Sample.twoOfThree) SQUARE
                <$> imagePrompts (Sample.request None IMAGE) (Some (js "Reusable coffee cup"))))
      ++ rest.
Proof.
  destruct (text_to_image_aspect_ratio (Double.platform Sample.twoOfThree) 0
              (Some (js "Reusable coffee cup")) (Sample.withoutImage IMAGE)
              (Sample.request None IMAGE) eq_refl eq_refl)
    as (_ & _ & _ & rest & Htrace & _).
  exists rest. exact Htrace.
Defined.

(** ** The video branch *)

Section Video.
Context {Ext : Type} (P : Platform Ext).

Lemma call_Resolved {A} ev (f : Ext -> Result A * Ext) (w : World Ext) a x :
  f (ext w) = (Resolved a, x) -> call ev f w = (Returned a, afterCall ev x w).
Proof. intros H. unfold call. now rewrite H. Qed.

Lemma call_Rejected {A} ev (f : Ext -> Result A * Ext) (w : World Ext) e x :
  f (ext w) = (Rejected e, x) -> call ev f w = (Threw e, afterCall ev x w).
Proof. intros H. unfold call. now rewrite H. Qed.

(** One turn of the loop when the operation is not done. *)
Lemma poll_step fuel operation (w : World Ext) :
  GenAI.done operation <> Some true ->
  poll P (S fuel) operation w =
  match operations_getVideosOperation P operation (ext w) with
  | (Resolved operation', x) =>
      poll P fuel operation'
        (afterCall (GetVideosOperation operation) x (afterEvent (SetTimeout 10000) w))
  | (Rejected e, x) =>
      (Threw e, afterCall (GetVideosOperation operation) x (afterEvent (SetTimeout 10000) w))
  end.
Proof.
  intros Hdone. cbn [poll].
  assert (Hturn : forall k : M Ext GenAI.GenerateVideosOperation,
            match GenAI.done operation with
            | Some true => ret operation
            | _ => k
            end = k).
  { intros k. destruct (GenAI.done operation) as [[|] |] eqn:E; congruence. }
  rewrite Hturn. unfold bind at 1. unfold sleep, emit. cbn [fst snd].
  unfold bind, ai_operations_getVideosOperation, call. cbn [ext heap trace afterEvent].
  destruct (operations_getVideosOperation P operation (ext w)) as [[operation' | e] x];
    reflexivity.
Qed.

Lemma poll_done fuel operation (w : World Ext) :
  GenAI.done operation = Some true -> poll P fuel operation w = (Returned operation, w).
Proof. intros H. destruct fuel; simpl; now rewrite H. Qed.

Lemma poll_out_of_fuel operation (w : World Ext) :
  GenAI.done operation <> Some true -> poll P 0 operation w = (Pending, w).
Proof.
  intros H. unfold poll. destruct (GenAI.done operation) as [[|] |] eqn:E;
    [congruence | reflexivity | reflexivity].
Qed.

Lemma done_dec (operation : GenAI.GenerateVideosOperation) :
  {GenAI.done operation = Some true} + {GenAI.done operation <> Some true}.
Proof. destruct (GenAI.done operation) as [[|] |]; (now left) || (now right). Qed.

(** Every poll comes after a ten-second wait, and the loop does
    nothing else. *)
Lemma poll_trace fuel :
  forall operation (w : World Ext),
  exists evs, trace (snd (poll P fuel operation w)) = trace w ++ evs /\ Polling evs.
Proof.
  induction fuel as [| fuel IH]; intros operation w;
    destruct (done_dec operation) as [Hd | Hd].
  - rewrite poll_done by assumption. exists []. split; [now rewrite app_nil_r | constructor].
  - rewrite poll_out_of_fuel by assumption. exists [].
    split; [now rewrite app_nil_r | constructor].
  - rewrite poll_done by assumption. exists []. split; [now rewrite app_nil_r | constructor].
  - rewrite poll_step by assumption.
    destruct (operations_getVideosOperation P operation (ext w)) as [[operation' | e] x].
    + destruct (IH operation'
                  (afterCall (GetVideosOperation operation) x (afterEvent (SetTimeout 10000) w)))
        as (evs & Hevs & Hpoll).
      exists (SetTimeout 10000 :: GetVideosOperation operation :: evs).
      split; [| now constructor].
      rewrite Hevs. simpl. now rewrite <- !app_assoc.
    + exists [SetTimeout 10000; GetVideosOperation operation].
      split; [| repeat constructor]. simpl. now rewrite <- app_assoc.
Qed.

(** The loop is left normally only with an operation that is done. *)
Lemma poll_Returned fuel :
  forall operation (w : World Ext) operation' w',
    poll P fuel operation w = (Returned operation', w') ->
    GenAI.done operation' = Some true.
Proof.
  induction fuel as [| fuel IH]; intros operation w operation' w' H;
    destruct (done_dec operation) as [Hd | Hd].
  - rewrite poll_done in H by assumption. now inversion H; subst.
  - rewrite poll_out_of_fuel in H by assumption. discriminate.
  - rewrite poll_done in H by assumption. now inversion H; subst.
  - rewrite poll_step in H by assumption.
    destruct (operations_getVideosOperation P operation (ext w)) as [[operation1 | e] x];
      [eapply IH; exact H | discriminate].
Qed.

(** More fuel does not change a result that was reached. *)
Lemma poll_more_fuel n :
  forall operation (w : World Ext) operation' w' fuel,
    poll P n operation w = (Returned operation', w') ->
    n <= fuel ->
    poll P fuel operation w = (Returned operation', w').
Proof.
  induction n as [| n IH]; intros operation w operation' w' fuel H Hle;
    destruct (done_dec operation) as [Hd | Hd].
  - rewrite poll_done in *; assumption.
  - rewrite poll_out_of_fuel in H by assumption. discriminate.
  - rewrite poll_done in *; assumption.
  - destruct fuel as [| fuel]; [lia |].
    rewrite poll_step in * by assumption.
    destruct (operations_getVideosOperation P operation (ext w)) as [[operation1 | e] x];
      [apply IH; [exact H | lia] | discriminate].
Qed.

(** An operation that no poll ever finds done keeps the loop waiting,
    however long one watches. *)
Lemma poll_never_done :
  (forall operation x, exists operation' x',
      operations_getVideosOperation P operation x = (Resolved operation', x')
      /\ GenAI.done operation' <> Some true) ->
  forall fuel operation (w : World Ext),
    GenAI.done operation <> Some true ->
    exists w', poll P fuel operation w = (Pending, w').
Proof.
  intros Hnever. induction fuel as [| fuel IH]; intros operation w Hd.
  - exists w. now apply poll_out_of_fuel.
  - rewrite poll_step by assumption.
    destruct (Hnever operation (ext w)) as (operation' & x' & Hcall & Hd').
    rewrite Hcall. now apply IH.
Qed.

Lemma readImageOf (w : World Ext) u image :
  imageOf w u image ->
  match productImage u with
  | Some imageRef => let! i := readImage imageRef in ret (Some i)
  | None => ret None
  end w = (Returned image, w).
Proof.
  unfold imageOf. destruct (productImage u) as [imageRef |].
  - intros (i & Hi & ->). now rewrite (bind_Returned _ _ _ _ _ (readImage_run _ _ _ Hi)).
  - now intros ->.
Qed.

(** [generateVideos] up to its loop. *)
Lemma generateVideos_start fuel inputs productInfo (w : World Ext) u image operation0 x1 :
  heap w !! inputs = Some (InputsObj u) ->
  imageOf w u image ->
  models_generateVideos P (videoRequest P image (videoPromptFor u image productInfo)) (ext w)
  = (Resolved operation0, x1) ->
  generateVideos P fuel inputs productInfo w =
  bind (poll P fuel operation0) (download P)
    (afterCall (GenerateVideos (videoRequest P image (videoPromptFor u image productInfo))) x1 w).
Proof.
  intros Hu Himage Hcall. unfold generateVideos.
  rewrite (bind_Returned _ _ _ _ _ (readInputs_run _ _ _ Hu)).
  rewrite (bind_Returned _ _ _ _ _ (readImageOf _ _ _ Himage)).
  unfold ai_models_generateVideos.
  now rewrite (bind_Returned _ _ _ _ _ (call_Resolved _ _ _ _ _ Hcall)).
Qed.

(** Where the run stands when steps 1 to 4 have returned on a request
    for a video. *)
Lemma generateAdCreatives_video fuel inputs (w : World Ext) u0 ci productInfo finalAdCopy w1 :
  heap w !! inputs = Some (InputsObj u0) ->
  creativeType u0 = VIDEO ->
  resolveCopy P inputs w = (Returned (ci, productInfo, finalAdCopy), w1) ->
  generateAdCreatives P fuel inputs w =
  bind (generateVideos P fuel ci productInfo) (videoCreative P finalAdCopy) w1.
Proof.
  intros Hu0 Htype Hr.
  destruct (resolveCopy_spec P _ _ _ _ _ _ Hr) as (u0' & u & Hu0' & _ & Hframe & _).
  assert (Hin : heap w1 !! inputs = Some (InputsObj u0)).
  { rewrite Hframe; [exact Hu0 |]. eapply elem_of_dom_2. exact Hu0. }
  unfold generateAdCreatives. rewrite (bind_Returned _ _ _ _ _ Hr).
  rewrite (bind_Returned _ _ _ _ _ (readInputs_run _ _ _ Hin)).
  rewrite Htype. reflexivity.
Qed.

End Video.

(** ** What the polls answered, and where the loop stands *)

Section Answers.
Context {Ext : Type} (P : Platform Ext).

(** A ten-second wait before every poll, and nothing else: two events
    for each poll. *)
Lemma Answered_Polling n operation x last xn evs :
  Answered P n operation x last xn evs -> Polling evs /\ length evs = 2 * n.
Proof.
  induction 1 as [| n operation x operation' x' last xn evs Hd Hcall _ [IH1 IH2]].
  - split; [constructor | reflexivity].
  - split; [now constructor | simpl; lia].
Qed.

(** The world after the polls that were answered. *)
Lemma Answered_world_eq (w : World Ext) operation (x xn : Ext) evs :
  Build_World
    (heap (afterCall (GetVideosOperation operation) x (afterEvent (SetTimeout 10000) w)))
    xn
    (trace (afterCall (GetVideosOperation operation) x (afterEvent (SetTimeout 10000) w))
     ++ evs)
  = Build_World (heap w) xn
      (trace w ++ SetTimeout 10000 :: GetVideosOperation operation :: evs).
Proof. unfold afterCall, afterEvent. simpl. now rewrite <- !app_assoc. Qed.

(** With fewer polls than were answered, the loop is still waiting. *)
Lemma poll_before n operation x last xn evs :
  Answered P n operation x last xn evs ->
  forall fuel (w : World Ext),
    ext w = x -> fuel < n -> exists w', poll P fuel operation w = (Pending, w').
Proof.
  induction 1 as [| n operation x operation' x' last xn evs Hd Hcall _ IH];
    intros fuel w Hx Hlt; [lia |].
  destruct fuel as [| fuel].
  - exists w. now apply poll_out_of_fuel.
  - rewrite (poll_step P fuel operation w Hd), Hx, Hcall.
    apply (IH fuel (afterCall (GetVideosOperation operation) x' (afterEvent (SetTimeout 10000) w))); [reflexivity | lia].
Qed.

(** After the polls that were answered, with the last answer not
    done, the loop is still waiting; all these polls were made. *)
Lemma poll_not_done n operation x last xn evs :
  Answered P n operation x last xn evs ->
  GenAI.done last <> Some true ->
  forall w : World Ext,
    ext w = x ->
    poll P n operation w = (Pending, Build_World (heap w) xn (trace w ++ evs)).
Proof.
  induction 1 as [operation x | n operation x operation' x' last xn evs Hd Hcall _ IH];
    intros Hlast w Hx.
  - rewrite (poll_out_of_fuel P operation w Hlast). destruct w as [h x0 t].
    simpl in *. subst x0. now rewrite app_nil_r.
  - rewrite (poll_step P n operation w Hd), Hx, Hcall.
    rewrite (IH Hlast (afterCall (GetVideosOperation operation) x' (afterEvent (SetTimeout 10000) w)) eq_refl).
    f_equal. apply Answered_world_eq.
Qed.

(** With the last answer done, the loop returns it, once these polls
    were made and however longer one is ready to wait. *)
Lemma poll_done_at n operation x last xn evs :
  Answered P n operation x last xn evs ->
  GenAI.done last = Some true ->
  forall fuel (w : World Ext),
    ext w = x -> n <= fuel ->
    poll P fuel operation w = (Returned last, Build_World (heap w) xn (trace w ++ evs)).
Proof.
  induction 1 as [operation x | n operation x operation' x' last xn evs Hd Hcall _ IH];
    intros Hlast fuel w Hx Hle.
  - rewrite (poll_done P fuel operation w Hlast). destruct w as [h x0 t].
    simpl in *. subst x0. now rewrite app_nil_r.
  - destruct fuel as [| fuel]; [lia |].
    rewrite (poll_step P fuel operation w Hd), Hx, Hcall.
    rewrite (IH Hlast fuel (afterCall (GetVideosOperation operation) x' (afterEvent (SetTimeout 10000) w)) eq_refl) by lia.
    f_equal. apply Answered_world_eq.
Qed.

(** A poll that is rejected after the polls that were answered ends
    the loop with the rejection. *)
Lemma poll_rejected_at n operation x last xn evs :
  Answered P n operation x last xn evs ->
  GenAI.done last <> Some true ->
  forall e x',
    operations_getVideosOperation P last xn = (Rejected e, x') ->
    forall fuel (w : World Ext),
      ext w = x -> n < fuel ->
      poll P fuel operation w
      = (Threw e,
         Build_World (heap w) x'
           (trace w ++ evs ++ [SetTimeout 10000; GetVideosOperation last])).
Proof.
  induction 1 as [operation x | n operation x operation' x' last xn evs Hd Hcall _ IH];
    intros Hlast e xr Hrej fuel w Hx Hlt.
  - destruct fuel as [| fuel]; [lia |].
    rewrite (poll_step P fuel operation w Hlast), Hx, Hrej.
    f_equal. unfold afterCall, afterEvent. simpl. now rewrite <- !app_assoc.
  - destruct fuel as [| fuel]; [lia |].
    rewrite (poll_step P fuel operation w Hd), Hx, Hcall.
    rewrite (IH Hlast e xr Hrej fuel (afterCall (GetVideosOperation operation) x' (afterEvent (SetTimeout 10000) w)) eq_refl) by lia.
    f_equal. unfold afterCall, afterEvent. simpl. now rewrite <- !app_assoc.
Qed.

(** When no poll is ever answered with done, any number of polls is
    answered. *)
Lemma Answered_never_done :
  (forall operation x, exists operation' x',
      operations_getVideosOperation P operation x = (Resolved operation', x')
      /\ GenAI.done operation' <> Some true) ->
  forall n operation x,
    GenAI.done operation <> Some true ->
    exists last xn evs,
      Answered P n operation x last xn evs /\ GenAI.done last <> Some true.
Proof.
  intros Hnever. induction n as [| n IH]; intros operation x Hd.
  - exists operation, x, []. split; [constructor | exact Hd].
  - destruct (Hnever operation x) as (operation' & x' & Hcall & Hd').
    destruct (IH operation' x' Hd') as (last & xn & evs & Hanswered & Hlast).
    exists last, xn, (SetTimeout 10000 :: GetVideosOperation operation :: evs).
    split; [| exact Hlast]. econstructor; eassumption.
Qed.

End Answers.

(** C6. On a request for a video, once steps 1 to 4 have returned and
    the generation request has returned an operation, what the polls
    answer decides where the run stands. Say the first n polls were
    answered, each made on an operation that did not report done. Then
    the loop made exactly these n polls, each after a wait of ten
    seconds, and nothing else; an observer who waits for fewer than n
    polls sees the run still waiting. If the n-th answer does not
    report done, the run is still waiting after the n polls, and a
    rejection of the next poll ends it with that rejection. If the
    n-th answer reports done, the loop ends there, for every observer
    who waits for n polls or more; and when that answer carries a
    location whose download succeeds, the run returns one record whose
    URL is the object URL of the bytes fetched from the location, after
    the download, the object URL and the identifier. The loop is left
    normally only with an operation that reports done; and when no poll
    is ever answered with done, the run is still waiting after any
    number of polls, all of them made: there is no timeout. *)
Theorem video_polling {Ext} (P : Platform Ext) (inputs : loc) (w : World Ext)
    u0 image ci productInfo finalAdCopy w1 u operation0 x1 :
  heap w !! inputs = Some (InputsObj u0) ->
  creativeType u0 = VIDEO ->
  imageOf w u0 image ->
  resolveCopy P inputs w = (Returned (ci, productInfo, finalAdCopy), w1) ->
  heap w1 !! ci = Some (InputsObj u) ->
  models_generateVideos P (videoRequest P image (videoPromptFor u image productInfo)) (ext w1)
  = (Resolved operation0, x1) ->
  let w2 :=
    afterCall (GenerateVideos (videoRequest P image (videoPromptFor u image productInfo))) x1 w1 in
  (forall n last xn evs,
      Answered P n operation0 x1 last xn evs ->
      let w3 := Build_World (heap w2) xn (trace w2 ++ evs) in
      (Polling evs /\ length evs = 2 * n)
      /\ (forall fuel, fuel < n ->
          exists w', generateAdCreatives P fuel inputs w = (Pending, w'))
      /\ (GenAI.done last <> Some true ->
          poll P n operation0 w2 = (Pending, w3)
          /\ generateAdCreatives P n inputs w = (Pending, w3)
          /\ forall e x',
               operations_getVideosOperation P last xn = (Rejected e, x') ->
               forall fuel, n < fuel ->
               generateAdCreatives P fuel inputs w
               = (Threw e,
                  Build_World (heap w2) x'
                    (trace w2 ++ evs ++ [SetTimeout 10000; GetVideosOperation last])))
      /\ (GenAI.done last = Some true ->
          forall fuel, n <= fuel ->
          poll P fuel operation0 w2 = (Returned last, w3)
          /\ forall link response x4 b,
               downloadLinkOf last = Some link ->
               link <> [] ->
               window_fetch P (link ++ js "&key=" ++ interpolate (API_KEY P)) xn
               = (Resolved response, x4) ->
               ok response = true ->
               blob response = Resolved b ->
               exists uuid w5,
                 generateAdCreatives P fuel inputs w =
                 (Returned [ {| id := uuid;
                                url := fst (URL_createObjectURL P b x4);
                                type := VIDEO;
                                copy := first P finalAdCopy;
                                variation := js "Video Creative" |} ], w5)
                 /\ trace w5
                    = trace w3
                      ++ [Fetch (link ++ js "&key=" ++ interpolate (API_KEY P));
                          CreateObjectURL b; RandomUUID]))
  /\ (forall fuel operation w3,
        poll P fuel operation0 w2 = (Returned operation, w3) ->
        GenAI.done operation = Some true)
  /\ ((forall operation x, exists operation' x',
          operations_getVideosOperation P operation x = (Resolved operation', x')
          /\ GenAI.done operation' <> Some true) ->
      GenAI.done operation0 <> Some true ->
      forall fuel, exists last xn evs,
        Answered P fuel operation0 x1 last xn evs
        /\ GenAI.done last <> Some true
        /\ length evs = 2 * fuel
        /\ generateAdCreatives P fuel inputs w
           = (Pending, Build_World (heap w2) xn (trace w2 ++ evs))).
Proof.
  intros Hu0 Htype Himage Hr Hu Hcall w2.
  destruct (resolveCopy_image P _ _ _ _ _ _ _ _ Hu0 Hr Hu) as (Himg' & _ & Hobj').
  assert (Himage' : imageOf w1 u image).
  { unfold imageOf in *. rewrite Himg'. destruct (productImage u0) as [imageRef |];
      [| exact Himage].
    destruct Himage as (i & Hi & ->). exists i. split; [| reflexivity].
    now apply Hobj'. }
  assert (Hrun : forall fuel,
             generateAdCreatives P fuel inputs w =
             bind (bind (poll P fuel operation0) (download P)) (videoCreative P finalAdCopy) w2).
  { intros fuel.
    rewrite (generateAdCreatives_video P fuel inputs w u0 ci productInfo _ w1 Hu0 Htype Hr).
    unfold bind at 1.
    rewrite (generateVideos_start P fuel ci productInfo w1 u image operation0 x1 Hu Himage' Hcall).
    reflexivity. }
  assert (Hwaiting : forall fuel w', poll P fuel operation0 w2 = (Pending, w') ->
                       generateAdCreatives P fuel inputs w = (Pending, w')).
  { intros fuel w' Hpoll. rewrite Hrun. apply bind_Pending. now apply bind_Pending. }
  split; [| split].
  - intros n last xn evs Hanswered w3.
    split; [exact (Answered_Polling P _ _ _ _ _ _ Hanswered) |]. split; [| split].
    + intros fuel Hlt.
      destruct (poll_before P _ _ _ _ _ _ Hanswered fuel w2 eq_refl Hlt) as (w' & Hpoll).
      exists w'. now apply Hwaiting.
    + intros Hlast.
      pose proof (poll_not_done P _ _ _ _ _ _ Hanswered Hlast w2 eq_refl) as Hpoll.
      split; [exact Hpoll |]. split; [now apply Hwaiting |].
      intros e x' Hrej fuel Hlt. rewrite Hrun.
      apply bind_Threw. apply bind_Threw.
      exact (poll_rejected_at P _ _ _ _ _ _ Hanswered Hlast e x' Hrej fuel w2 eq_refl Hlt).
    + intros Hlast fuel Hle.
      pose proof (poll_done_at P _ _ _ _ _ _ Hanswered Hlast fuel w2 eq_refl Hle) as Hpoll.
      split; [exact Hpoll |].
      intros link response x4 b Hlink Hne Hfetch Hok Hblob.
      rewrite Hrun.
      unfold bind at 1. rewrite (bind_Returned _ _ _ _ _ Hpoll).
      unfold download, videoCreative. rewrite Hlink.
      assert (Ht : truthy (Some link) = true) by (destruct link; [now elim Hne | reflexivity]).
      rewrite Ht. cbn [negb interpolate default].
      unfold fetch.
      assert (Hfetch' : window_fetch P (link ++ js "&key=" ++ interpolate (API_KEY P)) (ext w3)
                        = (Resolved response, x4)) by exact Hfetch.
      rewrite (bind_Returned _ _ _ _ _ (call_Resolved _ _ _ _ _ Hfetch')).
      rewrite Hok, Hblob. cbn [negb settle].
      unfold bind, ret, createObjectURL, randomUUID, callSync. cbn [ext afterCall].
      destruct (URL_createObjectURL P b x4) as [videoUrl x5]. cbn [ext fst].
      destruct (crypto_randomUUID P x5) as [uuid x6].
      eexists _, _. split; [reflexivity |]. simpl. now rewrite <- !app_assoc.
  - intros fuel operation w3. apply poll_Returned.
  - intros Hnever Hd fuel.
    destruct (Answered_never_done P Hnever fuel operation0 x1 Hd)
      as (last & xn & evs & Hanswered & Hlast).
    exists last, xn, evs. split; [exact Hanswered |]. split; [exact Hlast |].
    split; [exact (proj2 (Answered_Polling P _ _ _ _ _ _ Hanswered)) |].
    apply Hwaiting. exact (poll_not_done P _ _ _ _ _ _ Hanswered Hlast w2 eq_refl).
Qed.

(** A job whose third poll is answered with done: the three polls are
    made, and the record carries the object URL of the downloaded
    clip. A job that is never done: the run is still waiting after
    fifty polls. *)
Lemma video_polling_witness :
  (exists uuid w5,
      generateAdCreatives (Double.platform (Sample.videoJob (Some 6))) 3 0
        (Sample.withoutImage VIDEO)
      = (Returned [ {| id := uuid; url := js "blob:8"; type := VIDEO;
                       copy := Some Sample.copyA; variation := js "Video Creative" |} ], w5))
  /\ (exists w3,
        generateAdCreatives (Double.platform (Sample.videoJob None)) 50 0
          (Sample.withoutImage VIDEO)
        = (Pending, w3)).
Proof.
  pose (u := withProductDescription (js "Reusable coffee cup") (Sample.request None VIDEO)).
  pose (productInfo := Some (js "Reusable coffee cup")).
  pose (copies := JArray [Sample.copyA; Sample.copyB; Sample.copyC]).
  split.
  - pose (P := Double.platform (Sample.videoJob (Some 6))).
    pose (w1 := snd (resolveCopy P 0 (Sample.withoutImage VIDEO))).
    destruct (video_polling P 0 (Sample.withoutImage VIDEO)
                (Sample.request None VIDEO) None 1 productInfo copies w1 u Sample.running 4
                eq_refl eq_refl eq_refl ltac:(vm_compute; reflexivity)
                ltac:(vm_compute; reflexivity) eq_refl)
      as (Hpolls & _ & _).
    assert (Hanswered :
              Answered P 3 Sample.running 4 Sample.finished 7
                [SetTimeout 10000; GetVideosOperation Sample.running;
                 SetTimeout 10000; GetVideosOperation Sample.running;
                 SetTimeout 10000; GetVideosOperation Sample.running]).
    { apply (Answered_poll P 2 Sample.running 4 Sample.running 5);
        [discriminate | reflexivity |].
      apply (Answered_poll P 1 Sample.running 5 Sample.running 6);
        [discriminate | reflexivity |].
      apply (Answered_poll P 0 Sample.running 6 Sample.finished 7);
        [discriminate | reflexivity |].
      apply Answered_none. }
    destruct (Hpolls 3 Sample.finished 7 _ Hanswered) as (_ & _ & _ & Hdone).
    destruct (Hdone eq_refl 3 (le_n 3)) as (_ & Hrecord).
    assert (Hlink : downloadLinkOf Sample.finished
                    = Some (js "https://videos.example/cup?alt=media")) by reflexivity.
    assert (Hne : js "https://videos.example/cup?alt=media" <> []) by discriminate.
    assert (Hfetch :
              window_fetch P
                (js "https://videos.example/cup?alt=media" ++ js "&key="
                 ++ interpolate (API_KEY P)) 7
              = (Resolved {| ok := true; statusText := js "OK"; blob := Resolved Sample.clip |},
                 8)) by (vm_compute; reflexivity).
    pose proof (Hrecord _ _ _ _ Hlink Hne Hfetch eq_refl eq_refl) as Hreturned.
    destruct Hreturned as (uuid & w5 & Hrun & _).
    exists uuid, w5. exact Hrun.
  - pose (P := Double.platform (Sample.videoJob None)).
    pose (w1 := snd (resolveCopy P 0 (Sample.withoutImage VIDEO))).
    destruct (video_polling P 0 (Sample.withoutImage VIDEO)
                (Sample.request None VIDEO) None 1 productInfo copies w1 u Sample.running 4
                eq_refl eq_refl eq_refl ltac:(vm_compute; reflexivity)
                ltac:(vm_compute; reflexivity) eq_refl)
      as (_ & _ & Hnever).
    assert (Hrunning : forall operation x, exists operation' x',
               operations_getVideosOperation P operation x = (Resolved operation', x')
               /\ GenAI.done operation' <> Some true).
    { intros operation x. exists Sample.running, (S x).
      split; [reflexivity | discriminate]. }
    assert (Hd : GenAI.done Sample.running <> Some true) by discriminate.
    pose proof (Hnever Hrunning Hd 50) as Hwaiting.
    destruct Hwaiting as (last & xn & evs & _ & _ & _ & Hrun).
    eexists. exact Hrun.
Defined.

(** ** The default description *)

Section DefaultDescription.
Context {Ext : Type} (P : Platform Ext).

Lemma startsWith_grows ev (w w1 w2 : World Ext) :
  startsWith ev w w1 -> grows w1 w2 -> startsWith ev w w2.
Proof.
  intros [r1 H1] [r2 H2]. exists (r1 ++ r2).
  rewrite H2, H1. rewrite <- app_assoc. reflexivity.
Qed.


Lemma update_run l f (w : World Ext) u :
  heap w !! l = Some (InputsObj u) ->
  update l f w
  = (Returned tt, Build_World (<[l := InputsObj (f u)]> (heap w)) (ext w) (trace w)).
Proof. intros H. unfold update. now rewrite H. Qed.


End DefaultDescription.

Section Submit.
Context {Ext : Type} (P : Platform Ext).

Lemma startsWith_bind {A B} ev (m : M Ext A) (k : A -> M Ext B) (w : World Ext) :
  startsWith ev w (snd (m w)) ->
  (forall a, keeps grows (k a)) ->
  startsWith ev w (snd (bind m k w)).
Proof.
  intros Hm Hk. unfold bind. destruct (m w) as [[a | e |] w1]; simpl in *; try assumption.
  eapply startsWith_grows; [exact Hm | apply Hk].
Qed.

Lemma startsWith_tryCatch {A} ev (m : M Ext A) handler (w : World Ext) :
  startsWith ev w (snd (m w)) ->
  (forall e, keeps grows (handler e)) ->
  startsWith ev w (snd (tryCatch m handler w)).
Proof.
  intros Hm Hh. unfold tryCatch. destruct (m w) as [[a | e |] w1]; simpl in *; try assumption.
  eapply startsWith_grows; [exact Hm | apply Hh].
Qed.

(** The first event of steps 1 to 4 is the first event of the run. *)
Lemma handleGenerate_first_call ev fuel inputs (w : World Ext) :
  startsWith ev w (snd (resolveCopy P inputs w)) ->
  startsWith ev w (snd (App.handleGenerate P fuel inputs w)).
Proof.
  intros H. unfold App.handleGenerate.
  apply startsWith_tryCatch; [apply startsWith_bind |].
  - unfold generateAdCreatives. apply startsWith_bind; [exact H |].
    intros [[ci productInfo] finalAdCopy]. unfold videoCreative, randomUUID.
    repeat first
      [ eapply keeps_generateVideos; stable
      | eapply keeps_generateImages; stable
      | eapply keeps_combine; stable
      | keeps_step ].
  - intros results. keeps_step.
  - intros e. repeat keeps_step.
Qed.

End Submit.




Example empty_correction_run :
  (fun r => match r with
            | Returned (App.Results creatives) => length creatives
            | _ => 0
            end)
    (fst (App.submit (Double.platform Sample.silentCorrector) 0 Sample.blank Sample.empty))
  = 3
  /\ nth_error (trace (snd (App.submit (Double.platform Sample.silentCorrector) 0
                             Sample.blank Sample.empty))) 1
     = Some (GenerateContent
               (jsonRequest (Double.platform Sample.silentCorrector)
                  (Prompts.adCopy (Some [])) adCopySchema)).
Proof. split; vm_compute; reflexivity. Qed.

(** * Further properties of the code *)

(** ** What the asset generators return *)

Section Assets.
Context {Ext : Type} (P : Platform Ext).

Lemma readInputs_Returned_inv l (w : World Ext) u w' :
  readInputs l w = (Returned u, w') -> heap w !! l = Some (InputsObj u) /\ w' = w.
Proof.
  unfold readInputs. destruct (heap w !! l) as [[u' | i] |]; intros H; inversion H; auto.
Qed.

(** A map that returned has one result for every element, in order,
    each one returned by the callback at the index of the element. *)
Lemma mapM_Returned_inv {A B} (callback : A -> nat -> M Ext B) :
  forall l i w ys w',
    mapM callback l i w = (Returned ys, w') ->
    Forall2 (fun x y => exists j w0 w1, callback x j w0 = (Returned y, w1)) l ys.
Proof.
  induction l as [| x l IH]; intros i w ys w' H; simpl in H.
  - inversion H. constructor.
  - apply bind_Returned_inv in H as (y & w1 & Hy & H).
    apply bind_Returned_inv in H as (ys' & w2 & Hys & H).
    inversion H; subst. constructor; [now exists i, w, w1 | eapply IH; exact Hys].
Qed.

Lemma Forall2_Forall_right {A B} (R : A -> B -> Prop) (Q : B -> Prop) (l : list A) ys :
  Forall2 R l ys -> (forall x y, In x l -> R x y -> Q y) -> Forall Q ys.
Proof.
  induction 1 as [| x y l ys Hxy Hrest IH]; intros HQ; constructor.
  - apply (HQ x); [now left | exact Hxy].
  - apply IH. intros x' y' Hin. apply HQ. now right.
Qed.

Lemma omap_shorter {A B} (f : A -> option B) (l : list A) :
  length (omap f l) <= length l.
Proof.
  induction l as [| x l IH]; simpl; [lia |]. unfold omap in IH. destruct (f x); simpl; lia.
Qed.

Lemma omap_Forall {A B} (f : A -> option B) (Q : B -> Prop) (l : list A) :
  (forall x y, f x = Some y -> Q y) -> Forall Q (omap f l).
Proof.
  intros Hf. induction l as [| x l IH]; simpl; [constructor |].
  destruct (f x) as [y |] eqn:E; [constructor; [eapply Hf; exact E | exact IH] | exact IH].
Qed.

Lemma editedImage_isDataUrl response url :
  editedImage response = Some url -> isDataUrl url.
Proof.
  unfold editedImage. destruct (findImagePart response) as [part |]; [| discriminate].
  destruct (GenAI.inlineData part) as [inline |]; [| discriminate].
  destruct (truthy (GenAI.data inline)); [| discriminate].
  intros H. inversion H. eexists. reflexivity.
Qed.

Lemma generatedImage_isDataUrl res index (w : World Ext) url w' :
  generatedImage res index w = (Returned url, w') -> isDataUrl url.
Proof.
  unfold generatedImage.
  destruct (GenAI.generatedImages res) as [[| generated rest] |]; try discriminate.
  destruct (GenAI.image generated) as [image |]; [| discriminate].
  intros H. inversion H. eexists. reflexivity.
Qed.

(** The image generator, when it returns. *)
Lemma generateImages_Returned_inv inputs productInfo (w : World Ext) urls w' :
  generateImages P inputs productInfo w = (Returned urls, w') ->
  exists u,
    heap w !! inputs = Some (InputsObj u)
    /\ 1 <= length urls <= 3
    /\ (productImage u = None -> length urls = 3)
    /\ Forall isDataUrl urls.
Proof.
  intros H. unfold generateImages in H.
  apply bind_Returned_inv in H as (u & w0 & Hu & H).
  apply readInputs_Returned_inv in Hu as [Hu ->].
  exists u. split; [exact Hu |].
  destruct (productImage u) as [imageRef |].
  - apply bind_Returned_inv in H as (image & w1 & _ & H).
    apply bind_Returned_inv in H as (responses & w2 & Hall & H).
    apply bind_Returned_inv in H as (successful & w3 & Hred & H).
    destruct (reduceM_collectImage responses [] w2) as (w3' & Hred').
    rewrite Hred' in Hred. inversion Hred; subst successful w3'; clear Hred.
    simpl app in H.
    apply Promise_all_length in Hall.
    unfold imageEditPromises, imageEditPrompts in Hall.
    rewrite !length_map in Hall. simpl in Hall.
    pose proof (omap_shorter editedImage responses) as Hshort.
    destruct (length (omap editedImage responses) =? 0) eqn:E; [discriminate |].
    apply Nat.eqb_neq in E. inversion H; subst urls w3.
    split; [lia |]. split; [discriminate |].
    apply omap_Forall. exact editedImage_isDataUrl.
  - apply bind_Returned_inv in H as (responses & w2 & Hall & H).
    apply Promise_all_length in Hall.
    unfold imagePromises, imagePrompts in Hall.
    rewrite !length_map in Hall. simpl in Hall.
    apply mapM_Returned_inv in H.
    pose proof (Forall2_length _ _ _ H) as Hlen. rewrite Hall in Hlen.
    split; [lia |]. split; [intros _; now symmetry |].
    eapply Forall2_Forall_right; [exact H |].
    intros res url0 _ (j & wa & wb & Hres). eapply generatedImage_isDataUrl. exact Hres.
Qed.

(** What the download step does with a finished operation. *)
Lemma download_Returned_inv operation (w : World Ext) urls w' :
  download P operation w = (Returned urls, w') -> exists videoUrl, urls = [videoUrl].
Proof.
  unfold download. destruct (negb (truthy (downloadLinkOf operation))).
  - intros H. apply bind_Returned_inv in H as (? & ? & _ & H). discriminate.
  - intros H. apply bind_Returned_inv in H as (videoResponse & w1 & _ & H).
    destruct (negb (ok videoResponse)); [discriminate |].
    apply bind_Returned_inv in H as (videoBlob & w2 & _ & H).
    apply bind_Returned_inv in H as (videoUrl & w3 & _ & H).
    inversion H. now exists videoUrl.
Qed.

(** The video generator, when it returns. *)
Lemma generateVideos_Returned_inv fuel inputs productInfo (w : World Ext) urls w' :
  generateVideos P fuel inputs productInfo w = (Returned urls, w') ->
  exists videoUrl, urls = [videoUrl].
Proof.
  intros H. unfold generateVideos in H.
  apply bind_Returned_inv in H as (u & w0 & _ & H).
  apply bind_Returned_inv in H as (image & w1 & _ & H).
  apply bind_Returned_inv in H as (operation & w2 & _ & H).
  apply bind_Returned_inv in H as (operation' & w3 & _ & H).
  eapply download_Returned_inv. exact H.
Qed.

End Assets.

(** X1. The image generator never returns an empty list: when it
    returns, it returns between one and three URLs, exactly three when
    the inputs have no product image, and every one of them is a data
    URL. *)
Theorem generateImages_returns_one_to_three {Ext} (P : Platform Ext)
    (inputs : loc) (productInfo : option jsstring) (w : World Ext) urls w' :
  generateImages P inputs productInfo w = (Returned urls, w') ->
  exists u,
    heap w !! inputs = Some (InputsObj u)
    /\ 1 <= length urls <= 3
    /\ (productImage u = None -> length urls = 3)
    /\ Forall isDataUrl urls.
Proof. apply generateImages_Returned_inv. Qed.

Lemma generateImages_returns_one_to_three_witness :
  exists u,
    heap (Sample.withoutImage IMAGE) !! 0 = Some (InputsObj u)
    /\ 1 <= length (replicate 3 (js "data:image/jpeg;base64,SU1H")) <= 3
    /\ (productImage u = None -> length (replicate 3 (js "data:image/jpeg;base64,SU1H")) = 3)
    /\ Forall isDataUrl (replicate 3 (js "data:image/jpeg;base64,SU1H")).
Proof.
  apply (generateImages_returns_one_to_three (Double.platform Sample.silentCorrector)
           0 None (Sample.withoutImage IMAGE) _
           (snd (generateImages (Double.platform Sample.silentCorrector) 0 None
                   (Sample.withoutImage IMAGE)))).
  vm_compute. reflexivity.
Defined.

(** X2. The video generator returns exactly one URL whenever it
    returns, whatever the number of polls, so the caller's branch for
    an empty list is never taken: the record of the video is made,
    with the first ad copy and the label [Video Creative]. *)
Theorem generateVideos_returns_one_url {Ext} (P : Platform Ext) (fuel : nat)
    (inputs : loc) (productInfo : option jsstring) (w : World Ext) urls w' :
  generateVideos P fuel inputs productInfo w = (Returned urls, w') ->
  exists videoUrl,
    urls = [videoUrl]
    /\ forall finalAdCopy w0,
         exists uuid w1,
           videoCreative P finalAdCopy urls w0
           = (Returned [ {| id := uuid;
                            url := videoUrl;
                            type := VIDEO;
                            copy := first P finalAdCopy;
                            variation := js "Video Creative" |} ], w1).
Proof.
  intros H. apply generateVideos_Returned_inv in H as [videoUrl ->].
  exists videoUrl. split; [reflexivity |]. intros finalAdCopy w0.
  unfold videoCreative, bind, randomUUID, callSync.
  destruct (crypto_randomUUID P (ext w0)) as [uuid x].
  eexists _, _. reflexivity.
Qed.

Lemma generateVideos_returns_one_url_witness :
  exists videoUrl,
    [js "blob:4"] = [videoUrl]
    /\ forall finalAdCopy w0,
         exists uuid w1,
           videoCreative (Double.platform (Sample.videoJob (Some 2))) finalAdCopy
             [js "blob:4"] w0
           = (Returned [ {| id := uuid;
                            url := videoUrl;
                            type := VIDEO;
                            copy := first (Double.platform (Sample.videoJob (Some 2)))
                                      finalAdCopy;
                            variation := js "Video Creative" |} ], w1).
Proof.
  apply (generateVideos_returns_one_url (Double.platform (Sample.videoJob (Some 2))) 5
           0 None (Sample.withoutImage VIDEO) _
           (snd (generateVideos (Double.platform (Sample.videoJob (Some 2))) 5 0 None
                   (Sample.withoutImage VIDEO)))).
  vm_compute. reflexivity.
Defined.

(** ** The shape of the result *)

Section Shape.
Context {Ext : Type} (P : Platform Ext).

Lemma imageCreative_Returned_inv finalAdCopy url0 index (w : World Ext) creative w' :
  imageCreative P finalAdCopy url0 index w = (Returned creative, w') ->
  url creative = url0
  /\ type creative = IMAGE
  /\ variation creative = variationLabel index
  /\ exists w1, atIndexModLength P finalAdCopy index w1 = (Returned (copy creative), w').
Proof.
  intros H. unfold imageCreative in H.
  apply bind_Returned_inv in H as (uuid & w1 & _ & H).
  apply bind_Returned_inv in H as (adCopy & w2 & Hcopy & H).
  inversion H; subst. simpl. repeat split. now exists w1.
Qed.

(** The run, when it returns, went through steps 1 to 4 and through
    one of the two generators. *)
Lemma generateAdCreatives_Returned_inv fuel inputs (w : World Ext) creatives w' :
  generateAdCreatives P fuel inputs w = (Returned creatives, w') ->
  exists ci productInfo finalAdCopy w1 u0,
    resolveCopy P inputs w = (Returned (ci, productInfo, finalAdCopy), w1)
    /\ heap w !! inputs = Some (InputsObj u0)
    /\ ((creativeType u0 = VIDEO
         /\ exists urls w2,
             generateVideos P fuel ci productInfo w1 = (Returned urls, w2)
             /\ videoCreative P finalAdCopy urls w2 = (Returned creatives, w'))
        \/ (creativeType u0 = IMAGE
            /\ exists urls w2,
                generateImages P ci productInfo w1 = (Returned urls, w2)
                /\ combine P urls finalAdCopy w2 = (Returned creatives, w'))).
Proof.
  intros H. unfold generateAdCreatives in H.
  apply bind_Returned_inv in H as ([[ci productInfo] finalAdCopy] & w1 & Hr & H).
  apply bind_Returned_inv in H as (u & w1' & Hu & H).
  apply readInputs_Returned_inv in Hu as [Hu ->].
  destruct (resolveCopy_spec P _ _ _ _ _ _ Hr) as (u0 & _ & Hu0 & _ & Hframe & _).
  assert (u = u0) as ->.
  { rewrite Hframe in Hu by (eapply elem_of_dom_2; exact Hu0). congruence. }
  exists ci, productInfo, finalAdCopy, w1, u0. split; [exact Hr |]. split; [exact Hu0 |].
  destruct (decide (creativeType u0 = VIDEO)) as [Hv | Hv].
  - left. split; [exact Hv |].
    apply bind_Returned_inv in H as (urls & w2 & Hg & H). now exists urls, w2.
  - right. split; [destruct (creativeType u0); [reflexivity | now elim Hv] |].
    apply bind_Returned_inv in H as (urls & w2 & Hg & H). now exists urls, w2.
Qed.

(** Steps 1 to 4 do not return an empty array. *)
Lemma resolveCopy_nonempty inputs (w : World Ext) ci productInfo items w1 :
  resolveCopy P inputs w = (Returned (ci, productInfo, JArray items), w1) -> items <> [].
Proof.
  intros H. unfold resolveCopy in H. invert_binds H.
  match goal with
  | Hl : lengthIsZero P ?v _ = (Returned ?empty, _) |- _ =>
      destruct empty; [discriminate |]; inversion H; subst v; simpl in Hl; inversion Hl
  end.
  intros ->. discriminate.
Qed.

End Shape.

(** X3. The run never returns an empty list, and never more than three
    creatives: when it returns, every creative has the type the inputs
    ask for; a video run returns one creative, an image run between one
    and three, whose URLs are data URLs. *)
Theorem generateAdCreatives_result_shape {Ext} (P : Platform Ext) (fuel : nat)
    (inputs : loc) (w : World Ext) creatives w' :
  generateAdCreatives P fuel inputs w = (Returned creatives, w') ->
  exists u0,
    heap w !! inputs = Some (InputsObj u0)
    /\ 1 <= length creatives <= 3
    /\ Forall (fun creative => type creative = creativeType u0) creatives
    /\ (creativeType u0 = VIDEO -> length creatives = 1)
    /\ (creativeType u0 = IMAGE -> Forall (fun creative => isDataUrl (url creative)) creatives).
Proof.
  intros H.
  apply generateAdCreatives_Returned_inv in H
    as (ci & productInfo & finalAdCopy & w1 & u0 & _ & Hu0
        & [(Hv & urls & w2 & Hg & H) | (Hi & urls & w2 & Hg & H)]).
  - exists u0. split; [exact Hu0 |].
    apply generateVideos_Returned_inv in Hg as [videoUrl ->].
    unfold videoCreative in H. apply bind_Returned_inv in H as (uuid & w3 & _ & H).
    inversion H; subst. simpl. rewrite Hv.
    split; [lia |]. split; [now repeat constructor |]. split; [reflexivity | discriminate].
  - exists u0. split; [exact Hu0 |].
    apply generateImages_Returned_inv in Hg as (u & _ & Hlen & _ & Hdata).
    unfold combine in H. destruct (length urls =? 0); [discriminate |].
    rewrite Hi.
    apply mapM_Returned_inv in H.
    pose proof (Forall2_length _ _ _ H) as Hcount.
    assert (Hcreatives :
              Forall (fun creative => type creative = IMAGE /\ In (url creative) urls)
                creatives).
    { eapply Forall2_Forall_right; [exact H |].
      intros url0 creative Hin (j & wa & wb & Hc).
      apply imageCreative_Returned_inv in Hc as (Hurl & Htype & _).
      rewrite Hurl. now split. }
    split; [lia |]. split; [| split; [discriminate |]].
    + eapply Forall_impl; [exact Hcreatives |]. now intros creative [Ht _].
    + intros _. eapply Forall_impl; [exact Hcreatives |].
      intros creative [_ Hin]. rewrite Forall_forall in Hdata. apply Hdata.
      now apply list_elem_of_In.
Qed.

Lemma generateAdCreatives_result_shape_witness :
  exists u0,
    heap (Sample.withoutImage VIDEO) !! 0 = Some (InputsObj u0)
    /\ 1 <= 1 <= 3
    /\ Forall (fun creative => type creative = creativeType u0)
         (match fst (generateAdCreatives (Double.platform (Sample.videoJob (Some 5))) 5 0
                       (Sample.withoutImage VIDEO)) with
          | Returned creatives => creatives
          | _ => []
          end)
    /\ (creativeType u0 = VIDEO -> 1 = 1)
    /\ (creativeType u0 = IMAGE ->
        Forall (fun creative => isDataUrl (url creative))
          (match fst (generateAdCreatives (Double.platform (Sample.videoJob (Some 5))) 5 0
                        (Sample.withoutImage VIDEO)) with
           | Returned creatives => creatives
           | _ => []
           end)).
Proof.
  apply (generateAdCreatives_result_shape (Double.platform (Sample.videoJob (Some 5))) 5 0
           (Sample.withoutImage VIDEO)
           (match fst (generateAdCreatives (Double.platform (Sample.videoJob (Some 5))) 5 0
                         (Sample.withoutImage VIDEO)) with
            | Returned creatives => creatives
            | _ => []
            end)
           (snd (generateAdCreatives (Double.platform (Sample.videoJob (Some 5))) 5 0
                   (Sample.withoutImage VIDEO)))).
  vm_compute. reflexivity.
Defined.

(** X4. Every creative of a returned run carries one of the entries
    of the final ad copy, when that is an array: the copy of a creative
    is never missing. The creative of a video carries the first
    entry. *)
Theorem creative_copy_is_an_entry {Ext} (P : Platform Ext) (fuel : nat) (inputs : loc)
    (w : World Ext) ci productInfo items w1 creatives w' :
  resolveCopy P inputs w = (Returned (ci, productInfo, JArray items), w1) ->
  generateAdCreatives P fuel inputs w = (Returned creatives, w') ->
  Forall (fun creative => exists item, copy creative = Some item /\ In item items) creatives
  /\ Forall (fun creative => type creative = VIDEO -> copy creative = items !! 0) creatives.
Proof.
  intros Hr H.
  pose proof (resolveCopy_nonempty P _ _ _ _ _ _ Hr) as Hitems.
  apply generateAdCreatives_Returned_inv in H
    as (ci' & productInfo' & finalAdCopy & w1' & u0 & Hr' & _
        & [(_ & urls & w2 & Hg & H) | (_ & urls & w2 & _ & H)]);
    rewrite Hr in Hr'; inversion Hr'; subst ci' productInfo' finalAdCopy w1'; clear Hr'.
  - apply generateVideos_Returned_inv in Hg as [videoUrl ->].
    unfold videoCreative in H. apply bind_Returned_inv in H as (uuid & w3 & _ & H).
    inversion H; subst. simpl.
    destruct items as [| item items]; [now elim Hitems |].
    split; repeat constructor. exists item. split; [reflexivity | now left].
  - unfold combine in H. destruct (length urls =? 0); [discriminate |].
    apply mapM_Returned_inv in H.
    assert (Hall : Forall (fun creative =>
                             type creative = IMAGE
                             /\ exists item, copy creative = Some item /\ In item items)
                     creatives).
    { eapply Forall2_Forall_right; [exact H |].
      intros url0 creative _ (j & wa & wb & Hc).
      apply imageCreative_Returned_inv in Hc as (_ & Htype & _ & wc & Hcopy).
      split; [exact Htype |].
      simpl in Hcopy. inversion Hcopy as [[Hlookup Hw]].
      assert (Hlt : j mod length items < length items).
      { apply Nat.mod_upper_bound. destruct items; [now elim Hitems | discriminate]. }
      destruct (lookup_lt_is_Some_2 _ _ Hlt) as [item Hitem].
      exists item. split; [exact Hitem |].
      apply list_elem_of_In. eapply list_elem_of_lookup_2. exact Hitem. }
    split; (eapply Forall_impl; [exact Hall |]).
    + now intros creative [_ Hc].
    + intros creative [Ht _] Hv. congruence.
Qed.

Lemma creative_copy_is_an_entry_witness :
  Forall (fun creative =>
            exists item, copy creative = Some item
                         /\ In item [Sample.copyA; Sample.copyB; Sample.copyC])
    Demo.threeCreatives.
Proof.
  refine (proj1 (creative_copy_is_an_entry (Double.platform Sample.silentCorrector) 0 0
                   (Sample.withoutImage IMAGE) 1 (Some []) _
                   (snd (resolveCopy (Double.platform Sample.silentCorrector) 0
                           (Sample.withoutImage IMAGE)))
                   _
                   (snd (generateAdCreatives (Double.platform Sample.silentCorrector) 0 0
                           (Sample.withoutImage IMAGE))) _ _));
    vm_compute; reflexivity.
Defined.

(** ** The download of the video *)

(** X5. How the download of a finished video fails. Without a link in
    the operation, or with an empty one, the failure is logged and the
    step throws without any request. With a link, the request goes to
    the link followed by [&key=] and the API key; a response that is
    not [ok] makes the step throw with the status text in the message,
    and a body that cannot be read makes it throw what the read threw;
    in neither case is an object URL made. *)
Theorem download_failures {Ext} (P : Platform Ext)
    (operation : GenAI.GenerateVideosOperation) (w : World Ext) :
  let link := downloadLinkOf operation in
  let address := interpolate link ++ js "&key=" ++ interpolate (API_KEY P) in
  (truthy link = false ->
   download P operation w
   = (Threw (Error (js "Video generation failed. The model did not return a video. Please try a different prompt or image.")),
      afterEvent (ConsoleError (js "Video generation operation completed but returned no video URI.")) w))
  /\ (truthy link = true ->
      forall videoResponse x,
        window_fetch P address (ext w) = (Resolved videoResponse, x) ->
        (ok videoResponse = false ->
         download P operation w
         = (Threw (Error (js "Failed to download the generated video: "
                          ++ statusText videoResponse)),
            afterCall (Fetch address) x w))
        /\ (forall e,
              ok videoResponse = true ->
              blob videoResponse = Rejected e ->
              download P operation w = (Threw e, afterCall (Fetch address) x w)))
  /\ (truthy link = true ->
      forall e x,
        window_fetch P address (ext w) = (Rejected e, x) ->
        download P operation w = (Threw e, afterCall (Fetch address) x w)).
Proof.
  cbv zeta. unfold download, fetch. split; [| split].
  - intros ->. reflexivity.
  - intros -> videoResponse x Hfetch. cbn [negb].
    rewrite (bind_Returned _ _ _ _ _ (call_Resolved _ _ _ _ _ Hfetch)).
    split.
    + intros ->. reflexivity.
    + intros e -> Hblob. cbn [negb]. rewrite Hblob. reflexivity.
  - intros -> e x Hfetch. cbn [negb].
    apply bind_Threw. apply call_Rejected. exact Hfetch.
Qed.

(** ** Steps 1 to 4 and the text model *)

Section Settles.
Context {Ext : Type} (allowed : Event -> Prop).

Lemma settlesWith_ret {A} (a : A) : settlesWith (Ext := Ext) allowed (ret a).
Proof. intros w. split; [discriminate |]. exists []. simpl. now rewrite app_nil_r. Qed.

Lemma settlesWith_throw {A} e : settlesWith (Ext := Ext) (A := A) allowed (throw e).
Proof. intros w. split; [discriminate |]. exists []. simpl. now rewrite app_nil_r. Qed.

Lemma settlesWith_settle {A} (r : Result A) : settlesWith (Ext := Ext) allowed (settle r).
Proof. destruct r; [apply settlesWith_ret | apply settlesWith_throw]. Qed.

Lemma settlesWith_bind {A B} (m : M Ext A) (k : A -> M Ext B) :
  settlesWith allowed m -> (forall a, settlesWith allowed (k a)) ->
  settlesWith allowed (bind m k).
Proof.
  intros Hm Hk w. unfold bind. destruct (Hm w) as (Hp & evs & Hevs & Hall).
  destruct (m w) as [[a | e |] w1]; simpl in *.
  - destruct (Hk a w1) as (Hp' & evs' & Hevs' & Hall'). split; [exact Hp' |].
    exists (evs ++ evs'). rewrite Hevs', Hevs, <- app_assoc. split; [reflexivity |].
    apply Forall_app. now split.
  - split; [discriminate |]. now exists evs.
  - now elim Hp.
Qed.

Lemma settlesWith_tryCatch {A} (m : M Ext A) handler :
  settlesWith allowed m -> (forall e, settlesWith allowed (handler e)) ->
  settlesWith allowed (tryCatch m handler).
Proof.
  intros Hm Hh w. unfold tryCatch. destruct (Hm w) as (Hp & evs & Hevs & Hall).
  destruct (m w) as [[a | e |] w1]; simpl in *.
  - split; [discriminate |]. now exists evs.
  - destruct (Hh e w1) as (Hp' & evs' & Hevs' & Hall'). split; [exact Hp' |].
    exists (evs ++ evs'). rewrite Hevs', Hevs, <- app_assoc. split; [reflexivity |].
    apply Forall_app. now split.
  - now elim Hp.
Qed.

Lemma settlesWith_emit ev : allowed ev -> settlesWith (Ext := Ext) allowed (emit ev).
Proof.
  intros Hev w. split; [discriminate |]. exists [ev]. split; [reflexivity |].
  now repeat constructor.
Qed.

Lemma settlesWith_call {A} ev (f : Ext -> Result A * Ext) :
  allowed ev -> settlesWith allowed (call ev f).
Proof.
  intros Hev w. unfold call. destruct (f (ext w)) as [[a | e] x]; simpl;
    (split; [discriminate |]); exists [ev]; (split; [reflexivity |]);
    now repeat constructor.
Qed.

Lemma settlesWith_readInputs l : settlesWith (Ext := Ext) allowed (readInputs l).
Proof.
  intros w. unfold readInputs. destruct (heap w !! l) as [[u | i] |]; simpl;
    (split; [discriminate |]); exists []; now rewrite app_nil_r.
Qed.

Lemma settlesWith_update l f : settlesWith (Ext := Ext) allowed (update l f).
Proof.
  intros w. unfold update. destruct (heap w !! l) as [[u | i] |]; simpl;
    (split; [discriminate |]); exists []; now rewrite app_nil_r.
Qed.

Lemma settlesWith_alloc o : settlesWith (Ext := Ext) allowed (alloc o).
Proof. intros w. split; [discriminate |]. exists []. simpl. now rewrite app_nil_r. Qed.

End Settles.

(** Goals [settlesWith allowed m], by the shape of [m]. *)
Ltac settles_step :=
  match goal with
  | |- settlesWith _ (bind _ _) => apply settlesWith_bind; [| intros]
  | |- settlesWith _ (tryCatch _ _) => apply settlesWith_tryCatch; [| intros]
  | |- settlesWith _ (ret _) => apply settlesWith_ret
  | |- settlesWith _ (throw _) => apply settlesWith_throw
  | |- settlesWith _ (settle _) => apply settlesWith_settle
  | |- settlesWith _ (emit _) => apply settlesWith_emit; exact I
  | |- settlesWith _ (call _ _) => apply settlesWith_call; reflexivity
  | |- settlesWith _ (readInputs _) => apply settlesWith_readInputs
  | |- settlesWith _ (update _ _) => apply settlesWith_update
  | |- settlesWith _ (alloc _) => apply settlesWith_alloc
  | |- settlesWith _ (if ?b then _ else _) => destruct b
  | |- settlesWith _ (match ?x with _ => _ end) => destruct x
  end.

Section TextStage.
Context {Ext : Type} (P : Platform Ext).

Lemma settlesWith_resolveCopy inputs : settlesWith (textOnly P) (resolveCopy P inputs).
Proof.
  unfold resolveCopy, spread, proofreadText, getProductInfo, generateAdCopy,
    proofreadAdCopy, lengthIsZero, parse, ai_models_generateContent,
    console_warn, console_error.
  repeat settles_step.
Qed.

Lemma generateAdCopy_Returned_inv productInfo (w : World Ext) v w' :
  generateAdCopy P productInfo w = (Returned v, w') ->
  exists response x,
    models_generateContent P (jsonRequest P (Prompts.adCopy productInfo) adCopySchema) (ext w)
    = (Resolved response, x)
    /\ JSON_parse P (interpolate (GenAI.text response)) = Some v.
Proof.
  intros H. unfold generateAdCopy in H.
  apply bind_Returned_inv in H as (response & w1 & Hc & H).
  unfold ai_models_generateContent, call in Hc.
  destruct (models_generateContent P _ (ext w)) as [[response' | e] x] eqn:Hm;
    inversion Hc; subst response' w1; clear Hc.
  exists response, x. split; [reflexivity |].
  unfold tryCatch, parse in H.
  destruct (JSON_parse P (interpolate (GenAI.text response))) as [v0 |].
  - inversion H. reflexivity.
  - discriminate.
Qed.

End TextStage.

(** X6. Steps 1 to 4 talk to the text model only. Whatever the inputs
    and whatever the service answers, they return or throw without
    waiting, and all they add to the trace is requests to the text
    model and lines on the console: no image or video request, no
    download, no timer and no identifier is made before the copy is
    final. *)
Theorem copy_stage_uses_the_text_model_only {Ext} (P : Platform Ext) (inputs : loc)
    (w : World Ext) :
  fst (resolveCopy P inputs w) <> Pending
  /\ exists evs,
      trace (snd (resolveCopy P inputs w)) = trace w ++ evs
      /\ Forall (textOnly P) evs.
Proof. apply settlesWith_resolveCopy. Qed.

(** ** An image run does not wait *)

Section ImageRun.
Context {Ext : Type}.

Lemma settlesWith_weaken {A} (allowed allowed' : Event -> Prop) (m : M Ext A) :
  (forall ev, allowed ev -> allowed' ev) ->
  settlesWith allowed m -> settlesWith allowed' m.
Proof.
  intros Himp Hm w. destruct (Hm w) as (Hp & evs & Hevs & Hall).
  split; [exact Hp |]. exists evs. split; [exact Hevs |].
  eapply Forall_impl; [exact Hall | exact Himp].
Qed.

Lemma settlesWith_callSync {A} allowed ev (f : Ext -> A * Ext) :
  allowed ev -> settlesWith allowed (callSync ev f).
Proof.
  intros Hev w. unfold callSync. destruct (f (ext w)) as [a x]. simpl.
  split; [discriminate |]. exists [ev]. split; [reflexivity |]. now repeat constructor.
Qed.

Lemma settlesWith_Promise_all {A} allowed (promises : list (M Ext A)) :
  Forall (settlesWith allowed) promises -> settlesWith allowed (Promise_all promises).
Proof.
  induction 1 as [| p ps Hp Hps IH]; [apply settlesWith_ret |].
  intros w. cbn [Promise_all].
  destruct (Hp w) as (Hp1 & evs1 & Hevs1 & Hall1).
  destruct (p w) as [r w1]. simpl in Hp1, Hevs1.
  destruct (IH w1) as (Hp2 & evs2 & Hevs2 & Hall2).
  destruct (Promise_all ps w1) as [rs w2]. simpl in Hp2, Hevs2. simpl.
  split.
  - destruct r as [a | e |]; [| discriminate | now elim Hp1].
    destruct rs as [l | e |]; [discriminate | discriminate | now elim Hp2].
  - exists (evs1 ++ evs2). rewrite Hevs2, Hevs1, <- app_assoc. split; [reflexivity |].
    apply Forall_app. now split.
Qed.

Lemma settlesWith_mapM {A B} allowed (callback : A -> nat -> M Ext B) (l : list A) :
  (forall x i, settlesWith allowed (callback x i)) ->
  forall i, settlesWith allowed (mapM callback l i).
Proof.
  intros Hcb. induction l as [| x l IH]; intros i; cbn [mapM].
  - apply settlesWith_ret.
  - apply settlesWith_bind; [apply Hcb | intros y].
    apply settlesWith_bind; [apply IH | intros ys]. apply settlesWith_ret.
Qed.

Lemma settlesWith_reduceM {A B} allowed (callback : B -> A -> M Ext B) (l : list A) :
  (forall acc x, settlesWith allowed (callback acc x)) ->
  forall acc, settlesWith allowed (reduceM callback l acc).
Proof.
  intros Hcb. induction l as [| x l IH]; intros acc; cbn [reduceM].
  - apply settlesWith_ret.
  - apply settlesWith_bind; [apply Hcb | intros acc']. apply IH.
Qed.

Lemma settlesWith_readImage allowed l : settlesWith (Ext := Ext) allowed (readImage l).
Proof.
  intros w. unfold readImage. destruct (heap w !! l) as [[u | i] |]; simpl;
    (split; [discriminate |]); exists []; now rewrite app_nil_r.
Qed.

Context (P : Platform Ext).

Lemma settlesWith_generateImages inputs productInfo :
  settlesWith imageRunEvent (generateImages P inputs productInfo).
Proof.
  unfold generateImages.
  apply settlesWith_bind; [apply settlesWith_readInputs | intros u].
  destruct (productImage u) as [imageRef |].
  - apply settlesWith_bind; [apply settlesWith_readImage | intros image].
    apply settlesWith_bind; [| intros responses].
    + apply settlesWith_Promise_all. unfold imageEditPromises.
      apply Forall_map, Forall_forall. intros prompt _.
      apply settlesWith_call. exact I.
    + apply settlesWith_bind; [| intros successful; repeat settles_step].
      apply settlesWith_reduceM. intros acc response. unfold collectImage, console_warn.
      repeat settles_step.
  - apply settlesWith_bind; [| intros responses].
    + apply settlesWith_Promise_all. unfold imagePromises.
      apply Forall_map, Forall_forall. intros prompt _.
      apply settlesWith_call. exact I.
    + apply settlesWith_mapM. intros res index. unfold generatedImage, console_error.
      repeat settles_step.
Qed.

Lemma settlesWith_combine imageUrls finalAdCopy :
  settlesWith imageRunEvent (combine P imageUrls finalAdCopy).
Proof.
  unfold combine. destruct (length imageUrls =? 0); [apply settlesWith_throw |].
  apply settlesWith_mapM. intros url0 index.
  unfold imageCreative, randomUUID, atIndexModLength.
  apply settlesWith_bind; [apply settlesWith_callSync; exact I | intros uuid].
  repeat settles_step.
Qed.

(** With inputs that ask for images, the run is steps 1 to 4, the
    image generator and the assembler. *)
Lemma generateAdCreatives_image_run fuel inputs (w : World Ext) u0 :
  heap w !! inputs = Some (InputsObj u0) ->
  creativeType u0 = IMAGE ->
  generateAdCreatives P fuel inputs w =
  bind (resolveCopy P inputs)
    (fun '(correctedInputs, productInfo, finalAdCopy) =>
       let! imageUrls := generateImages P correctedInputs productInfo in
       combine P imageUrls finalAdCopy) w.
Proof.
  intros Hu0 Htype. unfold generateAdCreatives.
  destruct (resolveCopy P inputs w) as [[[[ci productInfo] finalAdCopy] | e |] w1] eqn:Hr;
    [| now rewrite !(bind_Threw _ _ _ _ _ Hr) | now rewrite !(bind_Pending _ _ _ _ Hr)].
  rewrite !(bind_Returned _ _ _ _ _ Hr).
  destruct (resolveCopy_spec P _ _ _ _ _ _ Hr) as (u & _ & Hu & _ & Hframe & _).
  assert (Hin : heap w1 !! inputs = Some (InputsObj u0)).
  { rewrite Hframe by (eapply elem_of_dom_2; exact Hu0). exact Hu0. }
  rewrite (bind_Returned _ _ _ _ _ (readInputs_run _ _ _ Hin)). rewrite Htype.
  destruct (decide (IMAGE = VIDEO)); [discriminate | reflexivity].
Qed.

End ImageRun.

(** X13. An image run does not wait. With inputs that ask for images,
    the run returns or throws in every world, and the number of polls
    the observer is ready to wait for makes no difference to it; it
    makes requests for text and for images, identifiers and lines on
    the console, and no video request, no poll, no timer and no
    download. *)
Theorem image_run_settles {Ext} (P : Platform Ext) (fuel : nat) (inputs : loc)
    (w : World Ext) (u0 : UserInputs) :
  heap w !! inputs = Some (InputsObj u0) ->
  creativeType u0 = IMAGE ->
  fst (generateAdCreatives P fuel inputs w) <> Pending
  /\ generateAdCreatives P fuel inputs w = generateAdCreatives P 0 inputs w
  /\ exists evs,
      trace (snd (generateAdCreatives P fuel inputs w)) = trace w ++ evs
      /\ Forall imageRunEvent evs.
Proof.
  intros Hu0 Htype.
  rewrite !(generateAdCreatives_image_run P _ inputs w u0 Hu0 Htype).
  assert (Hs : settlesWith imageRunEvent
                 (bind (resolveCopy P inputs)
                    (fun '(correctedInputs, productInfo, finalAdCopy) =>
                       let! imageUrls := generateImages P correctedInputs productInfo in
                       combine P imageUrls finalAdCopy))).
  { apply settlesWith_bind.
    - eapply settlesWith_weaken; [| apply settlesWith_resolveCopy].
      intros [] H; try exact I; now elim H.
    - intros [[ci productInfo] finalAdCopy].
      apply settlesWith_bind; [apply settlesWith_generateImages | intros urls].
      apply settlesWith_combine. }
  destruct (Hs w) as [Hp Hevs]. split; [exact Hp |]. split; [reflexivity | exact Hevs].
Qed.

Lemma image_run_settles_witness :
  fst (generateAdCreatives (Double.platform Sample.twoOfThree) 7 0
         (Sample.withoutImage IMAGE)) <> Pending
  /\ generateAdCreatives (Double.platform Sample.twoOfThree) 7 0 (Sample.withoutImage IMAGE)
     = generateAdCreatives (Double.platform Sample.twoOfThree) 0 0 (Sample.withoutImage IMAGE).
Proof.
  destruct (image_run_settles (Double.platform Sample.twoOfThree) 7 0
              (Sample.withoutImage IMAGE) (Sample.request None IMAGE) eq_refl eq_refl)
    as (Hp & Hfuel & _).
  split; [exact Hp | exact Hfuel].
Defined.

(** ** The product named by its URL, and a blank description *)

Section ProductInfo.
Context {Ext : Type} (P : Platform Ext).


(** Steps 1 and 2 on inputs with a URL: the run goes to the product
    info request at once. *)
Lemma resolveCopy_url_run inputs (w : World Ext) u0 :
  heap w !! inputs = Some (InputsObj u0) ->
  truthy (productUrl u0) = true ->
  let ci := fresh (dom (heap w)) in
  let w0 := Build_World (<[ci := InputsObj u0]> (heap w)) (ext w) (trace w) in
  resolveCopy P inputs w =
  (let! response :=
     ai_models_generateContent P (textRequest P (Prompts.productInfo (productUrl u0))) in
   let productInfo := GenAI.text response in
   let! c := readInputs ci in
   let! _ :=
     (if truthy (hookText c) then
        let! corrected := proofreadText P (default [] (hookText c)) productInfo in
        update ci (withHookText corrected)
      else ret tt) in
   let! initialAdCopy := generateAdCopy P productInfo in
   let! finalAdCopy := proofreadAdCopy P initialAdCopy productInfo in
   let! empty := lengthIsZero P finalAdCopy in
   if (empty : bool) then throw (Error (js "Failed to generate ad copy."))
   else ret (ci, productInfo, finalAdCopy)) w0.
Proof.
  intros Hu0 Hurl ci w0.
  assert (Hci : heap w0 !! ci = Some (InputsObj u0)) by apply lookup_insert_eq.
  unfold resolveCopy. unfold bind at 1. rewrite spread_run, Hu0. fold ci w0.
  rewrite (bind_Returned _ _ _ _ _ (readInputs_run _ _ _ Hci)).
  rewrite Hurl. cbn [negb andb].
  rewrite (bind_Returned (ret tt) _ w0 tt w0 eq_refl).
  assert (Hinfo : getProductInfo P ci w0 =
                  bind (ai_models_generateContent P
                          (textRequest P (Prompts.productInfo (productUrl u0))))
                       (fun response => ret (GenAI.text response)) w0).
  { unfold getProductInfo. rewrite (bind_Returned _ _ _ _ _ (readInputs_run _ _ _ Hci)).
    now rewrite Hurl. }
  destruct (ai_models_generateContent P
              (textRequest P (Prompts.productInfo (productUrl u0))) w0)
    as [[response | e |] w1] eqn:Hc.
  - rewrite (bind_Returned _ _ _ _ _ Hc) in Hinfo.
    now rewrite (bind_Returned _ _ _ _ _ Hinfo), (bind_Returned _ _ _ _ _ Hc).
  - rewrite (bind_Threw _ _ _ _ _ Hc) in Hinfo.
    now rewrite (bind_Threw _ _ _ _ _ Hinfo), (bind_Threw _ _ _ _ _ Hc).
  - rewrite (bind_Pending _ _ _ _ Hc) in Hinfo.
    now rewrite (bind_Pending _ _ _ _ Hinfo), (bind_Pending _ _ _ _ Hc).
Qed.

(** Steps 1 and 2 on inputs with a blank description and no URL, and
    without hook text: nothing is proofread, and the run goes to the
    copy generator at once, with the description as it is. *)
Lemma resolveCopy_blank_run inputs (w : World Ext) u0 :
  heap w !! inputs = Some (InputsObj u0) ->
  truthy (productUrl u0) = false ->
  trim (productDescription u0) = [] ->
  truthy (hookText u0) = false ->
  exists w2,
    trace w2 = trace w /\ ext w2 = ext w
    /\ resolveCopy P inputs w =
       (let productInfo := Some (productDescription u0) in
        let! initialAdCopy := generateAdCopy P productInfo in
        let! finalAdCopy := proofreadAdCopy P initialAdCopy productInfo in
        let! empty := lengthIsZero P finalAdCopy in
        if (empty : bool) then throw (Error (js "Failed to generate ad copy."))
        else ret (fresh (dom (heap w)), productInfo, finalAdCopy)) w2.
Proof.
  intros Hu0 Hurl Hblank Hhook.
  set (ci := fresh (dom (heap w))).
  set (w0 := Build_World (<[ci := InputsObj u0]> (heap w)) (ext w) (trace w)).
  assert (Hci : heap w0 !! ci = Some (InputsObj u0)) by apply lookup_insert_eq.
  assert (Hinfo : forall w1 u, heap w1 !! ci = Some (InputsObj u) ->
                    productUrl u = productUrl u0 ->
                    getProductInfo P ci w1 = (Returned (Some (productDescription u)), w1)).
  { intros w1 u Hu Hsame. unfold getProductInfo.
    rewrite (bind_Returned _ _ _ _ _ (readInputs_run _ _ _ Hu)).
    now rewrite Hsame, Hurl. }
  unfold resolveCopy. unfold bind at 1. rewrite spread_run, Hu0. fold ci w0.
  rewrite (bind_Returned _ _ _ _ _ (readInputs_run _ _ _ Hci)).
  rewrite Hurl. cbn [negb andb].
  destruct (nonEmpty (productDescription u0)) eqn:Hne.
  - set (w1 := Build_World
                 (<[ci := InputsObj (withProductDescription (productDescription u0) u0)]>
                    (heap w0)) (ext w0) (trace w0)).
    assert (Hci1 : heap w1 !! ci
                   = Some (InputsObj (withProductDescription (productDescription u0) u0)))
      by apply lookup_insert_eq.
    exists w1. split; [reflexivity |]. split; [reflexivity |].
    unfold bind at 1. unfold bind at 1.
    rewrite (proofreadText_skip P _ _ w0 Hblank).
    rewrite (update_run ci _ w0 u0 Hci). fold w1.
    rewrite (bind_Returned _ _ _ _ _ (Hinfo w1 _ Hci1 eq_refl)).
    rewrite (bind_Returned _ _ _ _ _ (readInputs_run _ _ _ Hci1)).
    cbn [hookText withProductDescription productDescription]. rewrite Hhook.
    now rewrite (bind_Returned (ret tt) _ w1 tt w1 eq_refl).
  - exists w0. split; [reflexivity |]. split; [reflexivity |].
    rewrite (bind_Returned (ret tt) _ w0 tt w0 eq_refl).
    rewrite (bind_Returned _ _ _ _ _ (Hinfo w0 _ Hci eq_refl)).
    rewrite (bind_Returned _ _ _ _ _ (readInputs_run _ _ _ Hci)).
    rewrite Hhook.
    now rewrite (bind_Returned (ret tt) _ w0 tt w0 eq_refl).
Qed.

End ProductInfo.



(** X9. A description of white space only is neither replaced nor
    corrected. When the form has such a description, no URL and no
    hook text, the submit handler passes the description as it is (the
    default is for an empty one), no proofreading request is made, and
    the first call of the run is the copy generator's, with the blank
    description as the product info. *)
Theorem blank_description_goes_to_the_copy_generator {Ext} (P : Platform Ext) (fuel : nat)
    (form : CreativeForm.State) (w : World Ext) :
  CreativeForm.productDescription form <> [] ->
  trim (CreativeForm.productDescription form) = [] ->
  CreativeForm.productUrl form = [] ->
  CreativeForm.hookText form = [] ->
  productDescription (CreativeForm.inputsOf form) = CreativeForm.productDescription form
  /\ startsWith
       (GenerateContent
          (jsonRequest P (Prompts.adCopy (Some (CreativeForm.productDescription form)))
             adCopySchema))
       w (snd (App.submit P fuel form w)).
Proof.
  intros Hne Hblank Hurl Hhook.
  assert (Hdesc : productDescription (CreativeForm.inputsOf form)
                  = CreativeForm.productDescription form).
  { unfold CreativeForm.inputsOf, CreativeForm.description. cbn [productDescription].
    destruct (CreativeForm.productDescription form); [now elim Hne | reflexivity]. }
  split; [exact Hdesc |].
  set (inputs := fresh (dom (heap w))).
  set (w0 := Build_World (<[inputs := InputsObj (CreativeForm.inputsOf form)]> (heap w))
               (ext w) (trace w)).
  change (App.submit P fuel form w) with (App.handleGenerate P fuel inputs w0).
  assert (Hin : heap w0 !! inputs = Some (InputsObj (CreativeForm.inputsOf form)))
    by apply lookup_insert_eq.
  destruct (resolveCopy_blank_run P inputs w0 (CreativeForm.inputsOf form) Hin)
    as (w2 & Htrace & Hext & Hrun).
  { unfold CreativeForm.inputsOf. cbn [productUrl]. now rewrite Hurl. }
  { now rewrite Hdesc. }
  { unfold CreativeForm.inputsOf. cbn [hookText]. now rewrite Hhook. }
  rewrite Hdesc in Hrun. cbv zeta in Hrun.
  cut (startsWith
         (GenerateContent
            (jsonRequest P (Prompts.adCopy (Some (CreativeForm.productDescription form)))
               adCopySchema))
         w0 (snd (App.handleGenerate P fuel inputs w0)));
    [intros [rest Hrest]; exists rest; exact Hrest |].
  apply handleGenerate_first_call. rewrite Hrun.
  cut (startsWith
         (GenerateContent
            (jsonRequest P (Prompts.adCopy (Some (CreativeForm.productDescription form)))
               adCopySchema))
         w2 (snd ((let! initialAdCopy :=
                     generateAdCopy P (Some (CreativeForm.productDescription form)) in
                   let! finalAdCopy :=
                     proofreadAdCopy P initialAdCopy
                       (Some (CreativeForm.productDescription form)) in
                   let! empty := lengthIsZero P finalAdCopy in
                   if (empty : bool) then throw (Error (js "Failed to generate ad copy."))
                   else ret (fresh (dom (heap w0)),
                             Some (CreativeForm.productDescription form), finalAdCopy)) w2))).
  { intros [rest Hrest]. exists rest. rewrite Hrest, Htrace. reflexivity. }
  apply startsWith_bind.
  - unfold generateAdCopy. apply startsWith_bind.
    + unfold ai_models_generateContent, call.
      destruct (models_generateContent P _ (ext w2)) as [r x]. now exists [].
    + intros response. repeat first [eapply keeps_parse; stable | keeps_step].
  - intros initialAdCopy.
    repeat first
      [ eapply keeps_proofreadAdCopy; stable
      | eapply keeps_lengthIsZero; stable
      | keeps_step ].
Qed.

Lemma blank_description_goes_to_the_copy_generator_witness :
  productDescription (CreativeForm.inputsOf Demo.spaces) = js "  "
  /\ startsWith
       (GenerateContent
          (jsonRequest (Double.platform Sample.offline) (Prompts.adCopy (Some (js "  ")))
             adCopySchema))
       Sample.empty
       (snd (App.submit (Double.platform Sample.offline) 0 Demo.spaces Sample.empty)).
Proof.
  apply (blank_description_goes_to_the_copy_generator (Double.platform Sample.offline) 0
           Demo.spaces Sample.empty); [discriminate | reflexivity | reflexivity | reflexivity].
Defined.

(** ** An empty ad copy *)

Section EmptyCopy.
Context {Ext : Type} (P : Platform Ext).


Hypothesis Hempty :
  forall prompt x,
  exists response x',
    models_generateContent P (jsonRequest P prompt adCopySchema) x = (Resolved response, x')
    /\ JSON_parse P (interpolate (GenAI.text response)) = Some (JArray []).



End EmptyCopy.



(** ** The number of requests *)

Section Requests.
Context {Ext : Type}.

Lemma requests_app evs evs' : requests (evs ++ evs') = requests evs + requests evs'.
Proof. induction evs as [| ev evs IH]; simpl; [reflexivity | rewrite IH; lia]. Qed.

Lemma spends_weaken {A} n n' (m : M Ext A) : n <= n' -> spends n m -> spends n' m.
Proof. intros Hle Hm w. destruct (Hm w) as (evs & Hevs & Hn). exists evs. split; [exact Hevs | lia]. Qed.

Lemma spends_silent {A} (m : M Ext A) :
  (forall w, trace (snd (m w)) = trace w) -> forall n, spends n m.
Proof. intros Hm n w. exists []. rewrite Hm, app_nil_r. split; [reflexivity | simpl; lia]. Qed.

Lemma spends_ret {A} n (a : A) : spends (Ext := Ext) n (ret a).
Proof. now apply spends_silent. Qed.

Lemma spends_throw {A} n e : spends (Ext := Ext) (A := A) n (throw e).
Proof. now apply spends_silent. Qed.

Lemma spends_settle {A} n (r : Result A) : spends (Ext := Ext) n (settle r).
Proof. destruct r; [apply spends_ret | apply spends_throw]. Qed.

Lemma spends_readInputs n l : spends (Ext := Ext) n (readInputs l).
Proof.
  apply spends_silent. intros w. unfold readInputs.
  now destruct (heap w !! l) as [[u | i] |].
Qed.

Lemma spends_readImage n l : spends (Ext := Ext) n (readImage l).
Proof.
  apply spends_silent. intros w. unfold readImage.
  now destruct (heap w !! l) as [[u | i] |].
Qed.

Lemma spends_update n l f : spends (Ext := Ext) n (update l f).
Proof.
  apply spends_silent. intros w. unfold update.
  now destruct (heap w !! l) as [[u | i] |].
Qed.

Lemma spends_emit n ev : isRequest ev = false -> spends (Ext := Ext) n (emit ev).
Proof. intros Hev w. exists [ev]. split; [reflexivity |]. simpl. rewrite Hev. lia. Qed.

Lemma spends_callSync {A} n ev (f : Ext -> A * Ext) :
  isRequest ev = false -> spends n (callSync ev f).
Proof.
  intros Hev w. unfold spendsAt, callSync. destruct (f (ext w)) as [a x]. exists [ev].
  split; [reflexivity |]. simpl. rewrite Hev. lia.
Qed.

Lemma spends_call {A} n ev (f : Ext -> Result A * Ext) : spends (S n) (call ev f).
Proof.
  intros w. unfold spendsAt, call. destruct (f (ext w)) as [r x]. exists [ev].
  split; [reflexivity |]. simpl. destruct (isRequest ev); lia.
Qed.

(** The rule for a sequence, with what is known of the world in
    between. *)
Lemma spendsAt_bind {A B} n1 n2 (m : M Ext A) (k : A -> M Ext B) w :
  spendsAt n1 m w ->
  (forall a w1, m w = (Returned a, w1) -> spendsAt n2 (k a) w1) ->
  spendsAt (n1 + n2) (bind m k) w.
Proof.
  intros (evs & Hevs & Hn) Hk. unfold spendsAt, bind.
  destruct (m w) as [[a | e |] w1]; simpl in *.
  - destruct (Hk a w1 eq_refl) as (evs' & Hevs' & Hn').
    exists (evs ++ evs'). rewrite Hevs', Hevs, <- app_assoc, requests_app.
    split; [reflexivity | lia].
  - exists evs. split; [exact Hevs | lia].
  - exists evs. split; [exact Hevs | lia].
Qed.

Lemma spends_bind {A B} n1 n2 (m : M Ext A) (k : A -> M Ext B) :
  spends n1 m -> (forall a, spends n2 (k a)) -> spends (n1 + n2) (bind m k).
Proof. intros Hm Hk w. apply spendsAt_bind; [apply Hm | intros a w1 _; apply Hk]. Qed.

Lemma spends_tryCatch {A} n1 n2 (m : M Ext A) handler :
  spends n1 m -> (forall e, spends n2 (handler e)) -> spends (n1 + n2) (tryCatch m handler).
Proof.
  intros Hm Hh w. destruct (Hm w) as (evs & Hevs & Hn). unfold spendsAt, tryCatch.
  destruct (m w) as [[a | e |] w1]; simpl in *.
  - exists evs. split; [exact Hevs | lia].
  - destruct (Hh e w1) as (evs' & Hevs' & Hn').
    exists (evs ++ evs'). rewrite Hevs', Hevs, <- app_assoc, requests_app.
    split; [reflexivity | lia].
  - exists evs. split; [exact Hevs | lia].
Qed.

Lemma spends_Promise_all {A} (promises : list (M Ext A)) :
  Forall (spends 1) promises -> spends (length promises) (Promise_all promises).
Proof.
  induction 1 as [| p ps Hp Hps IH]; [apply spends_ret |].
  intros w. unfold spendsAt. cbn [Promise_all length].
  destruct (Hp w) as (evs1 & Hevs1 & Hn1). destruct (p w) as [r w1]. simpl in Hevs1.
  destruct (IH w1) as (evs2 & Hevs2 & Hn2).
  destruct (Promise_all ps w1) as [rs w2]. simpl in Hevs2. simpl.
  exists (evs1 ++ evs2). rewrite Hevs2, Hevs1, <- app_assoc, requests_app.
  split; [reflexivity | lia].
Qed.

Lemma spends_mapM {A B} (callback : A -> nat -> M Ext B) (l : list A) :
  (forall x i, spends 0 (callback x i)) -> forall i, spends 0 (mapM callback l i).
Proof.
  intros Hcb. induction l as [| x l IH]; intros i; cbn [mapM].
  - apply spends_ret.
  - apply (spends_bind 0 0); [apply Hcb | intros y].
    apply (spends_bind 0 0); [apply IH | intros ys]. apply spends_ret.
Qed.

Lemma spends_reduceM {A B} (callback : B -> A -> M Ext B) (l : list A) :
  (forall acc x, spends 0 (callback acc x)) -> forall acc, spends 0 (reduceM callback l acc).
Proof.
  intros Hcb. induction l as [| x l IH]; intros acc; cbn [reduceM].
  - apply spends_ret.
  - apply (spends_bind 0 0); [apply Hcb | intros acc']. apply IH.
Qed.

Context (P : Platform Ext).

Lemma spends_proofreadText text context : spends 1 (proofreadText P text context).
Proof.
  unfold proofreadText.
  destruct (negb (nonEmpty text) || negb (nonEmpty (trim text))); [apply spends_ret |].
  apply (spends_tryCatch 1 0).
  - apply (spends_bind 1 0); [apply spends_call | intros response].
    destruct (GenAI.text response); [apply spends_ret | apply spends_throw].
  - intros e. apply (spends_bind 0 0); [now apply spends_emit | intros _; apply spends_ret].
Qed.

Lemma spends_parse text : spends 0 (parse P text).
Proof. unfold parse. destruct (JSON_parse P _); [apply spends_ret | apply spends_throw]. Qed.

Lemma spends_generateAdCopy productInfo : spends 1 (generateAdCopy P productInfo).
Proof.
  unfold generateAdCopy. apply (spends_bind 1 0); [apply spends_call | intros response].
  apply (spends_tryCatch 0 0); [apply spends_parse | intros e].
  apply (spends_bind 0 0); [now apply spends_emit | intros _; apply spends_throw].
Qed.

Lemma spends_proofreadAdCopy adCopies context : spends 1 (proofreadAdCopy P adCopies context).
Proof.
  unfold proofreadAdCopy. destruct (falsyOrEmpty P adCopies); [apply spends_ret |].
  apply (spends_tryCatch 1 0).
  - apply (spends_bind 1 0); [apply spends_call | intros response; apply spends_parse].
  - intros e. apply (spends_bind 0 0); [now apply spends_emit | intros _; apply spends_ret].
Qed.

(** Steps 3 and 4 make at most three requests. *)
Lemma spends_copy_steps ci productInfo :
  spends (Ext := Ext) 3
    (let! c := readInputs ci in
     let! _ :=
       (if truthy (hookText c) then
          let! corrected := proofreadText P (default [] (hookText c)) productInfo in
          update ci (withHookText corrected)
        else ret tt) in
     let! initialAdCopy := generateAdCopy P productInfo in
     let! finalAdCopy := proofreadAdCopy P initialAdCopy productInfo in
     let! empty := lengthIsZero P finalAdCopy in
     if (empty : bool) then throw (Error (js "Failed to generate ad copy."))
     else ret (ci, productInfo, finalAdCopy)).
Proof.
  apply (spends_bind 0 3); [apply spends_readInputs | intros c].
  apply (spends_bind 1 2).
  { destruct (truthy (hookText c)); [| apply spends_ret].
    apply (spends_bind 1 0); [apply spends_proofreadText | intros t; apply spends_update]. }
  intros _. apply (spends_bind 1 1); [apply spends_generateAdCopy | intros initialAdCopy].
  apply (spends_bind 1 0); [apply spends_proofreadAdCopy | intros finalAdCopy].
  apply (spends_bind 0 0).
  - unfold lengthIsZero. destruct finalAdCopy; try apply spends_settle. apply spends_ret.
  - intros empty. destruct empty; [apply spends_throw | apply spends_ret].
Qed.

(** Steps 1 to 4 make at most four requests: the description is
    proofread only when there is no URL, and the product info is
    requested only when there is one. *)
Lemma spends_resolveCopy inputs : spends 4 (resolveCopy P inputs).
Proof.
  intros w. unfold spendsAt.
  destruct (heap w !! inputs) as [[u0 | i] |] eqn:Hu0;
    [| exists []; unfold resolveCopy; unfold bind at 1; rewrite spread_run, Hu0;
       simpl; rewrite app_nil_r; split; [reflexivity | lia] ..].
  destruct (truthy (productUrl u0)) eqn:Hurl.
  - rewrite (resolveCopy_url_run P inputs w u0 Hu0 Hurl). cbv zeta.
    match goal with
    | |- exists evs, trace (snd (?m ?w0)) = _ /\ _ =>
        cut (spends 4 m);
        [intros Hs; destruct (Hs w0) as (evs & Hevs & Hn); exists evs;
         split; [exact Hevs | exact Hn] |]
    end.
    apply (spends_bind 1 3);
      [unfold ai_models_generateContent; apply spends_call
      | intros response; apply spends_copy_steps].
  - set (ci := fresh (dom (heap w))).
    set (w0 := Build_World (<[ci := InputsObj u0]> (heap w)) (ext w) (trace w)).
    assert (Hci : heap w0 !! ci = Some (InputsObj u0)) by apply lookup_insert_eq.
    unfold resolveCopy. unfold bind at 1. rewrite spread_run, Hu0. fold ci w0.
    rewrite (bind_Returned _ _ _ _ _ (readInputs_run _ _ _ Hci)).
    rewrite Hurl. cbn [negb andb].
    cut (forall m : M Ext unit,
            spends 1 m -> keeps (writesOnly ci) m ->
            forall K : option jsstring -> M Ext (loc * option jsstring * JSValue),
              (forall productInfo, spends 3 (K productInfo)) ->
              spendsAt 4 (let! _ := m in let! productInfo := getProductInfo P ci in K productInfo)
                w0).
    { intros Hcut.
      destruct (Hcut
                  (if nonEmpty (productDescription u0) then
                     let! corrected :=
                       proofreadText P (productDescription u0)
                         (Some (js "A product description for an online ad.")) in
                     update ci (withProductDescription corrected)
                   else ret tt)) with
        (K := fun productInfo =>
                let! c := readInputs ci in
                let! _ :=
                  (if truthy (hookText c) then
                     let! corrected := proofreadText P (default [] (hookText c)) productInfo in
                     update ci (withHookText corrected)
                   else ret tt) in
                let! initialAdCopy := generateAdCopy P productInfo in
                let! finalAdCopy := proofreadAdCopy P initialAdCopy productInfo in
                let! empty := lengthIsZero P finalAdCopy in
                if (empty : bool) then throw (Error (js "Failed to generate ad copy."))
                else ret (ci, productInfo, finalAdCopy))
        as (evs & Hevs & Hn).
      - destruct (nonEmpty (productDescription u0)); [| apply spends_ret].
        apply (spends_bind 1 0); [apply spends_proofreadText | intros t; apply spends_update].
      - repeat first
          [ eapply keeps_proofreadText; apply writesOnly_stable
          | eapply keeps_update; [apply writesOnly_stable | intros ?; repeat split]
          | keeps_step ].
      - intros productInfo. apply spends_copy_steps.
      - exists evs. split; [exact Hevs | exact Hn]. }
    intros m Hm Hkeeps K HK.
    apply (spendsAt_bind 1 3); [apply Hm |].
    intros [] w1 Hrun.
    destruct (Hkeeps w0) as [_ Hat]. rewrite Hrun in Hat. simpl in Hat.
    destruct (Hat u0 Hci) as (u & Hu & _ & Hsame & _).
    assert (Hinfo : getProductInfo P ci w1 = (Returned (Some (productDescription u)), w1)).
    { unfold getProductInfo. rewrite (bind_Returned _ _ _ _ _ (readInputs_run _ _ _ Hu)).
      now rewrite Hsame, Hurl. }
    unfold spendsAt. rewrite (bind_Returned _ _ _ _ _ Hinfo). apply HK.
Qed.

Lemma spends_generateImages inputs productInfo :
  spends 3 (generateImages P inputs productInfo).
Proof.
  unfold generateImages.
  apply (spends_bind 0 3); [apply spends_readInputs | intros u].
  destruct (productImage u) as [imageRef |].
  - apply (spends_bind 0 3); [apply spends_readImage | intros image].
    apply (spends_bind 3 0); [| intros responses].
    + apply (spends_Promise_all (imageEditPromises P u image productInfo)).
      unfold imageEditPromises. apply Forall_map, Forall_forall. intros prompt _.
      apply spends_call.
    + apply (spends_bind 0 0).
      * apply spends_reduceM. intros acc response. unfold collectImage.
        destruct (editedImage response); [apply spends_ret |].
        apply (spends_bind 0 0); [now apply spends_emit | intros _; apply spends_ret].
      * intros successful.
        destruct (length successful =? 0); [apply spends_throw | apply spends_ret].
  - apply (spends_bind 3 0); [| intros responses].
    + apply (spends_Promise_all (imagePromises P u productInfo)).
      unfold imagePromises. apply Forall_map, Forall_forall. intros prompt _.
      apply spends_call.
    + apply spends_mapM. intros res index. unfold generatedImage.
      destruct (GenAI.generatedImages res) as [[| generated rest] |].
      * apply (spends_bind 0 0); [now apply spends_emit | intros _; apply spends_throw].
      * destruct (GenAI.image generated); [apply spends_ret | apply spends_throw].
      * apply (spends_bind 0 0); [now apply spends_emit | intros _; apply spends_throw].
Qed.

Lemma spends_combine imageUrls finalAdCopy : spends 0 (combine P imageUrls finalAdCopy).
Proof.
  unfold combine. destruct (length imageUrls =? 0); [apply spends_throw |].
  apply spends_mapM. intros url0 index. unfold imageCreative.
  apply (spends_bind 0 0); [now apply spends_callSync | intros uuid].
  apply (spends_bind 0 0); [| intros adCopy; apply spends_ret].
  unfold atIndexModLength. destruct finalAdCopy; try apply spends_settle. apply spends_ret.
Qed.

End Requests.

(** X14. The number of requests. Steps 1 to 4 make at most four
    requests to the service, whatever the inputs: the description is
    proofread only when there is no URL and the product info is
    requested only when there is one, so the two never add up. An
    image run makes at most seven requests in all, three of them for
    the images. *)
Theorem image_run_request_budget {Ext} (P : Platform Ext) (fuel : nat) (inputs : loc)
    (w : World Ext) (u0 : UserInputs) :
  heap w !! inputs = Some (InputsObj u0) ->
  creativeType u0 = IMAGE ->
  (exists evs,
      trace (snd (resolveCopy P inputs w)) = trace w ++ evs /\ requests evs <= 4)
  /\ (exists evs,
        trace (snd (generateAdCreatives P fuel inputs w)) = trace w ++ evs
        /\ requests evs <= 7).
Proof.
  intros Hu0 Htype. split; [apply spends_resolveCopy |].
  rewrite (generateAdCreatives_image_run P _ inputs w u0 Hu0 Htype).
  apply (spends_bind 4 3); [apply spends_resolveCopy |].
  intros [[ci productInfo] finalAdCopy].
  apply (spends_bind 3 0); [apply spends_generateImages | intros urls; apply spends_combine].
Qed.

Lemma image_run_request_budget_witness :
  exists evs,
    trace (snd (generateAdCreatives (Double.platform Sample.twoOfThree) 0 0
                  (Sample.withoutImage IMAGE)))
    = trace (Sample.withoutImage IMAGE) ++ evs
    /\ requests evs <= 7.
Proof.
  exact (proj2 (image_run_request_budget (Double.platform Sample.twoOfThree) 0 0
                  (Sample.withoutImage IMAGE) (Sample.request None IMAGE) eq_refl eq_refl)).
Defined.

(** ** The uploaded image *)

Lemma stripPrefix_Some (p s rest : jsstring) :
  Json.stripPrefix p s = Some rest <-> s = p ++ rest.
Proof.
  revert s. induction p as [| a p IH]; intros s; simpl.
  - split; [now intros [= ->] | now intros ->].
  - destruct s as [| b s]; [split; discriminate |].
    destruct (N.eqb_spec a b) as [-> | Hab].
    + rewrite IH. split; [now intros -> | now intros [= ->]].
    + split; [discriminate | intros [= Heq _]; now elim Hab].
Qed.

(** X10. The image the form stores and the preview it shows agree.
    The converted data URL is stored exactly when it is
    [data:image/jpeg;base64,] followed by a payload that is not empty
    and has no line terminator; the stored type is then [image/jpeg],
    and the source of the preview, built from the stored image, is the
    data URL again. *)
Theorem stored_image_round_trip (dataUrl : jsstring) (image : ProductImage) :
  Upload.parseConverted dataUrl = Some image
  <-> (Upload.previewSrc image = dataUrl
       /\ mimeType image = js "image/jpeg"
       /\ data image <> []
       /\ forallb (fun c => negb (Upload.isLineTerminator c)) (data image) = true).
Proof.
  unfold Upload.parseConverted, Upload.previewSrc. split.
  - destruct (Json.stripPrefix (js "data:image/jpeg;base64,") dataUrl) as [rest |] eqn:Hp;
      [| discriminate].
    apply stripPrefix_Some in Hp.
    destruct (forallb (fun c => negb (Upload.isLineTerminator c)) rest) eqn:Hall;
      [| discriminate].
    destruct rest as [| c rest]; [discriminate |].
    intros [= <-]. cbn [mimeType data]. subst dataUrl.
    repeat split; [discriminate | exact Hall].
  - destruct image as [mime payload]. cbn [mimeType data].
    intros (<- & -> & Hne & Hall).
    replace (Json.stripPrefix (js "data:image/jpeg;base64,")
               (js "data:" ++ js "image/jpeg" ++ js ";base64," ++ payload))
      with (Some payload) by (symmetry; now apply stripPrefix_Some).
    rewrite Hall. destruct payload; [now elim Hne | reflexivity].
Qed.

(** ** What the page shows *)

Section PageCells.

Lemma effect_cells s :
  Page.isLoading (Page.effect s) = Page.isLoading s
  /\ Page.results (Page.effect s) = Page.results s
  /\ Page.error (Page.effect s) = Page.error s.
Proof.
  unfold Page.effect.
  destruct (Page.isLoading s && Page.includes (js "video") (Page.loadingMessage s));
    repeat split.
Qed.

Lemma render_cells old new :
  Page.isLoading (Page.render old new) = Page.isLoading new
  /\ Page.results (Page.render old new) = Page.results new
  /\ Page.error (Page.render old new) = Page.error new.
Proof.
  unfold Page.render. destruct (Page.depsChanged old new); [| repeat split].
  cbv zeta. destruct (Page.depsChanged new (Page.effect new)).
  - destruct (effect_cells (Page.effect new)) as (-> & -> & ->). apply effect_cells.
  - apply effect_cells.
Qed.

Lemma tick_cells s :
  Page.isLoading (Page.tick s) = Page.isLoading s
  /\ Page.results (Page.tick s) = Page.results s
  /\ Page.error (Page.tick s) = Page.error s.
Proof.
  unfold Page.tick. destruct (Page.interval s) as [index |]; [| repeat split].
  match goal with
  | |- context [Page.render ?old ?new] => exact (render_cells old new)
  end.
Qed.

(** While the run lasts, whatever the number of ticks: the page is
    loading, with no results and no error. *)
Lemma loading_cells creativeType s n :
  Page.isLoading (Nat.iter n Page.tick (Page.start creativeType s)) = true
  /\ Page.results (Nat.iter n Page.tick (Page.start creativeType s)) = None
  /\ Page.error (Nat.iter n Page.tick (Page.start creativeType s)) = None.
Proof.
  induction n as [| n IH].
  - unfold Nat.iter, nat_rect, Page.start.
    match goal with
    | |- context [Page.render ?old ?new] => exact (render_cells old new)
    end.
  - rewrite Nat.iter_succ.
    destruct (tick_cells (Nat.iter n Page.tick (Page.start creativeType s)))
      as (-> & -> & ->).
    exact IH.
Qed.

(** The second run of the effect in a render leaves its dependencies
    as the first run set them. *)
Lemma effect_settles s :
  Page.depsChanged (Page.effect s) (Page.effect (Page.effect s)) = false.
Proof.
  assert (Hfirst : Page.includes (js "video") (Page.messageAt 0) = true)
    by (vm_compute; reflexivity).
  assert (Hsame : forall s1 s2,
             Page.isLoading s1 = Page.isLoading s2 ->
             Page.loadingMessage s1 = Page.loadingMessage s2 ->
             Page.depsChanged s1 s2 = false).
  { intros s1 s2 H1 H2. unfold Page.depsChanged. now rewrite !bool_decide_eq_true_2. }
  apply Hsame.
  - symmetry. apply effect_cells.
  - unfold Page.effect.
    destruct (Page.isLoading s) eqn:Hl;
      destruct (Page.includes (js "video") (Page.loadingMessage s)) eqn:Hi;
      cbn [andb Page.isLoading Page.loadingMessage];
      rewrite ?Hl, ?Hi, ?Hfirst; reflexivity.
Qed.

End PageCells.

(** X11. What the page shows for a run. While the run lasts the
    loading state is shown, whatever the interval did; the handler
    itself never throws. When the run returned, the creatives are
    shown. When it threw, the error state is shown with the message of
    the exception, unless that message is empty: an empty message is
    falsy, and the page then shows the empty state, as if nothing had
    been asked for. *)
Theorem page_after_run {Ext} (P : Platform Ext) (fuel : nat) (inputs : loc) (w : World Ext)
    (creativeType : CreativeType) (s : Page.State) (n : nat) :
  let during := Nat.iter n Page.tick (Page.start creativeType s) in
  Page.ResultsDisplay during = Page.LoadingState (Page.loadingMessage during)
  /\ match fst (generateAdCreatives P fuel inputs w),
           fst (App.handleGenerate P fuel inputs w) with
     | Returned creatives, Returned v =>
         Page.ResultsDisplay (Page.finish v during) = Page.Creatives creatives
     | Threw e, Returned v =>
         Page.ResultsDisplay (Page.finish v during)
         = (if nonEmpty (App.messageOf e) then Page.ErrorState (App.messageOf e)
            else Page.EmptyState)
     | Pending, Pending => True
     | _, _ => False
     end.
Proof.
  intros during.
  destruct (loading_cells creativeType s n) as (Hloading & Hresults & Herror).
  fold during in Hloading, Hresults, Herror.
  assert (Hfinish : forall v,
             Page.ResultsDisplay (Page.finish v during)
             = match v with
               | App.Results creatives => Page.Creatives creatives
               | App.ErrorMessage message =>
                   if nonEmpty message then Page.ErrorState message else Page.EmptyState
               end).
  { intros v. unfold Page.ResultsDisplay, Page.finish.
    match goal with
    | |- context [Page.render ?old ?new] =>
        destruct (render_cells old new) as (-> & -> & ->)
    end.
    cbn [Page.isLoading Page.results Page.error]. rewrite Hresults, Herror.
    destruct v as [creatives | [| c message]]; reflexivity. }
  split.
  - unfold Page.ResultsDisplay. now rewrite Hloading.
  - unfold App.handleGenerate, tryCatch, bind.
    destruct (generateAdCreatives P fuel inputs w) as [[creatives | e |] w1]; simpl.
    + apply (Hfinish (App.Results creatives)).
    + apply (Hfinish (App.ErrorMessage (App.messageOf e))).
    + exact I.
Qed.

(** X12. The loading message of a video run changes once. A run
    started from a page that is not loading shows the first video
    message and starts the interval; the first tick shows the second
    message, in which the word [video] does not occur, so the effect
    clears the interval and starts no other: from then on the message
    stays the second one, and the other three are never shown. An
    image run starts no interval at all. *)
Theorem loading_message_changes_once (s : Page.State) (n : nat) :
  Page.isLoading s = false ->
  (let started := Page.start VIDEO s in
   Page.loadingMessage started = Page.messageAt 0
   /\ Page.interval started = Some 0
   /\ Page.loadingMessage (Nat.iter (S n) Page.tick started) = Page.messageAt 1
   /\ Page.interval (Nat.iter (S n) Page.tick started) = None)
  /\ (let started := Page.start IMAGE s in
      Page.interval started = None
      /\ Nat.iter n Page.tick started = started).
Proof.
  intros Hs.
  assert (Hvideo : Page.start VIDEO s
                   = {| Page.isLoading := true; Page.loadingMessage := Page.messageAt 0;
                        Page.results := None; Page.error := None;
                        Page.interval := Some 0 |}).
  { destruct s as [loading message results error interval]. simpl in Hs. subst loading.
    vm_compute. reflexivity. }
  assert (Himage : Page.start IMAGE s
                   = {| Page.isLoading := true;
                        Page.loadingMessage := js "Generating image creatives...";
                        Page.results := None; Page.error := None;
                        Page.interval := None |}).
  { destruct s as [loading message results error interval]. simpl in Hs. subst loading.
    vm_compute. reflexivity. }
  assert (Hidle : forall s0 k, Page.interval s0 = None -> Nat.iter k Page.tick s0 = s0).
  { intros s0 k H0. induction k as [| k IH]; [reflexivity |].
    rewrite Nat.iter_succ, IH. unfold Page.tick. now rewrite H0. }
  split; cbv zeta.
  - rewrite Hvideo. split; [reflexivity |]. split; [reflexivity |].
    rewrite Nat.iter_succ_r.
    assert (Hfirst : Page.tick {| Page.isLoading := true; Page.loadingMessage := Page.messageAt 0;
                                  Page.results := None; Page.error := None;
                                  Page.interval := Some 0 |}
                     = {| Page.isLoading := true; Page.loadingMessage := Page.messageAt 1;
                          Page.results := None; Page.error := None;
                          Page.interval := None |})
      by (vm_compute; reflexivity).
    rewrite Hfirst, Hidle by reflexivity. split; reflexivity.
  - rewrite Himage. split; [reflexivity |]. now apply Hidle.
Qed.

Lemma loading_message_changes_once_witness :
  Page.loadingMessage (Nat.iter 3 Page.tick (Page.start VIDEO Page.initial))
  = Page.messageAt 1.
Proof.
  destruct (loading_message_changes_once Page.initial 2 eq_refl) as [(_ & _ & H & _) _].
  exact H.
Defined.
